(** * The libuv timer heap: src/heap-inl.h and src/timer.c

    A shallow embedding of the intrusive binary min-heap and of the timer
    scheduler built on it, followed by the properties of both.

    Memory is modelled field-wise: a pointer to a [struct heap_node] (which
    is also, through [container_of], the pointer to the enclosing
    [uv_timer_t]) is a [ptr]; NULL is [None].  Functions that dereference a
    pointer return [None] where the C code would dereference NULL or where a
    loop exceeds the iteration bound of a 32-bit heap. *)

From Stdlib Require Import ZArith Lia List Bool Sorted Permutation.
Import ListNotations.
Local Open Scope Z_scope.

(** ** Machine integers *)

Definition UINT_MAX : Z := 2 ^ 32 - 1.
Definition UINT64_MAX : Z := 2 ^ 64 - 1.

(** [unsigned int] arithmetic wraps modulo 2^32, [uint64_t] modulo 2^64. *)
Definition uint (z : Z) : Z := z mod 2 ^ 32.
Definition uint64 (z : Z) : Z := z mod 2 ^ 64.

(** ** Option as the error monad of NULL dereference *)

Definition bind {A B : Type} (m : option A) (f : A -> option B) : option B :=
  match m with
  | Some a => f a
  | None => None
  end.

Notation "x <- m ;; k" := (bind m (fun x => k))
  (at level 61, m at next level, right associativity).
Notation "' p <- m ;; k" := (bind m (fun x => match x with p => k end))
  (at level 61, p pattern, m at next level, right associativity).

(** ** heap-inl.h: data *)

Definition ptr := positive.

Definition ptr_eqb (a b : option ptr) : bool :=
  match a, b with
  | Some x, Some y => Pos.eqb x y
  | None, None => true
  | _, _ => false
  end.

(** [struct heap_node] *)
Record heap_node : Type := HeapNode {
  left : option ptr;
  right : option ptr;
  parent : option ptr
}.

(** [struct heap] *)
Record heap : Type := Heap {
  min : option ptr;
  nelts : Z
}.

(** The part of memory the heap functions touch: every node, and the heap
    structure itself. *)
Record mem : Type := Mem {
  node : ptr -> heap_node;
  hp : heap
}.

Definition upd {A : Type} (f : ptr -> A) (x : ptr) (v : A) : ptr -> A :=
  fun y => if Pos.eqb y x then v else f y.

Definition set_node (s : mem) (x : ptr) (v : heap_node) : mem :=
  Mem (upd (node s) x v) (hp s).
Definition set_left (s : mem) (x : ptr) (v : option ptr) : mem :=
  set_node s x (HeapNode v (right (node s x)) (parent (node s x))).
Definition set_right (s : mem) (x : ptr) (v : option ptr) : mem :=
  set_node s x (HeapNode (left (node s x)) v (parent (node s x))).
Definition set_parent (s : mem) (x : ptr) (v : option ptr) : mem :=
  set_node s x (HeapNode (left (node s x)) (right (node s x)) v).
Definition set_min (s : mem) (v : option ptr) : mem :=
  Mem (node s) (Heap v (nelts (hp s))).
Definition set_nelts (s : mem) (n : Z) : mem :=
  Mem (node s) (Heap (min (hp s)) n).

(** A [struct heap_node**]: the address of [heap->min], of [x->left] or of
    [x->right]. *)
Inductive loc : Type :=
| AtMin
| AtLeft (x : ptr)
| AtRight (x : ptr).

Definition load (s : mem) (l : loc) : option ptr :=
  match l with
  | AtMin => min (hp s)
  | AtLeft x => left (node s x)
  | AtRight x => right (node s x)
  end.

Definition store (s : mem) (l : loc) (v : option ptr) : mem :=
  match l with
  | AtMin => set_min s v
  | AtLeft x => set_left s x v
  | AtRight x => set_right s x v
  end.

(** ** heap-inl.h: functions *)

(** [heap_init], applied to the heap structure inside a memory. *)
Definition heap_init (s : mem) : mem := Mem (node s) (Heap None 0).

Definition heap_min (s : mem) : option ptr := min (hp s).

(** [heap_node_swap(heap, parent, child)], statement by statement. *)
Definition heap_node_swap (s : mem) (parent_ child : ptr) : mem :=
  let t := node s parent_ in
  let s := set_node s parent_ (node s child) in
  let s := set_node s child t in
  let s := set_parent s parent_ (Some child) in
  let '(s, sibling) :=
    if ptr_eqb (left (node s child)) (Some child)
    then let s := set_left s child (Some parent_) in (s, right (node s child))
    else let s := set_right s child (Some parent_) in (s, left (node s child)) in
  let s := match sibling with
           | Some sb => set_parent s sb (Some child)
           | None => s
           end in
  let s := match left (node s parent_) with
           | Some l => set_parent s l (Some parent_)
           | None => s
           end in
  let s := match right (node s parent_) with
           | Some r => set_parent s r (Some parent_)
           | None => s
           end in
  match parent (node s child) with
  | None => set_min s (Some child)
  | Some g =>
      if ptr_eqb (left (node s g)) (Some parent_)
      then set_left s g (Some child)
      else set_right s g (Some child)
  end.

(** The loop [for (k = 0, n = ...; n >= 2; k += 1, n /= 2)
    path = (path << 1) | (n & 1);] shared by [heap_insert] and
    [heap_remove].  An [unsigned int] below 2^32 is halved at most 31
    times, so the callers run it with 32 units of fuel. *)
Fixpoint path_loop (fuel : nat) (path : Z) (k : nat) (n : Z) : option (Z * nat) :=
  if 2 <=? n then
    match fuel with
    | O => None
    | S fuel' =>
        path_loop fuel' (uint (Z.lor (Z.shiftl path 1) (Z.land n 1))) (S k) (n / 2)
    end
  else Some (path, k).

(** The traversal of [heap_insert]: [while (k > 0) { parent = child; ... }]. *)
Fixpoint insert_walk (s : mem) (k : nat) (path : Z) (parent_ child : loc)
  : option (loc * loc) :=
  match k with
  | O => Some (parent_, child)
  | S k' =>
      x <- load s child ;;
      insert_walk s k' (Z.shiftr path 1) child
        (if Z.eqb (Z.land path 1) 0 then AtLeft x else AtRight x)
  end.

(** The traversal of [heap_remove]: [while (k > 0) { ... max = ... }]. *)
Fixpoint remove_walk (s : mem) (k : nat) (path : Z) (max : loc) : option loc :=
  match k with
  | O => Some max
  | S k' =>
      x <- load s max ;;
      remove_walk s k' (Z.shiftr path 1)
        (if Z.eqb (Z.land path 1) 0 then AtLeft x else AtRight x)
  end.

(** Number of iterations granted to a repair loop: a complete tree of fewer
    than 2^32 nodes has at most 32 levels. *)
Definition depth_fuel : nat := 32.

Section HeapOps.

(** [heap_compare_fn less_than]: non-zero iff a < b. *)
Variable less_than : ptr -> ptr -> bool.

(** [while (x->parent != NULL && less_than(x, x->parent))
      heap_node_swap(heap, x->parent, x);]
    the last loop of both [heap_insert] and [heap_remove]. *)
Fixpoint sift_up (fuel : nat) (s : mem) (x : ptr) : option mem :=
  match parent (node s x) with
  | None => Some s
  | Some p =>
      if less_than x p then
        match fuel with
        | O => None
        | S fuel' => sift_up fuel' (heap_node_swap s p x) x
        end
      else Some s
  end.

(** The [for (;;)] loop of [heap_remove]. *)
Fixpoint sift_down (fuel : nat) (s : mem) (child : ptr) : option mem :=
  let smallest := child in
  let smallest :=
    match left (node s child) with
    | Some l => if less_than l smallest then l else smallest
    | None => smallest
    end in
  let smallest :=
    match right (node s child) with
    | Some r => if less_than r smallest then r else smallest
    | None => smallest
    end in
  if Pos.eqb smallest child then Some s
  else
    match fuel with
    | O => None
    | S fuel' => sift_down fuel' (heap_node_swap s child smallest) child
    end.

Definition heap_insert (s : mem) (newnode : ptr) : option mem :=
  let s := set_left s newnode None in
  let s := set_right s newnode None in
  let s := set_parent s newnode None in
  '(path, k) <- path_loop 32 0 0 (uint (1 + nelts (hp s))) ;;
  '(parent_, child) <- insert_walk s k path AtMin AtMin ;;
  let s := set_parent s newnode (load s parent_) in
  let s := store s child (Some newnode) in
  let s := set_nelts s (uint (nelts (hp s) + 1)) in
  sift_up depth_fuel s newnode.

(** [heap_remove(heap, node, less_than)] for a non-NULL [node]. *)
Definition heap_remove (s : mem) (node_ : ptr) : option mem :=
  if nelts (hp s) =? 0 then Some s
  else
    '(path, k) <- path_loop 32 0 0 (nelts (hp s)) ;;
    max <- remove_walk s k path AtMin ;;
    let s := set_nelts s (uint (nelts (hp s) - 1)) in
    let child_ := load s max in
    let s := store s max None in
    if ptr_eqb child_ (Some node_) then
      if ptr_eqb child_ (min (hp s)) then Some (set_min s None) else Some s
    else
      child <- child_ ;;
      let s := set_left s child (left (node s node_)) in
      let s := set_right s child (right (node s node_)) in
      let s := set_parent s child (parent (node s node_)) in
      let s := match left (node s child) with
               | Some l => set_parent s l (Some child)
               | None => s
               end in
      let s := match right (node s child) with
               | Some r => set_parent s r (Some child)
               | None => s
               end in
      let s := match parent (node s node_) with
               | None => set_min s (Some child)
               | Some p =>
                   if ptr_eqb (left (node s p)) (Some node_)
                   then set_left s p (Some child)
                   else set_right s p (Some child)
               end in
      s <- sift_down depth_fuel s child ;;
      sift_up depth_fuel s child.

End HeapOps.

(** ** timer.c: data *)

(** A [uv_timer_cb] function pointer, identified by a code label. *)
Definition cb_id := positive.

(** The fields of [uv_timer_t] other than its embedded [heap_node], which
    lives in the [mem] of the loop under the same pointer.  [active] and
    [closing] are the two bits of [handle->flags] that timer.c tests. *)
Record uv_timer : Type := UvTimer {
  timer_cb : option cb_id;
  timeout : Z;
  repeat : Z;
  start_id : Z;
  active : bool;
  closing : bool
}.

(** The fields of [uv_loop_t] that timer.c uses. *)
Record uv_loop : Type := UvLoop {
  time : Z;
  timer_counter : Z;
  timer_heap : mem;
  timers : ptr -> uv_timer
}.

Definition set_timer (L : uv_loop) (h : ptr) (v : uv_timer) : uv_loop :=
  UvLoop (time L) (timer_counter L) (timer_heap L) (upd (timers L) h v).
Definition set_timer_heap (L : uv_loop) (m : mem) : uv_loop :=
  UvLoop (time L) (timer_counter L) m (timers L).
Definition set_timer_counter (L : uv_loop) (c : Z) : uv_loop :=
  UvLoop (time L) c (timer_heap L) (timers L).
Definition set_time (L : uv_loop) (t : Z) : uv_loop :=
  UvLoop t (timer_counter L) (timer_heap L) (timers L).

Definition set_timer_cb (L : uv_loop) (h : ptr) (v : option cb_id) : uv_loop :=
  let t := timers L h in
  set_timer L h (UvTimer v (timeout t) (repeat t) (start_id t) (active t) (closing t)).
Definition set_timeout (L : uv_loop) (h : ptr) (v : Z) : uv_loop :=
  let t := timers L h in
  set_timer L h (UvTimer (timer_cb t) v (repeat t) (start_id t) (active t) (closing t)).
Definition set_repeat (L : uv_loop) (h : ptr) (v : Z) : uv_loop :=
  let t := timers L h in
  set_timer L h (UvTimer (timer_cb t) (timeout t) v (start_id t) (active t) (closing t)).
Definition set_start_id (L : uv_loop) (h : ptr) (v : Z) : uv_loop :=
  let t := timers L h in
  set_timer L h (UvTimer (timer_cb t) (timeout t) (repeat t) v (active t) (closing t)).
Definition set_active (L : uv_loop) (h : ptr) (v : bool) : uv_loop :=
  let t := timers L h in
  set_timer L h (UvTimer (timer_cb t) (timeout t) (repeat t) (start_id t) v (closing t)).
Definition set_closing (L : uv_loop) (h : ptr) (v : bool) : uv_loop :=
  let t := timers L h in
  set_timer L h (UvTimer (timer_cb t) (timeout t) (repeat t) (start_id t) (active t) v).

(** Modelled from the spec: the error code [UV_EINVAL] of uv.h, which is not
    among the sources; the spec only calls it the invalid-argument error.
    The value is the one of uv-errno.h on Linux. *)
Definition UV_EINVAL : Z := -22.

(** Modelled from the spec: [INT_MAX] of limits.h, "the platform's maximum
    signed int bound", for a 32-bit [int]. *)
Definition INT_MAX : Z := 2 ^ 31 - 1.

(** Modelled from the spec: the macros [uv__is_active], [uv__is_closing],
    [uv__handle_start] and [uv__handle_stop] of uv-common.h, which is not
    among the sources.  The spec describes the handle's "active flag
    indicating current heap membership" and a handle "being torn down";
    the loop's count of active handles is outside the scope of the spec. *)
Definition uv__is_active (L : uv_loop) (h : ptr) : bool := active (timers L h).
Definition uv__is_closing (L : uv_loop) (h : ptr) : bool := closing (timers L h).
Definition uv__handle_start (L : uv_loop) (h : ptr) : uv_loop := set_active L h true.
Definition uv__handle_stop (L : uv_loop) (h : ptr) : uv_loop := set_active L h false.

(** Modelled from the spec: [uv__handle_init] of uv-common.h; a handle is
    "created inactive". *)
Definition uv__handle_init (L : uv_loop) (h : ptr) : uv_loop :=
  set_closing (set_active L h false) h false.

(** ** timer.c: functions *)

(** [timer_less_than], reading the handles that enclose the two nodes. *)
Definition timer_less_than (tm : ptr -> uv_timer) (ha hb : ptr) : bool :=
  let a := tm ha in
  let b := tm hb in
  if timeout a <? timeout b then true
  else if timeout b <? timeout a then false
  else start_id a <? start_id b.

Definition uv_timer_init (L : uv_loop) (handle : ptr) : uv_loop * Z :=
  let L := uv__handle_init L handle in
  let L := set_timer_cb L handle None in
  let L := set_timeout L handle 0 in
  let L := set_repeat L handle 0 in
  (L, 0).

Definition uv_timer_stop (L : uv_loop) (handle : ptr) : option (uv_loop * Z) :=
  if negb (uv__is_active L handle) then Some (L, 0)
  else
    m <- heap_remove (timer_less_than (timers L)) (timer_heap L) handle ;;
    let L := set_timer_heap L m in
    let L := uv__handle_stop L handle in
    Some (L, 0).

Definition uv_timer_start (L : uv_loop) (handle : ptr) (cb : option cb_id)
    (timeout_ repeat_ : Z) : option (uv_loop * Z) :=
  if uv__is_closing L handle || match cb with None => true | Some _ => false end
  then Some (L, UV_EINVAL)
  else
    '(L, _) <- (if uv__is_active L handle then uv_timer_stop L handle
                else Some (L, 0)) ;;
    let clamped_timeout := uint64 (time L + timeout_) in
    let clamped_timeout :=
      if clamped_timeout <? timeout_ then uint64 (-1) else clamped_timeout in
    let L := set_timer_cb L handle cb in
    let L := set_timeout L handle clamped_timeout in
    let L := set_repeat L handle repeat_ in
    let L := set_timer_counter (set_start_id L handle (timer_counter L))
               (uint64 (timer_counter L + 1)) in
    m <- heap_insert (timer_less_than (timers L)) (timer_heap L) handle ;;
    let L := set_timer_heap L m in
    let L := uv__handle_start L handle in
    Some (L, 0).

Definition uv_timer_again (L : uv_loop) (handle : ptr) : option (uv_loop * Z) :=
  match timer_cb (timers L handle) with
  | None => Some (L, UV_EINVAL)
  | Some _ =>
      if negb (repeat (timers L handle) =? 0) then
        '(L, _) <- uv_timer_stop L handle ;;
        '(L, _) <- uv_timer_start L handle (timer_cb (timers L handle))
                     (repeat (timers L handle)) (repeat (timers L handle)) ;;
        Some (L, 0)
      else Some (L, 0)
  end.

Definition uv_timer_set_repeat (L : uv_loop) (handle : ptr) (repeat_ : Z) : uv_loop :=
  set_repeat L handle repeat_.

Definition uv_timer_get_repeat (L : uv_loop) (handle : ptr) : Z :=
  repeat (timers L handle).

Definition uv_timer_get_due_in (L : uv_loop) (handle : ptr) : Z :=
  if timeout (timers L handle) <=? time L then 0
  else uint64 (timeout (timers L handle) - time L).

(** The conversion [(int) diff] of a [uint64_t] to a 32-bit [int]. *)
Definition to_int (z : Z) : Z := (z + 2 ^ 31) mod 2 ^ 32 - 2 ^ 31.

Definition uv__next_timeout (L : uv_loop) : Z :=
  match heap_min (timer_heap L) with
  | None => -1
  | Some handle =>
      if timeout (timers L handle) <=? time L then 0
      else
        let diff := uint64 (timeout (timers L handle) - time L) in
        let diff := if INT_MAX <? diff then INT_MAX else diff in
        to_int diff
  end.

Definition uv__timer_close (L : uv_loop) (handle : ptr) : option uv_loop :=
  '(L, _) <- uv_timer_stop L handle ;; Some L.

Section RunTimers.

(** What the user's callbacks can see and change besides the loop. *)
Variable U : Type.

(** The code behind each callback pointer: called with the handle, it
    transforms the loop and the user's data, or crashes. *)
Variable callbacks : cb_id -> ptr -> uv_loop * U -> option (uv_loop * U).

(** [uv__run_timers]: each unit of fuel pays for one firing. *)
Fixpoint uv__run_timers (fuel : nat) (w : uv_loop * U) : option (uv_loop * U) :=
  let '(L, u) := w in
  match heap_min (timer_heap L) with
  | None => Some w
  | Some handle =>
      if time L <? timeout (timers L handle) then Some w
      else
        match fuel with
        | O => None
        | S fuel' =>
            '(L, _) <- uv_timer_stop L handle ;;
            '(L, _) <- uv_timer_again L handle ;;
            cb <- timer_cb (timers L handle) ;;
            w' <- callbacks cb handle (L, u) ;;
            uv__run_timers fuel' w'
        end
  end.

End RunTimers.

(** ** A first run: the four timers of the ordering test *)

Definition mem0 : mem := Mem (fun _ => HeapNode None None None) (Heap None 0).
Definition loop0 : uv_loop :=
  UvLoop 0 0 mem0 (fun _ => UvTimer None 0 0 0 false false).

(** A callback that appends its handle to a log of firings. *)
Definition log_cb (_ : cb_id) (h : ptr) (w : uv_loop * list ptr)
  : option (uv_loop * list ptr) :=
  Some (fst w, snd w ++ [h]).

Definition start_all (L : uv_loop) (hs : list (ptr * Z * Z)) : option uv_loop :=
  fold_left (fun acc '(h, t, r) =>
               L <- acc ;; '(L, _) <- uv_timer_start L h (Some 1%positive) t r ;; Some L)
            hs (Some L).

Definition four_timers : option uv_loop :=
  start_all loop0 [(1%positive, 10, 0); (2%positive, 10, 0);
                   (3%positive, 5, 0); (4%positive, 20, 0)].

(** * Specification-level view *)

(** ** Two statement patterns of heap-inl.h, named *)

(** [if (o != NULL) o->parent = p;] *)
Definition relink_parent (s : mem) (o : option ptr) (p : ptr) : mem :=
  match o with
  | Some c => set_parent s c (Some p)
  | None => s
  end.

(** [if (g == NULL) heap->min = new; else if (g->left == old) g->left = new;
    else g->right = new;] *)
Definition replace_child (s : mem) (g : option ptr) (old new : ptr) : mem :=
  match g with
  | None => set_min s (Some new)
  | Some gp =>
      if ptr_eqb (left (node s gp)) (Some old)
      then set_left s gp (Some new)
      else set_right s gp (Some new)
  end.

(** The statements of [heap_remove] that put [child] where [node] was:
    [child->left = node->left; ...] up to the repair of the link from
    [node->parent]. *)
Definition splice (s : mem) (node_ child : ptr) : mem :=
  let s := set_left s child (left (node s node_)) in
  let s := set_right s child (right (node s node_)) in
  let s := set_parent s child (parent (node s node_)) in
  let s := relink_parent s (left (node s child)) child in
  let s := relink_parent s (right (node s child)) child in
  replace_child s (parent (node s node_)) node_ child.

(** The memory [heap_node_swap s y x] leaves at node [z], in closed form. *)
Definition swapped_node (s : mem) (y x z : ptr) : heap_node :=
  let ny := node s y in
  let nx := node s x in
  let nz := node s z in
  let is_left := ptr_eqb (left ny) (Some x) in
  let sibling := if is_left then right ny else left ny in
  if Pos.eqb z x then
    if is_left then HeapNode (Some y) (right ny) (parent ny)
    else HeapNode (left ny) (Some y) (parent ny)
  else if Pos.eqb z y then HeapNode (left nx) (right nx) (Some x)
  else
    HeapNode
      (if ptr_eqb (parent ny) (Some z) && ptr_eqb (left nz) (Some y)
       then Some x else left nz)
      (if ptr_eqb (parent ny) (Some z) && negb (ptr_eqb (left nz) (Some y))
       then Some x else right nz)
      (if ptr_eqb (left nx) (Some z) || ptr_eqb (right nx) (Some z) then Some y
       else if ptr_eqb sibling (Some z) then Some x
       else parent nz).

(** ** Level-order positions *)

(** The node at level-order position [p] (the root is 1, the children of
    [p] are [2p] and [2p+1]): follow the binary digits of [p] below its
    leading one from [heap->min], 0 for left and 1 for right. *)
Fixpoint node_at (s : mem) (p : positive) : option ptr :=
  match p with
  | xH => min (hp s)
  | xO q => x <- node_at s q ;; left (node s x)
  | xI q => x <- node_at s q ;; right (node s x)
  end.

(** The nodes linked into the heap. *)
Inductive reachable (s : mem) : ptr -> Prop :=
| reach_min x : min (hp s) = Some x -> reachable s x
| reach_left x y : reachable s x -> left (node s x) = Some y -> reachable s y
| reach_right x y : reachable s x -> right (node s x) = Some y -> reachable s y.

(** An array of nodes indexed by level-order position; positions outside
    [1..n] are empty. *)
Definition arr := Z -> option ptr.

(** Memory [s] lays out the array [a] of [n] nodes as a linked tree. *)
Record heap_rep (s : mem) (a : arr) (n : Z) : Prop := {
  rep_range : 0 <= n < 2 ^ 32;
  rep_dom : forall i, a i <> None <-> 1 <= i <= n;
  rep_inj : forall i j x, a i = Some x -> a j = Some x -> i = j;
  rep_min : min (hp s) = a 1;
  rep_nelts : nelts (hp s) = n;
  rep_node : forall i x, a i = Some x ->
             node s x = HeapNode (a (2 * i)) (a (2 * i + 1)) (a (i / 2))
}.

Definition exchange (a : arr) (i j : Z) : arr :=
  fun k => if k =? i then a j else if k =? j then a i else a k.

Definition place (a : arr) (i : Z) (v : option ptr) : arr :=
  fun k => if k =? i then v else a k.

Definition empty_arr : arr := fun _ => None.

(** The array occupies exactly the positions [1..n]. *)
Definition arr_dom (a : arr) (n : Z) : Prop :=
  forall i, a i <> None <-> 1 <= i <= n.

(** The node [x] sits somewhere in the array. *)
Definition arr_mem (a : arr) (x : ptr) : Prop :=
  exists i, a i = Some x.

(** The [struct heap_node**] that holds position [i] of the array. *)
Definition slot (a : arr) (i : Z) : loc :=
  if i <=? 1 then AtMin
  else match a (i / 2) with
       | Some y => if Z.even i then AtLeft y else AtRight y
       | None => AtMin
       end.

(** The [k] low bits of [path], lowest first: the choices the traversal
    loops of [heap_insert] and [heap_remove] make, in order. *)
Fixpoint bits_of (k : nat) (path : Z) : list bool :=
  match k with
  | O => []
  | S k' => negb (Z.eqb (Z.land path 1) 0) :: bits_of k' (Z.shiftr path 1)
  end.

(** The level-order position reached from position [i] by a list of
    choices. *)
Definition idx_of (bits : list bool) (i : Z) : Z :=
  fold_left (fun i (b : bool) => 2 * i + (if b then 1 else 0)) bits i.

(** The spec's derivation of the path: "repeatedly extracting the low bit
    and halving", which lists the left/right choices from the bottom level
    up; [true] is right. *)
Fixpoint low_bits (p : positive) : list bool :=
  match p with
  | xH => []
  | xO q => false :: low_bits q
  | xI q => true :: low_bits q
  end.

(** Follow left/right choices, root first, from a [struct heap_node**]. *)
Fixpoint follow (s : mem) (path : list bool) (l : loc) : option loc :=
  match path with
  | [] => Some l
  | b :: path' =>
      x <- load s l ;;
      follow s path' (if b then AtRight x else AtLeft x)
  end.

(** ** The heap algorithms on arrays, after the spec's words *)

Section ArrayOps.

Variable less_than : ptr -> ptr -> bool.

(** [less_than] on array entries; an absent entry compares false. *)
Definition lto (o1 o2 : option ptr) : bool :=
  match o1, o2 with
  | Some x, Some y => less_than x y
  | _, _ => false
  end.

(** "while it has a parent and less_than(node, parent) holds, the node and
    its parent are swapped".  Returns the array and where the node ends. *)
Fixpoint sift_up_arr (a : arr) (p : positive) : arr * Z :=
  match p with
  | xH => (a, 1)
  | xO q | xI q =>
      if lto (a (Zpos p)) (a (Zpos q))
      then sift_up_arr (exchange a (Zpos q) (Zpos p)) q
      else (a, Zpos p)
  end.

(** "repeatedly compare the relocated node against its current children,
    swap with the smaller child if smaller, until it has no child that is
    out of order". *)
Fixpoint sift_down_arr (fuel : nat) (a : arr) (i : Z) : arr * Z :=
  let smallest := i in
  let smallest := if lto (a (2 * i)) (a smallest) then 2 * i else smallest in
  let smallest := if lto (a (2 * i + 1)) (a smallest) then 2 * i + 1 else smallest in
  if smallest =? i then (a, i)
  else
    match fuel with
    | O => (a, i)
    | S fuel' => sift_down_arr fuel' (exchange a i smallest) smallest
    end.

(** [insert]: the node goes to the first free position, then up. *)
Definition insert_arr (a : arr) (n : Z) (x : ptr) : arr :=
  fst (sift_up_arr (place a (n + 1) (Some x)) (Z.to_pos (n + 1))).

(** [remove] of the node at position [i]: the last node is unlinked; if it
    is not the removed one it takes position [i], goes down, then up. *)
Definition remove_arr (a : arr) (n : Z) (i : Z) : arr :=
  if i =? n then place a n None
  else
    let a1 := place (place a n None) i (a n) in
    let '(a2, j) := sift_down_arr depth_fuel a1 i in
    fst (sift_up_arr a2 (Z.to_pos j)).

(** Min-heap order: no node sorts before its parent. *)
Definition ordered (a : arr) : Prop :=
  forall i, lto (a i) (a (i / 2)) = false.

(** Order everywhere except possibly between [p] and its parent, with the
    children of [p] not before the parent of [p]. *)
Definition ordered_but_up (a : arr) (p : Z) : Prop :=
  (forall i, i <> p -> lto (a i) (a (i / 2)) = false) /\
  (forall i, i / 2 = p -> lto (a i) (a (p / 2)) = false).

(** Order everywhere except possibly around [p], with the children of [p]
    not before the parent of [p]. *)
Definition ordered_but_at (a : arr) (p : Z) : Prop :=
  (forall i, i <> p -> i / 2 <> p -> lto (a i) (a (i / 2)) = false) /\
  (forall i, i / 2 = p -> lto (a i) (a (p / 2)) = false).

(** The comparator is a strict weak order. *)
Record strict_weak_order : Prop := {
  swo_irrefl : forall x, less_than x x = false;
  swo_trans : forall x y z,
    less_than x y = true -> less_than y z = true -> less_than x z = true;
  swo_incomp : forall x y z,
    less_than x y = false -> less_than y z = false -> less_than x z = false
}.

(** [x] precedes [y] or is order-equivalent to it. *)
Definition before_or_equiv (x y : ptr) : Prop :=
  less_than x y = true \/ (less_than x y = false /\ less_than y x = false).

End ArrayOps.

(** ** The heap invariant, on memory alone *)

Definition parent_pos (p : positive) : option positive :=
  match p with
  | xH => None
  | xO q | xI q => Some q
  end.

Section Invariant.

Variable less_than : ptr -> ptr -> bool.

(** The nodes linked from [heap->min] form one complete binary tree of
    [nelts] nodes in min-heap order. *)
Record heap_inv (s : mem) : Prop := {
  (* complete: the occupied level-order positions are exactly 1..nelts *)
  inv_complete : forall p, node_at s p <> None <-> Zpos p <= nelts (hp s);
  (* a tree: no node is linked at two positions *)
  inv_tree : forall p q x, node_at s p = Some x -> node_at s q = Some x -> p = q;
  (* parent links mirror the child links *)
  inv_parent : forall p x, node_at s p = Some x ->
               parent (node s x) = (q <- parent_pos p ;; node_at s q);
  (* nelts counts the linked nodes *)
  inv_count : exists l, NoDup l /\ Z.of_nat (length l) = nelts (hp s) /\
                        forall x, In x l <-> reachable s x;
  (* heap order between a node and each child *)
  inv_order : forall x c, reachable s x ->
              left (node s x) = Some c \/ right (node s x) = Some c ->
              before_or_equiv less_than x c;
  (* the root is a least element *)
  inv_min : forall x, reachable s x ->
            exists m, heap_min s = Some m /\ before_or_equiv less_than m x;
  inv_empty : heap_min s = None <-> nelts (hp s) = 0
}.

(** A laid-out, ordered heap holding exactly the nodes of [members]. *)
Definition heap_ok (s : mem) (members : list ptr) : Prop :=
  exists a n,
    heap_rep s a n /\ ordered less_than a /\
    (forall x, arr_mem a x <-> In x members) /\
    NoDup members /\ Z.of_nat (length members) = n.

End Invariant.

(** The nodes at positions [1..k] of an array. *)
Fixpoint arr_list (a : arr) (k : nat) : list ptr :=
  match k with
  | O => []
  | S k' => arr_list a k' ++ match a (Z.of_nat k) with
                             | Some x => [x]
                             | None => []
                             end
  end.

(** ** Sequences of calls *)

Inductive heap_op : Type :=
| Insert (x : ptr)
| Remove (x : ptr).

Definition run_op (less_than : ptr -> ptr -> bool) (s : mem) (o : heap_op)
  : option mem :=
  match o with
  | Insert x => heap_insert less_than s x
  | Remove x => heap_remove less_than s x
  end.

Fixpoint run_ops (less_than : ptr -> ptr -> bool) (ops : list heap_op) (s : mem)
  : option mem :=
  match ops with
  | [] => Some s
  | o :: ops' => s' <- run_op less_than s o ;; run_ops less_than ops' s'
  end.

Definition mem_of (x : ptr) (l : list ptr) : bool := existsb (Pos.eqb x) l.

(** The nodes in the heap after a call, given those before it. *)
Definition members_after (members : list ptr) (o : heap_op) : list ptr :=
  match o with
  | Insert x => x :: members
  | Remove x => List.remove Pos.eq_dec x members
  end.

(** The callers' contract: a node is inserted only while it is not in the
    heap and the count fits an [unsigned int]; a node is removed only while
    it is in the heap (or the heap is empty, where the call does nothing). *)
Definition valid_op (members : list ptr) (o : heap_op) : bool :=
  match o with
  | Insert x => negb (mem_of x members) && (Z.of_nat (length members) <? UINT_MAX)
  | Remove x => mem_of x members || match members with [] => true | _ => false end
  end.

Fixpoint valid_ops (members : list ptr) (ops : list heap_op) : bool :=
  match ops with
  | [] => true
  | o :: ops' => valid_op members o && valid_ops (members_after members o) ops'
  end.

(** ** The timer scheduler: consistency of a loop *)

(** What [timer_less_than] compares. *)
Definition timer_key (t : uv_timer) : Z * Z := (timeout t, start_id t).

(** Lexicographic order on keys. *)
Definition key_lt (k1 k2 : Z * Z) : Prop :=
  fst k1 < fst k2 \/ (fst k1 = fst k2 /\ snd k1 < snd k2).

(** The handles in the timer heap are exactly the active ones, and the heap
    is a well-formed min-heap for [timer_less_than]. *)
Definition loop_inv (L : uv_loop) : Prop :=
  exists members,
    heap_ok (timer_less_than (timers L)) (timer_heap L) members /\
    (forall h, In h members <-> active (timers L h) = true).

(** The fields of a [uint64_t] are in range. *)
Definition is_uint64 (z : Z) : Prop := 0 <= z < 2 ^ 64.

(** The deadline [uv_timer_start] stores: the sum, saturated. *)
Definition clamp_deadline (now delay : Z) : Z :=
  if now + delay <=? UINT64_MAX then now + delay else UINT64_MAX.

(** Two loops agree on every handle but [h]. *)
Definition same_timers_but (L L' : uv_loop) (h : ptr) : Prop :=
  forall x, x <> h -> timers L' x = timers L x.

(** A loop at time 10 with one timer of repeat 2^64-1. *)
Definition huge_repeat_loop : option uv_loop :=
  '(L, _) <- uv_timer_start (set_time loop0 10) 1%positive (Some 1%positive)
               0 UINT64_MAX ;;
  Some L.

(** A loop at time 10 whose timer, of repeat 50, is being closed: stopped,
    with the closing flag set. *)
Definition closing_loop : option uv_loop :=
  '(L, _) <- uv_timer_start (set_time loop0 10) 1%positive (Some 1%positive)
               0 50 ;;
  L <- uv__timer_close L 1%positive ;;
  Some (set_closing L 1%positive true).

(** ** Calls of the timer API *)

Inductive timer_op : Type :=
| OpStart (h : ptr) (cb : option cb_id) (timeout_ repeat_ : Z)
| OpStop (h : ptr)
| OpAgain (h : ptr)
| OpSetRepeat (h : ptr) (repeat_ : Z)
| OpClose (h : ptr).

Definition op_handle (op : timer_op) : ptr :=
  match op with
  | OpStart h _ _ _ | OpStop h | OpAgain h | OpSetRepeat h _ | OpClose h => h
  end.

Definition run_timer_op (L : uv_loop) (op : timer_op) : option uv_loop :=
  match op with
  | OpStart h cb t r => '(L', _) <- uv_timer_start L h cb t r ;; Some L'
  | OpStop h => '(L', _) <- uv_timer_stop L h ;; Some L'
  | OpAgain h => '(L', _) <- uv_timer_again L h ;; Some L'
  | OpSetRepeat h r => Some (uv_timer_set_repeat L h r)
  | OpClose h => uv__timer_close L h
  end.

(** A sequence of calls, each on the loop the one before left. *)
Fixpoint run_timer_ops (L : uv_loop) (ops : list timer_op) : option uv_loop :=
  match ops with
  | [] => Some L
  | op :: ops' => L' <- run_timer_op L op ;; run_timer_ops L' ops'
  end.

(** The calls that never assign [timeout] or [start_id]. *)
Definition keeps_keys (op : timer_op) : bool :=
  match op with
  | OpStop _ | OpSetRepeat _ _ | OpClose _ => true
  | OpStart _ _ _ _ | OpAgain _ => false
  end.

(** The calls that take the path of [uv_timer_start] which assigns the
    handle's fields: a start that is accepted (handle not closing, callback
    not NULL), and an again that restarts (callback present, repeat
    nonzero, handle not closing). *)
Definition rekeys (L : uv_loop) (op : timer_op) : bool :=
  match op with
  | OpStart h cb _ _ =>
      negb (closing (timers L h)) &&
      match cb with Some _ => true | None => false end
  | OpAgain h =>
      match timer_cb (timers L h) with
      | Some _ => negb (repeat (timers L h) =? 0) && negb (closing (timers L h))
      | None => false
      end
  | OpStop _ | OpSetRepeat _ _ | OpClose _ => false
  end.

(** Every active handle has a callback. *)
Definition cb_inv (L : uv_loop) : Prop :=
  forall h, active (timers L h) = true -> timer_cb (timers L h) <> None.

(** The four timers of the ordering test, once [loop.time] is [t]. *)
Definition fire_four (t : Z) (fuel : nat) : option (list ptr) :=
  L <- four_timers ;;
  w <- uv__run_timers (list ptr) log_cb fuel (set_time L t, []) ;;
  Some (snd w).

(** ** Firing order *)

(** The handle is active and its deadline has been reached. *)
Definition due (L : uv_loop) (h : ptr) : Prop :=
  active (timers L h) = true /\ timeout (timers L h) <= time L.

(** Keys in ascending order, ties allowed. *)
Definition key_le (k1 k2 : Z * Z) : Prop := ~ key_lt k2 k1.

(** Every active handle could be started again: its repeat is a
    [uint64_t] and it is not being closed. *)
Definition restartable (L : uv_loop) : Prop :=
  forall h, active (timers L h) = true ->
            is_uint64 (repeat (timers L h)) /\ closing (timers L h) = false.

(** ** heap-inl.h: [heap_dequeue] *)

(** [heap_remove(heap, NULL, less_than)]: what [heap_remove] does when the
    node it is given is NULL.  The last node is unlinked; unless it is NULL
    too, the splice dereferences the NULL node. *)
Definition heap_remove_null (s : mem) : option mem :=
  if nelts (hp s) =? 0 then Some s
  else
    '(path, k) <- path_loop 32 0 0 (nelts (hp s)) ;;
    max <- remove_walk s k path AtMin ;;
    let s := set_nelts s (uint (nelts (hp s) - 1)) in
    let child_ := load s max in
    let s := store s max None in
    if ptr_eqb child_ None then
      if ptr_eqb child_ (min (hp s)) then Some (set_min s None) else Some s
    else None.

(** [heap_dequeue]: [heap_remove(heap, heap->min, less_than)]. *)
Definition heap_dequeue (less_than : ptr -> ptr -> bool) (s : mem) : option mem :=
  match min (hp s) with
  | Some x => heap_remove less_than s x
  | None => heap_remove_null s
  end.

(** A client loop: [while ((m = heap_min(h)) != NULL) heap_dequeue(h, lt);]
    collecting the minima it sees; each unit of fuel pays for one
    dequeue. *)
Fixpoint drain (less_than : ptr -> ptr -> bool) (fuel : nat) (s : mem)
  : option (list ptr) :=
  match heap_min s with
  | None => Some []
  | Some m =>
      match fuel with
      | O => None
      | S fuel' =>
          s' <- heap_dequeue less_than s ;;
          l <- drain less_than fuel' s' ;;
          Some (m :: l)
      end
  end.

(** The record a handle is left with by its firing: inactive if it does not
    repeat, otherwise active with the saturated deadline [now + repeat]. *)
Definition fired_state (L : uv_loop) (h : ptr) (t : uv_timer) : Prop :=
  if repeat (timers L h) =? 0
  then t = UvTimer (timer_cb (timers L h)) (timeout (timers L h)) 0
             (start_id (timers L h)) false (closing (timers L h))
  else exists sid,
         t = UvTimer (timer_cb (timers L h))
               (clamp_deadline (time L) (repeat (timers L h)))
               (repeat (timers L h)) sid true false.

(** A heap of two nodes, 1 at the root and 2 as its left child, and its
    level-order array. *)
Definition two_nodes : mem :=
  Mem (fun z => if Pos.eqb z 1 then HeapNode (Some 2%positive) None None
                else if Pos.eqb z 2 then HeapNode None None (Some 1%positive)
                else HeapNode None None None)
      (Heap (Some 1%positive) 2).

Definition two_nodes_arr : arr :=
  fun i => if i =? 1 then Some 1%positive
           else if i =? 2 then Some 2%positive else None.

(** * Properties *)

(** ** Reading memory after a write *)

Lemma ptr_eqb_eq a b : ptr_eqb a b = true <-> a = b.
Proof.
  destruct a as [x|], b as [y|]; simpl; split; intro H; try congruence; try discriminate.
  - apply Pos.eqb_eq in H. congruence.
  - inversion H. apply Pos.eqb_refl.
Qed.

Lemma ptr_eqb_neq a b : ptr_eqb a b = false <-> a <> b.
Proof.
  rewrite <- ptr_eqb_eq. destruct (ptr_eqb a b); split; congruence.
Qed.

Lemma ptr_eqb_refl a : ptr_eqb a a = true.
Proof. apply ptr_eqb_eq. reflexivity. Qed.

Lemma ptr_eqb_sym a b : ptr_eqb a b = ptr_eqb b a.
Proof.
  destruct (ptr_eqb b a) eqn:E.
  - apply ptr_eqb_eq in E. subst. apply ptr_eqb_refl.
  - apply ptr_eqb_neq in E. apply ptr_eqb_neq. congruence.
Qed.

Lemma node_set_node s w z v :
  node (set_node s w v) z = if Pos.eqb z w then v else node s z.
Proof. reflexivity. Qed.

Ltac field_rw :=
  intros; unfold set_left, set_right, set_parent, set_node, upd; simpl;
  match goal with
  | |- context [Pos.eqb ?z ?w] => destruct (Pos.eqb_spec z w); subst; reflexivity
  end.

Lemma left_set_left s w z v :
  left (node (set_left s w v) z) = if Pos.eqb z w then v else left (node s z).
Proof. field_rw. Qed.
Lemma right_set_left s w z v : right (node (set_left s w v) z) = right (node s z).
Proof. field_rw. Qed.
Lemma parent_set_left s w z v : parent (node (set_left s w v) z) = parent (node s z).
Proof. field_rw. Qed.
Lemma left_set_right s w z v : left (node (set_right s w v) z) = left (node s z).
Proof. field_rw. Qed.
Lemma right_set_right s w z v :
  right (node (set_right s w v) z) = if Pos.eqb z w then v else right (node s z).
Proof. field_rw. Qed.
Lemma parent_set_right s w z v : parent (node (set_right s w v) z) = parent (node s z).
Proof. field_rw. Qed.
Lemma left_set_parent s w z v : left (node (set_parent s w v) z) = left (node s z).
Proof. field_rw. Qed.
Lemma right_set_parent s w z v : right (node (set_parent s w v) z) = right (node s z).
Proof. field_rw. Qed.
Lemma parent_set_parent s w z v :
  parent (node (set_parent s w v) z) = if Pos.eqb z w then v else parent (node s z).
Proof. field_rw. Qed.

Lemma node_set_min s z v : node (set_min s v) z = node s z.
Proof. reflexivity. Qed.
Lemma node_set_nelts s z n : node (set_nelts s n) z = node s z.
Proof. reflexivity. Qed.

Lemma left_relink s o w z : left (node (relink_parent s o w) z) = left (node s z).
Proof. destruct o; simpl; [apply left_set_parent | reflexivity]. Qed.
Lemma right_relink s o w z : right (node (relink_parent s o w) z) = right (node s z).
Proof. destruct o; simpl; [apply right_set_parent | reflexivity]. Qed.
Lemma parent_relink s o w z :
  parent (node (relink_parent s o w) z) =
  if ptr_eqb o (Some z) then Some w else parent (node s z).
Proof.
  destruct o as [c|]; unfold relink_parent; [|reflexivity].
  rewrite parent_set_parent. unfold ptr_eqb. rewrite (Pos.eqb_sym z c). reflexivity.
Qed.

Lemma left_replace s g old w z :
  left (node (replace_child s g old w) z) =
  if ptr_eqb g (Some z) && ptr_eqb (left (node s z)) (Some old)
  then Some w else left (node s z).
Proof.
  destruct g as [gp|]; unfold replace_child; [|reflexivity].
  change (ptr_eqb (Some gp) (Some z)) with (Pos.eqb gp z).
  destruct (Pos.eqb_spec gp z) as [->|Hne]; cbn [andb negb].
  - destruct (ptr_eqb (left (node s z)) (Some old)); cbv iota.
    + rewrite left_set_left, Pos.eqb_refl. reflexivity.
    + apply left_set_right.
  - destruct (ptr_eqb (left (node s gp)) (Some old)); cbv iota.
    + rewrite left_set_left. destruct (Pos.eqb_spec z gp); congruence.
    + apply left_set_right.
Qed.
Lemma right_replace s g old w z :
  right (node (replace_child s g old w) z) =
  if ptr_eqb g (Some z) && negb (ptr_eqb (left (node s z)) (Some old))
  then Some w else right (node s z).
Proof.
  destruct g as [gp|]; unfold replace_child; [|reflexivity].
  change (ptr_eqb (Some gp) (Some z)) with (Pos.eqb gp z).
  destruct (Pos.eqb_spec gp z) as [->|Hne]; cbn [andb negb].
  - destruct (ptr_eqb (left (node s z)) (Some old)); cbn [negb]; cbv iota.
    + apply right_set_left.
    + rewrite right_set_right, Pos.eqb_refl. reflexivity.
  - destruct (ptr_eqb (left (node s gp)) (Some old)); cbv iota.
    + apply right_set_left.
    + rewrite right_set_right. destruct (Pos.eqb_spec z gp); congruence.
Qed.
Lemma parent_replace s g old w z :
  parent (node (replace_child s g old w) z) = parent (node s z).
Proof.
  destruct g as [gp|]; unfold replace_child; [|reflexivity].
  destruct (ptr_eqb (left (node s gp)) (Some old));
    [apply parent_set_left | apply parent_set_right].
Qed.


Lemma hp_set_node s w v : hp (set_node s w v) = hp s.
Proof. reflexivity. Qed.
Lemma hp_set_left s w v : hp (set_left s w v) = hp s.
Proof. reflexivity. Qed.
Lemma hp_set_right s w v : hp (set_right s w v) = hp s.
Proof. reflexivity. Qed.
Lemma hp_set_parent s w v : hp (set_parent s w v) = hp s.
Proof. reflexivity. Qed.
Lemma hp_relink s o w : hp (relink_parent s o w) = hp s.
Proof. destruct o; reflexivity. Qed.
Lemma hp_replace s g old w :
  hp (replace_child s g old w) =
  match g with None => Heap (Some w) (nelts (hp s)) | Some _ => hp s end.
Proof.
  destruct g as [gp|]; simpl; [|reflexivity].
  destruct (ptr_eqb (left (node s gp)) (Some old)); reflexivity.
Qed.

Lemma heap_node_swap_phases s y x :
  heap_node_swap s y x =
  let s2 := set_parent (set_node (set_node s y (node s x)) x (node s y)) y (Some x) in
  let isl := ptr_eqb (left (node s2 x)) (Some x) in
  let s3 := if isl then set_left s2 x (Some y) else set_right s2 x (Some y) in
  let s4 := relink_parent s3 (if isl then right (node s3 x) else left (node s3 x)) x in
  let s5 := relink_parent s4 (left (node s4 y)) y in
  let s6 := relink_parent s5 (right (node s5 y)) y in
  replace_child s6 (parent (node s6 x)) y x.
Proof.
  unfold heap_node_swap. cbv zeta.
  destruct (ptr_eqb _ _); reflexivity.
Qed.

Lemma left_set_node s w z v :
  left (node (set_node s w v) z) = if Pos.eqb z w then left v else left (node s z).
Proof. unfold set_node, upd; simpl. destruct (Pos.eqb z w); reflexivity. Qed.
Lemma right_set_node s w z v :
  right (node (set_node s w v) z) = if Pos.eqb z w then right v else right (node s z).
Proof. unfold set_node, upd; simpl. destruct (Pos.eqb z w); reflexivity. Qed.
Lemma parent_set_node s w z v :
  parent (node (set_node s w v) z) = if Pos.eqb z w then parent v else parent (node s z).
Proof. unfold set_node, upd; simpl. destruct (Pos.eqb z w); reflexivity. Qed.

Lemma heap_node_eq (a b : heap_node) :
  left a = left b -> right a = right b -> parent a = parent b -> a = b.
Proof. destruct a, b; simpl; congruence. Qed.

Create Rewrite HintDb mem.

#[export] Hint Rewrite
  left_set_left right_set_left parent_set_left
  left_set_right right_set_right parent_set_right
  left_set_parent right_set_parent parent_set_parent
  left_set_node right_set_node parent_set_node
  left_relink right_relink parent_relink
  left_replace right_replace parent_replace
  node_set_min node_set_nelts
  hp_set_node hp_set_left hp_set_right hp_set_parent hp_relink hp_replace
  Pos.eqb_refl ptr_eqb_refl : mem.

Ltac split_ptr_eqb :=
  repeat match goal with
         | |- context [ptr_eqb ?a ?b] => destruct (ptr_eqb a b)
         end;
  cbn [andb orb negb]; try reflexivity.

Lemma heap_node_swap_node s y x z :
  x <> y ->
  left (node s y) <> Some y -> right (node s y) <> Some y ->
  (left (node s y) = Some x -> right (node s y) <> Some x) ->
  left (node s x) <> Some x -> left (node s x) <> Some y ->
  right (node s x) <> Some x -> right (node s x) <> Some y ->
  parent (node s y) <> Some x -> parent (node s y) <> Some y ->
  node (heap_node_swap s y x) z = swapped_node s y x z.
Proof.
  intros Hxy Hyl Hyr Hsib Hxl1 Hxl2 Hxr1 Hxr2 Hg1 Hg2.
  rewrite heap_node_swap_phases. cbv zeta. unfold swapped_node.
  assert (Exy : Pos.eqb x y = false) by (apply Pos.eqb_neq; auto).
  assert (Eyx : Pos.eqb y x = false) by (apply Pos.eqb_neq; auto).
  apply ptr_eqb_neq in Hyl, Hyr, Hxl1, Hxl2, Hxr1, Hxr2, Hg1, Hg2.
  autorewrite with mem. rewrite ?Exy, ?Eyx.
  destruct (ptr_eqb (left (node s y)) (Some x)) eqn:Eisl.
  - assert (Hs : ptr_eqb (right (node s y)) (Some x) = false).
    { apply ptr_eqb_neq, Hsib. apply ptr_eqb_eq, Eisl. }
    autorewrite with mem. rewrite ?Exy, ?Eyx, ?Hxr1, ?Hxl1, ?Hs.
    destruct (Pos.eqb_spec z x) as [->|Hzx]; [|destruct (Pos.eqb_spec z y) as [->|Hzy]];
      apply heap_node_eq; cbn [left right parent]; autorewrite with mem;
      rewrite ?Exy, ?Eyx, ?Hxr1, ?Hxl1, ?Hxr2, ?Hxl2, ?Hs, ?Hg1, ?Hg2, ?Hyl, ?Hyr;
      cbn [andb orb negb]; try reflexivity.
    all: rewrite ?(proj2 (Pos.eqb_neq z x) Hzx), ?(proj2 (Pos.eqb_neq z y) Hzy).
    all: try reflexivity.
    split_ptr_eqb.
  - autorewrite with mem. rewrite ?Exy, ?Eyx, ?Hxr1, ?Hxl1, ?Eisl.
    destruct (Pos.eqb_spec z x) as [->|Hzx]; [|destruct (Pos.eqb_spec z y) as [->|Hzy]];
      apply heap_node_eq; cbn [left right parent]; autorewrite with mem;
      rewrite ?Exy, ?Eyx, ?Hxr1, ?Hxl1, ?Hxr2, ?Hxl2, ?Eisl, ?Hg1, ?Hg2, ?Hyl, ?Hyr;
      cbn [andb orb negb]; try reflexivity.
    all: rewrite ?(proj2 (Pos.eqb_neq z x) Hzx), ?(proj2 (Pos.eqb_neq z y) Hzy).
    all: try reflexivity.
    split_ptr_eqb.
Qed.

Lemma heap_node_swap_hp s y x :
  x <> y ->
  left (node s y) <> Some y -> right (node s y) <> Some y ->
  (left (node s y) = Some x -> right (node s y) <> Some x) ->
  left (node s x) <> Some x -> right (node s x) <> Some x ->
  hp (heap_node_swap s y x) =
  match parent (node s y) with
  | None => Heap (Some x) (nelts (hp s))
  | Some _ => hp s
  end.
Proof.
  intros Hxy Hyl Hyr Hsib Hxl1 Hxr1.
  rewrite heap_node_swap_phases. cbv zeta.
  assert (Exy : Pos.eqb x y = false) by (apply Pos.eqb_neq; auto).
  assert (Eyx : Pos.eqb y x = false) by (apply Pos.eqb_neq; auto).
  apply ptr_eqb_neq in Hyl, Hyr, Hxl1, Hxr1.
  autorewrite with mem. rewrite ?Exy, ?Eyx.
  destruct (ptr_eqb (left (node s y)) (Some x)) eqn:Eisl.
  - assert (Hs : ptr_eqb (right (node s y)) (Some x) = false).
    { apply ptr_eqb_neq, Hsib. apply ptr_eqb_eq, Eisl. }
    autorewrite with mem. rewrite ?Exy, ?Eyx, ?Hxr1, ?Hxl1, ?Hs. reflexivity.
  - autorewrite with mem. rewrite ?Exy, ?Eyx, ?Hxr1, ?Hxl1, ?Eisl. reflexivity.
Qed.

Lemma rep_eqb s a n i j z :
  heap_rep s a n -> a i = Some z -> ptr_eqb (a j) (Some z) = (j =? i).
Proof.
  intros H Hi. destruct (Z.eqb_spec j i) as [->|Hne].
  - rewrite Hi. apply ptr_eqb_refl.
  - apply ptr_eqb_neq. intro Hj. apply Hne. eapply rep_inj; eauto.
Qed.

Lemma rep_eqb_pos s a n i j z w :
  heap_rep s a n -> a i = Some z -> a j = Some w -> Pos.eqb w z = (j =? i).
Proof.
  intros H Hi Hj. rewrite <- (rep_eqb s a n i j z H Hi), Hj. reflexivity.
Qed.

Lemma rep_none s a n i : heap_rep s a n -> (i < 1 \/ n < i) -> a i = None.
Proof.
  intros H Hi. destruct (a i) eqn:E; [|reflexivity].
  assert (a i <> None) by congruence. apply (rep_dom _ _ _ H) in H0. lia.
Qed.

Lemma rep_some s a n i : heap_rep s a n -> 1 <= i <= n -> exists x, a i = Some x.
Proof.
  intros H Hi. apply (rep_dom _ _ _ H) in Hi. destruct (a i); [eauto|congruence].
Qed.

Ltac dlia := Z.div_mod_to_equations; lia.

Ltac split_eqb :=
  repeat match goal with
         | |- context [Z.eqb ?a ?b] => destruct (Z.eqb_spec a b); try lia
         end.

(** Name a quotient by two and keep only its linear description. *)
Ltac name_half t q :=
  let E := fresh "E" q in
  let B := fresh "B" q in
  remember (t / 2) as q eqn:E in *;
  assert (B : 2 * q <= t <= 2 * q + 1) by (subst q; dlia);
  clear E.

(** Two positions holding the same node are the same position. *)
Ltac same_pos H :=
  match type of H with
  | heap_rep _ ?a _ =>
      match goal with
      | E : a ?u = Some ?z, E' : a ?v = Some ?z |- _ =>
          lazymatch u with
          | v => fail
          | _ => let K := fresh in
                 pose proof (rep_inj _ _ _ H _ _ _ E E') as K;
                 first [ lia | exfalso; lia | subst ]
          end
      end
  end.

Lemma heap_node_swap_rep s a n c x y :
  heap_rep s a n -> a c = Some x -> a (c / 2) = Some y ->
  heap_rep (heap_node_swap s y x) (exchange a (c / 2) c) n.
Proof.
  intros H Hx Hy.
  assert (Hc : 1 <= c <= n) by (apply (rep_dom _ _ _ H); congruence).
  assert (Hp : 1 <= c / 2 <= n) by (apply (rep_dom _ _ _ H); congruence).
  pose proof (rep_node _ _ _ H _ _ Hx) as Nx. rewrite Hy in Nx.
  pose proof (rep_node _ _ _ H _ _ Hy) as Ny.
  name_half c p. name_half p g.
  assert (Hxy : x <> y).
  { intros ->. same_pos H. }
  assert (Hnode : forall z, node (heap_node_swap s y x) z = swapped_node s y x z).
  { intro z. apply heap_node_swap_node; auto; rewrite ?Nx, ?Ny; cbn [left right parent];
      unfold not; intros; same_pos H. }
  assert (Hhp : hp (heap_node_swap s y x) =
                match a g with
                | None => Heap (Some x) (nelts (hp s))
                | Some _ => hp s
                end).
  { rewrite heap_node_swap_hp; auto; rewrite ?Nx, ?Ny; cbn [left right parent]; auto;
      unfold not; intros; same_pos H. }
  split.
  - apply (rep_range _ _ _ H).
  - intro i. unfold exchange. split_eqb; subst; try (rewrite ?Hx, ?Hy; split; [lia|congruence]).
    apply (rep_dom _ _ _ H).
  - intros i j z. unfold exchange. split_eqb; subst; intros E1 E2; try reflexivity;
      same_pos H.
  - rewrite Hhp. unfold exchange. split_eqb.
    + rewrite (rep_none _ _ _ g H) by lia. simpl. congruence.
    + destruct (rep_some _ _ _ g H ltac:(lia)) as [gp ->].
      apply (rep_min _ _ _ H).
  - rewrite Hhp. destruct (a g); simpl; apply (rep_nelts _ _ _ H).
  - intros i z Hz. rewrite Hnode. unfold swapped_node. rewrite Nx, Ny.
    cbn [left right parent].
    rewrite (rep_eqb _ _ _ _ (2 * p) _ H Hx).
    unfold exchange in Hz.
    destruct (Z.eqb_spec i p) as [->|Hip]; [|destruct (Z.eqb_spec i c) as [->|Hic]].
    + assert (z = x) by congruence. subst z. rewrite Pos.eqb_refl.
      rewrite <- (Z.div_unique_pos p 2 g (p - 2 * g)) by lia.
      unfold exchange. split_eqb; rewrite ?Hy; try reflexivity.
    + assert (z = y) by congruence. subst z.
      rewrite (proj2 (Pos.eqb_neq y x)) by congruence. rewrite Pos.eqb_refl.
      rewrite <- (Z.div_unique_pos c 2 p (c - 2 * p)) by lia.
      unfold exchange. split_eqb; rewrite ?Hx; try reflexivity.
    + rewrite (rep_eqb_pos _ _ _ _ _ _ _ H Hx Hz), (rep_eqb_pos _ _ _ _ _ _ _ H Hy Hz).
      rewrite (rep_node _ _ _ H _ _ Hz). cbn [left right parent].
      name_half i q.
      destruct (Z.eqb_spec (2 * p) c);
      rewrite !(rep_eqb _ _ _ _ _ _ H Hz), !(rep_eqb _ _ _ _ _ _ H Hy);
      unfold exchange;
      apply heap_node_eq; cbn [left right parent]; split_eqb; cbn [andb orb negb];
        rewrite ?Hx, ?Hy; try reflexivity.
Qed.

(** ** The path to a level-order position *)

Lemma land_1 x : Z.land x 1 = x mod 2.
Proof. change 1 with (Z.ones 1) at 1. apply Z.land_ones. lia. Qed.

Lemma shiftr_1 x : Z.shiftr x 1 = x / 2.
Proof. rewrite Z.shiftr_div_pow2 by lia. reflexivity. Qed.

Lemma lor_shiftl_bit x b :
  0 <= x -> b = 0 \/ b = 1 -> Z.lor (Z.shiftl x 1) b = 2 * x + b.
Proof.
  intros Hx [-> | ->].
  - rewrite Z.lor_0_r, Z.shiftl_mul_pow2 by lia. change (2 ^ 1) with 2. lia.
  - destruct x as [|q|q]; [reflexivity| |lia]. reflexivity.
Qed.

Lemma size_nat_bound p m : Zpos p < 2 ^ Z.of_nat m -> (Pos.size_nat p <= m)%nat.
Proof.
  revert m. induction p as [q IH|q IH|]; intros m Hm; destruct m as [|m];
    try (change (2 ^ Z.of_nat 0) with 1 in Hm; lia);
    rewrite Nat2Z.inj_succ, Z.pow_succ_r in Hm by lia; simpl.
  - apply le_n_S, IH. lia.
  - apply le_n_S, IH. lia.
  - lia.
Qed.

Lemma bits_of_push k path (b : bool) :
  0 <= path ->
  bits_of (S k) (2 * path + (if b then 1 else 0)) = b :: bits_of k path.
Proof.
  intro Hp. cbn [bits_of]. rewrite land_1, shiftr_1. f_equal.
  - destruct b.
    + replace ((2 * path + 1) mod 2) with 1 by dlia. reflexivity.
    + replace ((2 * path + 0) mod 2) with 0 by dlia. reflexivity.
  - f_equal. destruct b; dlia.
Qed.

Lemma path_loop_spec p :
  forall fuel path k,
    0 <= path < 2 ^ Z.of_nat k ->
    (k + Pos.size_nat p <= 32)%nat ->
    (Pos.size_nat p <= S fuel)%nat ->
    exists path' k',
      path_loop fuel path k (Zpos p) = Some (path', k') /\
      bits_of k' path' = rev (low_bits p) ++ bits_of k path.
Proof.
  induction p as [q IH|q IH|]; intros fuel path k Hpath Hk Hfuel.
  - cbn [Pos.size_nat] in *.
    destruct fuel as [|fuel]; [destruct q; cbn [Pos.size_nat] in Hfuel; lia|].
    cbn [path_loop]. replace (2 <=? Z.pos q~1) with true by (symmetry; apply Z.leb_le; lia).
    rewrite land_1. replace (Z.pos q~1 mod 2) with 1 by dlia.
    replace (Z.pos q~1 / 2) with (Zpos q) by dlia.
    rewrite lor_shiftl_bit by lia.
    assert (Hpow : 2 ^ Z.of_nat (S k) = 2 * 2 ^ Z.of_nat k)
      by (rewrite Nat2Z.inj_succ, Z.pow_succ_r; lia).
    assert (Hle : 2 ^ Z.of_nat (S k) <= 2 ^ 32)
      by (apply Z.pow_le_mono_r; lia).
    unfold uint. rewrite Z.mod_small by lia.
    destruct (IH fuel (2 * path + 1) (S k)) as (path' & k' & E & B); try lia.
    exists path', k'. split; [exact E|].
    rewrite B. change (2 * path + 1) with (2 * path + (if true then 1 else 0)).
    rewrite bits_of_push by lia. cbn [low_bits rev]. rewrite <- app_assoc. reflexivity.
  - cbn [Pos.size_nat] in *.
    destruct fuel as [|fuel]; [destruct q; cbn [Pos.size_nat] in Hfuel; lia|].
    cbn [path_loop]. replace (2 <=? Z.pos q~0) with true by (symmetry; apply Z.leb_le; lia).
    rewrite land_1. replace (Z.pos q~0 mod 2) with 0 by dlia.
    replace (Z.pos q~0 / 2) with (Zpos q) by dlia.
    rewrite lor_shiftl_bit by lia.
    assert (Hpow : 2 ^ Z.of_nat (S k) = 2 * 2 ^ Z.of_nat k)
      by (rewrite Nat2Z.inj_succ, Z.pow_succ_r; lia).
    assert (Hle : 2 ^ Z.of_nat (S k) <= 2 ^ 32)
      by (apply Z.pow_le_mono_r; lia).
    unfold uint. rewrite Z.mod_small by lia.
    destruct (IH fuel (2 * path + 0) (S k)) as (path' & k' & E & B); try lia.
    exists path', k'. split; [exact E|].
    rewrite B. change (2 * path + 0) with (2 * path + (if false then 1 else 0)).
    rewrite bits_of_push by lia. cbn [low_bits rev]. rewrite <- app_assoc. reflexivity.
  - exists path, k. split; [|reflexivity].
    destruct fuel; reflexivity.
Qed.

Lemma path_loop_top n :
  1 <= n < 2 ^ 32 ->
  exists path k,
    path_loop 32 0 0 n = Some (path, k) /\
    bits_of k path = rev (low_bits (Z.to_pos n)).
Proof.
  intro Hn. destruct n as [|p|p]; try lia.
  assert (Hs : (Pos.size_nat p <= 32)%nat).
  { apply size_nat_bound. change (2 ^ Z.of_nat 32) with (2 ^ 32). lia. }
  destruct (path_loop_spec p 32 0 0) as (path & k & E & B).
  - change (2 ^ Z.of_nat 0) with 1. lia.
  - lia.
  - lia.
  - exists path, k. split; [exact E|]. rewrite B. cbn [bits_of Z.to_pos].
    apply app_nil_r.
Qed.

Lemma idx_of_low_bits p j :
  idx_of (rev (low_bits p)) j = match p with xH => j | _ => 2 * idx_of (rev (low_bits (Pos.div2 p))) j + (if Pos.testbit p 0 then 1 else 0) end.
Proof.
  destruct p as [q|q|]; cbn [low_bits rev Pos.div2 Pos.testbit]; try reflexivity;
    unfold idx_of; rewrite fold_left_app; reflexivity.
Qed.

Lemma idx_of_path p : idx_of (rev (low_bits p)) 1 = Zpos p.
Proof.
  induction p as [q IH|q IH|]; rewrite idx_of_low_bits; cbn [Pos.div2 Pos.testbit];
    rewrite ?IH; lia.
Qed.

Lemma idx_of_ge bits i : 0 <= i -> i <= idx_of bits i.
Proof.
  revert i. induction bits as [|b bits IH]; intros i Hi; [simpl; lia|].
  cbn [idx_of fold_left]. fold (idx_of bits (2 * i + (if b then 1 else 0))).
  specialize (IH (2 * i + (if b then 1 else 0))). destruct b; lia.
Qed.


Lemma remove_walk_follow s k :
  forall path l, remove_walk s k path l = follow s (bits_of k path) l.
Proof.
  induction k as [|k IH]; intros path l; [reflexivity|].
  cbn [remove_walk bits_of follow]. destruct (load s l) as [x|]; [|reflexivity].
  cbn [bind]. rewrite IH. destruct (Z.land path 1 =? 0); reflexivity.
Qed.

(** ** Slots and traversals in a laid-out heap *)

Lemma heap_rep_frame s s' a n :
  heap_rep s a n ->
  (forall i x, a i = Some x -> node s' x = node s x) ->
  hp s' = hp s ->
  heap_rep s' a n.
Proof.
  intros H Hn Hh. split.
  - apply (rep_range _ _ _ H).
  - apply (rep_dom _ _ _ H).
  - apply (rep_inj _ _ _ H).
  - rewrite Hh. apply (rep_min _ _ _ H).
  - rewrite Hh. apply (rep_nelts _ _ _ H).
  - intros i x Hi. rewrite (Hn _ _ Hi). apply (rep_node _ _ _ H _ _ Hi).
Qed.

Lemma load_slot s a n i :
  heap_rep s a n -> 1 <= i <= 2 * n + 1 -> load s (slot a i) = a i.
Proof.
  intros H Hi. unfold slot. destruct (Z.leb_spec i 1) as [Hle|Hgt].
  - assert (i = 1) by lia. subst i. apply (rep_min _ _ _ H).
  - destruct (rep_some _ _ _ (i / 2) H ltac:(dlia)) as [y Hy]. rewrite Hy.
    pose proof (rep_node _ _ _ H _ _ Hy) as Ny.
    destruct (Z.even i) eqn:Ev; cbn [load]; rewrite Ny; cbn [left right]; f_equal.
    + apply Z.even_spec in Ev. destruct Ev as [m ->]. dlia.
    + assert (Od : Z.odd i = true) by (rewrite <- Z.negb_even, Ev; reflexivity).
      apply Z.odd_spec in Od. destruct Od as [m ->]. dlia.
Qed.

Lemma even_double i : Z.even (2 * i) = true.
Proof. rewrite Z.even_mul. reflexivity. Qed.

Lemma even_double_succ i : Z.even (2 * i + 1) = false.
Proof. rewrite Z.add_comm, Z.even_add_mul_2. reflexivity. Qed.

Lemma slot_child a i x (b : bool) :
  1 <= i -> a i = Some x ->
  slot a (2 * i + (if b then 1 else 0)) = if b then AtRight x else AtLeft x.
Proof.
  intros Hi Hx. unfold slot.
  destruct (Z.leb_spec (2 * i + (if b then 1 else 0)) 1); [destruct b; lia|].
  replace ((2 * i + (if b then 1 else 0)) / 2) with i by (destruct b; dlia).
  rewrite Hx. destruct b.
  - rewrite even_double_succ. reflexivity.
  - rewrite Z.add_0_r, even_double. reflexivity.
Qed.

Lemma idx_of_cons b bits i :
  idx_of (b :: bits) i = idx_of bits (2 * i + (if b then 1 else 0)).
Proof. reflexivity. Qed.

Lemma follow_rep s a n :
  heap_rep s a n ->
  forall bits i,
    1 <= i -> idx_of bits i <= n + 1 ->
    follow s bits (slot a i) = Some (slot a (idx_of bits i)).
Proof.
  intros H bits. induction bits as [|b bits IH]; intros i Hi Hm; [reflexivity|].
  rewrite idx_of_cons in *.
  pose proof (idx_of_ge bits (2 * i + (if b then 1 else 0)) ltac:(destruct b; lia)) as Hge.
  assert (Hin : 1 <= i <= n) by (destruct b; lia).
  cbn [follow]. rewrite (load_slot _ _ _ _ H) by lia.
  destruct (rep_some _ _ _ i H Hin) as [x Hx]. rewrite Hx. cbn [bind].
  rewrite <- (slot_child a i x b) by (auto; lia).
  apply IH; [destruct b; lia | assumption].
Qed.

Lemma insert_walk_rep s a n :
  heap_rep s a n ->
  forall k path i par,
    1 <= i -> idx_of (bits_of k path) i <= n + 1 ->
    insert_walk s k path par (slot a i) =
    Some (match k with
          | O => par
          | S _ => slot a (idx_of (bits_of k path) i / 2)
          end, slot a (idx_of (bits_of k path) i)).
Proof.
  intros H k. induction k as [|k IH]; intros path i par Hi Hm; [reflexivity|].
  cbn [bits_of] in *. rewrite idx_of_cons in *.
  set (b := negb (Z.land path 1 =? 0)) in *.
  pose proof (idx_of_ge (bits_of k (Z.shiftr path 1)) (2 * i + (if b then 1 else 0))
                ltac:(destruct b; lia)) as Hge.
  assert (Hin : 1 <= i <= n) by (destruct b; lia).
  cbn [insert_walk]. rewrite (load_slot _ _ _ _ H) by lia.
  destruct (rep_some _ _ _ i H Hin) as [x Hx]. rewrite Hx. cbn [bind].
  replace (if Z.land path 1 =? 0 then AtLeft x else AtRight x)
    with (slot a (2 * i + (if b then 1 else 0))).
  2:{ rewrite (slot_child a i x b) by (auto; lia). subst b.
      destruct (Z.land path 1 =? 0); reflexivity. }
  rewrite IH by (destruct b; lia). f_equal. f_equal.
  destruct k as [|k]; [|reflexivity].
  cbn [bits_of idx_of fold_left]. f_equal. destruct b; dlia.
Qed.

(** ** Linking a new last node *)

Lemma left_child_test m i :
  1 <= i -> (m / 2 =? i) && Z.even m && (2 <=? m) = (2 * i =? m).
Proof.
  intro Hi. pose proof (Zmod_even m) as Hm.
  destruct (Z.eqb_spec (m / 2) i), (Z.even m), (Z.leb_spec 2 m), (Z.eqb_spec (2 * i) m);
    cbn [andb]; try reflexivity; exfalso; dlia.
Qed.

Lemma right_child_test m i :
  1 <= i -> (m / 2 =? i) && negb (Z.even m) && (2 <=? m) = (2 * i + 1 =? m).
Proof.
  intro Hi. pose proof (Zmod_even m) as Hm.
  destruct (Z.eqb_spec (m / 2) i), (Z.even m), (Z.leb_spec 2 m), (Z.eqb_spec (2 * i + 1) m);
    cbn [andb negb]; try reflexivity; exfalso; dlia.
Qed.


Lemma place_rep s a n x :
  heap_rep s a n ->
  n + 1 < 2 ^ 32 ->
  (forall i, a i <> Some x) ->
  node s x = HeapNode None None (a ((n + 1) / 2)) ->
  heap_rep (set_nelts (store s (slot a (n + 1)) (Some x)) (n + 1))
           (place a (n + 1) (Some x)) (n + 1).
Proof.
  intros H Hn Hfresh Nx.
  pose proof (rep_range _ _ _ H) as Hr.
  assert (Hnode : forall z,
    node (set_nelts (store s (slot a (n + 1)) (Some x)) (n + 1)) z =
    HeapNode
      (if ptr_eqb (a ((n + 1) / 2)) (Some z) && Z.even (n + 1) && (2 <=? n + 1)
       then Some x else left (node s z))
      (if ptr_eqb (a ((n + 1) / 2)) (Some z) && negb (Z.even (n + 1)) && (2 <=? n + 1)
       then Some x else right (node s z))
      (parent (node s z))).
  { intro z. rewrite node_set_nelts. unfold slot.
    destruct (Z.leb_spec (n + 1) 1) as [Hle|Hgt].
    - replace (2 <=? n + 1) with false by (symmetry; apply Z.leb_gt; lia).
      rewrite !andb_false_r. cbn [store]. rewrite node_set_min.
      destruct (node s z); reflexivity.
    - replace (2 <=? n + 1) with true by (symmetry; apply Z.leb_le; lia).
      rewrite !andb_true_r.
      destruct (rep_some _ _ _ ((n + 1) / 2) H ltac:(dlia)) as [y Hy]. rewrite Hy.
      change (ptr_eqb (Some y) (Some z)) with (Pos.eqb y z). rewrite (Pos.eqb_sym y z).
      destruct (Z.even (n + 1)); cbn [store negb andb]; apply heap_node_eq;
        cbn [left right parent]; autorewrite with mem; rewrite ?andb_false_r;
        try reflexivity; destruct (Pos.eqb z y); reflexivity. }
  assert (Hhp : hp (set_nelts (store s (slot a (n + 1)) (Some x)) (n + 1)) =
                Heap (if n + 1 <=? 1 then Some x else min (hp s)) (n + 1)).
  { unfold slot. destruct (Z.leb_spec (n + 1) 1); [reflexivity|].
    destruct (rep_some _ _ _ ((n + 1) / 2) H ltac:(dlia)) as [y ->].
    destruct (Z.even (n + 1)); reflexivity. }
  split.
  - lia.
  - intro i. unfold place. destruct (Z.eqb_spec i (n + 1)) as [->|Hne].
    + split; [lia|congruence].
    + rewrite (rep_dom _ _ _ H). lia.
  - intros i j z. unfold place.
    destruct (Z.eqb_spec i (n + 1)), (Z.eqb_spec j (n + 1)); subst; intros E1 E2;
      try reflexivity.
    + exfalso. apply (Hfresh j). congruence.
    + exfalso. apply (Hfresh i). congruence.
    + eapply rep_inj; eauto.
  - rewrite Hhp. cbn [min]. unfold place.
    destruct (Z.leb_spec (n + 1) 1), (Z.eqb_spec 1 (n + 1)); try lia; try reflexivity.
    apply (rep_min _ _ _ H).
  - rewrite Hhp. reflexivity.
  - intros i z Hz. rewrite Hnode. unfold place in Hz.
    destruct (Z.eqb_spec i (n + 1)) as [->|Hne].
    + assert (z = x) by congruence. subst z. rewrite Nx. cbn [left right parent].
      replace (ptr_eqb (a ((n + 1) / 2)) (Some x)) with false
        by (symmetry; apply ptr_eqb_neq, Hfresh).
      cbn [andb]. unfold place.
      rewrite (rep_none _ _ _ (2 * (n + 1)) H) by lia.
      rewrite (rep_none _ _ _ (2 * (n + 1) + 1) H) by lia.
      split_eqb; try dlia. reflexivity.
    + rewrite (rep_node _ _ _ H _ _ Hz). cbn [left right parent].
      rewrite (rep_eqb _ _ _ _ _ _ H Hz).
      assert (Hi : 1 <= i <= n) by (apply (rep_dom _ _ _ H); congruence).
      unfold place. apply heap_node_eq; cbn [left right parent].
      * rewrite left_child_test by lia. reflexivity.
      * rewrite right_child_test by lia. reflexivity.
      * split_eqb; try dlia. reflexivity.
Qed.

(** ** The repair loops refine their array versions *)

Section Refinement.

Variable less_than : ptr -> ptr -> bool.

Lemma sift_up_eq fuel s x :
  sift_up less_than fuel s x =
  match parent (node s x) with
  | None => Some s
  | Some p =>
      if less_than x p then
        match fuel with
        | O => None
        | S fuel' => sift_up less_than fuel' (heap_node_swap s p x) x
        end
      else Some s
  end.
Proof. destruct fuel; reflexivity. Qed.

Lemma sift_down_eq fuel s child :
  sift_down less_than fuel s child =
  let smallest := child in
  let smallest :=
    match left (node s child) with
    | Some l => if less_than l smallest then l else smallest
    | None => smallest
    end in
  let smallest :=
    match right (node s child) with
    | Some r => if less_than r smallest then r else smallest
    | None => smallest
    end in
  if Pos.eqb smallest child then Some s
  else
    match fuel with
    | O => None
    | S fuel' => sift_down less_than fuel' (heap_node_swap s child smallest) child
    end.
Proof. destruct fuel; reflexivity. Qed.

Lemma exchange_l a i j : exchange a i j i = a j.
Proof. unfold exchange. rewrite Z.eqb_refl. reflexivity. Qed.

Lemma exchange_r a i j : exchange a i j j = a i.
Proof.
  unfold exchange. rewrite Z.eqb_refl.
  destruct (Z.eqb_spec j i); [subst|]; reflexivity.
Qed.

Lemma sift_up_refines n p :
  forall fuel s a x,
    heap_rep s a n -> a (Zpos p) = Some x ->
    (Pos.size_nat p <= S fuel)%nat ->
    exists s',
      sift_up less_than fuel s x = Some s' /\
      heap_rep s' (fst (sift_up_arr less_than a p)) n /\
      fst (sift_up_arr less_than a p) (snd (sift_up_arr less_than a p)) = Some x.
Proof.
  induction p as [q IH|q IH|]; intros fuel s a x H Hx Hf.
  - assert (Hc : 1 <= Zpos q~1 <= n) by (apply (rep_dom _ _ _ H); congruence).
    assert (Hd : Z.pos q~1 / 2 = Zpos q) by dlia.
    destruct (rep_some _ _ _ (Zpos q) H ltac:(lia)) as [y Hy].
    rewrite sift_up_eq, (rep_node _ _ _ H _ _ Hx). cbn [parent].
    rewrite Hd, Hy. cbn [sift_up_arr]. rewrite Hx, Hy. cbn [lto].
    destruct (less_than x y).
    + cbn [Pos.size_nat] in Hf.
      destruct fuel as [|fuel]; [destruct q; cbn [Pos.size_nat] in Hf; lia|].
      apply IH; [|rewrite exchange_l; exact Hx|lia].
      rewrite <- Hd. apply heap_node_swap_rep; [assumption..|]. rewrite Hd. assumption.
    + exists s. cbn [fst snd]. auto.
  - assert (Hc : 1 <= Zpos q~0 <= n) by (apply (rep_dom _ _ _ H); congruence).
    assert (Hd : Z.pos q~0 / 2 = Zpos q) by dlia.
    destruct (rep_some _ _ _ (Zpos q) H ltac:(lia)) as [y Hy].
    rewrite sift_up_eq, (rep_node _ _ _ H _ _ Hx). cbn [parent].
    rewrite Hd, Hy. cbn [sift_up_arr]. rewrite Hx, Hy. cbn [lto].
    destruct (less_than x y).
    + cbn [Pos.size_nat] in Hf.
      destruct fuel as [|fuel]; [destruct q; cbn [Pos.size_nat] in Hf; lia|].
      apply IH; [|rewrite exchange_l; exact Hx|lia].
      rewrite <- Hd. apply heap_node_swap_rep; [assumption..|]. rewrite Hd. assumption.
    + exists s. cbn [fst snd]. auto.
  - rewrite sift_up_eq, (rep_node _ _ _ H _ _ Hx). cbn [parent].
    change (1 / 2) with 0. rewrite (rep_none _ _ _ 0 H) by lia.
    exists s. cbn [sift_up_arr fst snd]. auto.
Qed.

Lemma sift_up_top n s a i x :
  heap_rep s a n -> a i = Some x ->
  exists s',
    sift_up less_than depth_fuel s x = Some s' /\
    heap_rep s' (fst (sift_up_arr less_than a (Z.to_pos i))) n.
Proof.
  intros H Hx.
  assert (Hi : 1 <= i <= n) by (apply (rep_dom _ _ _ H); congruence).
  pose proof (rep_range _ _ _ H) as Hr.
  destruct i as [|p|p]; try lia.
  destruct (sift_up_refines n p depth_fuel s a x H Hx) as (s' & E & R & _).
  - assert ((Pos.size_nat p <= 32)%nat).
    { apply size_nat_bound. change (2 ^ Z.of_nat 32) with (2 ^ 32). lia. }
    unfold depth_fuel. lia.
  - exists s'. auto.
Qed.

(** ** [heap_insert] *)

Lemma nelts_store s l v : nelts (hp (store s l v)) = nelts (hp s).
Proof. destruct l; reflexivity. Qed.

Lemma slot_1 a : slot a 1 = AtMin.
Proof. reflexivity. Qed.

(** The memory [heap_insert] reaches before its last loop. *)
Lemma heap_insert_link s a n x :
  heap_rep s a n -> n < UINT_MAX -> (forall i, a i <> Some x) ->
  exists s1,
    heap_insert less_than s x = sift_up less_than depth_fuel s1 x /\
    heap_rep s1 (place a (n + 1) (Some x)) (n + 1) /\
    node s1 x = HeapNode None None (a ((n + 1) / 2)).
Proof.
  intros H Hn Hfresh. unfold UINT_MAX in Hn.
  pose proof (rep_range _ _ _ H) as Hr.
  unfold heap_insert.
  set (s0 := set_parent (set_right (set_left s x None) x None) x None).
  assert (N0 : forall z, node s0 z = if Pos.eqb z x then HeapNode None None None else node s z).
  { intro z. subst s0. apply heap_node_eq; autorewrite with mem;
      destruct (Pos.eqb z x); reflexivity. }
  assert (H0 : heap_rep s0 a n).
  { apply (heap_rep_frame s); [assumption| |reflexivity].
    intros i z Hz. rewrite N0. destruct (Pos.eqb_spec z x); [|reflexivity].
    subst z. exfalso. exact (Hfresh _ Hz). }
  replace (nelts (hp s0)) with n by (symmetry; apply (rep_nelts _ _ _ H0)).
  unfold uint. rewrite Z.mod_small by lia.
  destruct (path_loop_top (1 + n) ltac:(lia)) as (path & k & -> & B).
  cbn [bind].
  assert (Hidx : idx_of (bits_of k path) 1 = n + 1).
  { rewrite B, idx_of_path. rewrite Z2Pos.id; lia. }
  change (insert_walk s0 k path AtMin AtMin) with (insert_walk s0 k path AtMin (slot a 1)).
  rewrite (insert_walk_rep _ _ _ H0) by lia. cbn [bind]. rewrite Hidx.
  set (pl := match k with O => AtMin | S _ => slot a ((n + 1) / 2) end).
  assert (Hpl : load s0 pl = a ((n + 1) / 2)).
  { subst pl. destruct k as [|k].
    - cbn [bits_of idx_of fold_left] in Hidx. assert (n = 0) by lia. subst n.
      cbn [load]. rewrite (rep_min _ _ _ H0). change ((0 + 1) / 2) with 0.
      rewrite (rep_none _ _ _ 0 H0), (rep_none _ _ _ 1 H0) by lia. reflexivity.
    - cbn [bits_of] in Hidx. rewrite idx_of_cons in Hidx.
      match type of Hidx with idx_of ?l ?j = _ =>
        pose proof (idx_of_ge l j ltac:(destruct (negb (Z.land path 1 =? 0)); lia)) end.
      apply (load_slot _ _ _ _ H0).
      destruct (negb (Z.land path 1 =? 0)); dlia. }
  rewrite Hpl.
  set (s1 := set_parent s0 x (a ((n + 1) / 2))).
  assert (N1 : node s1 x = HeapNode None None (a ((n + 1) / 2))).
  { subst s1. apply heap_node_eq; autorewrite with mem; rewrite ?N0, ?Pos.eqb_refl;
      reflexivity. }
  assert (H1 : heap_rep s1 a n).
  { apply (heap_rep_frame s0); [assumption| |reflexivity].
    intros i z Hz. subst s1. apply heap_node_eq; autorewrite with mem; try reflexivity.
    destruct (Pos.eqb_spec z x); [|reflexivity].
    subst z. exfalso. exact (Hfresh _ Hz). }
  rewrite nelts_store. replace (nelts (hp s1)) with n by (symmetry; apply (rep_nelts _ _ _ H1)).
  rewrite Z.mod_small by lia.
  exists (set_nelts (store s1 (slot a (n + 1)) (Some x)) (n + 1)).
  split; [reflexivity|]. split.
  - apply place_rep; auto. lia.
  - rewrite node_set_nelts.
    assert (Hs : forall z, parent (node (store s1 (slot a (n + 1)) (Some x)) z) = parent (node s1 z)
                  /\ (z = x -> node (store s1 (slot a (n + 1)) (Some x)) z = node s1 z)).
    { intro z. unfold slot. destruct (n + 1 <=? 1); [cbn [store]; auto|].
      destruct (a ((n + 1) / 2)) as [y|] eqn:Ey; [|cbn [store]; auto].
      assert (y <> x) by (intros ->; exact (Hfresh _ Ey)).
      destruct (Z.even (n + 1)); cbn [store]; (split; [autorewrite with mem; reflexivity|]);
        intros ->; apply heap_node_eq; autorewrite with mem;
        rewrite ?(proj2 (Pos.eqb_neq x y)) by congruence; reflexivity. }
    rewrite (proj2 (Hs x) eq_refl). exact N1.
Qed.

Lemma heap_insert_refines s a n x :
  heap_rep s a n -> n < UINT_MAX -> (forall i, a i <> Some x) ->
  exists s',
    heap_insert less_than s x = Some s' /\
    heap_rep s' (insert_arr less_than a n x) (n + 1).
Proof.
  intros H Hn Hfresh.
  destruct (heap_insert_link s a n x H Hn Hfresh) as (s1 & E & H1 & _).
  rewrite E. unfold insert_arr.
  apply (sift_up_top (n + 1) s1 _ (n + 1) x H1).
  unfold place. rewrite Z.eqb_refl. reflexivity.
Qed.

End Refinement.

Section RefinementRemove.

Variable less_than : ptr -> ptr -> bool.

(** ** The downward repair loop *)

Lemma smallest_corr s a n i x :
  heap_rep s a n -> a i = Some x ->
  let sm1 := match a (2 * i) with
             | Some l => if less_than l x then l else x
             | None => x
             end in
  let sm2 := match a (2 * i + 1) with
             | Some r => if less_than r sm1 then r else sm1
             | None => sm1
             end in
  let j1 := if lto less_than (a (2 * i)) (a i) then 2 * i else i in
  let j2 := if lto less_than (a (2 * i + 1)) (a j1) then 2 * i + 1 else j1 in
  a j2 = Some sm2 /\ (j2 = i \/ ((j2 = 2 * i \/ j2 = 2 * i + 1) /\ j2 / 2 = i)).
Proof.
  intros H Hx. cbv zeta. rewrite Hx.
  assert (Hi : 1 <= i <= n) by (apply (rep_dom _ _ _ H); congruence).
  destruct (a (2 * i)) as [l|] eqn:El; cbn [lto].
  - destruct (less_than l x); rewrite ?El, ?Hx.
    + destruct (a (2 * i + 1)) as [r|] eqn:Er; cbn [lto].
      * destruct (less_than r l); rewrite ?El, ?Er; (split; [reflexivity|right; split; [lia|dlia]]).
      * rewrite El. split; [reflexivity|right; split; [lia|dlia]].
    + destruct (a (2 * i + 1)) as [r|] eqn:Er; cbn [lto].
      * destruct (less_than r x); rewrite ?Hx, ?Er;
          (split; [reflexivity|]); [right; split; [lia|dlia] | left; reflexivity].
      * rewrite Hx. split; [reflexivity|left; reflexivity].
  - rewrite Hx. destruct (a (2 * i + 1)) as [r|] eqn:Er; cbn [lto].
    + destruct (less_than r x); rewrite ?Hx, ?Er;
        (split; [reflexivity|]); [right; split; [lia|dlia] | left; reflexivity].
    + rewrite Hx. split; [reflexivity|left; reflexivity].
Qed.

Lemma sift_down_refines n fuel :
  forall s a i x,
    heap_rep s a n -> a i = Some x ->
    n < i * 2 ^ Z.of_nat fuel ->
    exists s',
      sift_down less_than fuel s x = Some s' /\
      heap_rep s' (fst (sift_down_arr less_than fuel a i)) n /\
      fst (sift_down_arr less_than fuel a i) (snd (sift_down_arr less_than fuel a i))
      = Some x.
Proof.
  induction fuel as [|fuel IH]; intros s a i x H Hx Hf.
  - assert (Hi : 1 <= i <= n) by (apply (rep_dom _ _ _ H); congruence).
    change (2 ^ Z.of_nat 0) with 1 in Hf. lia.
  - assert (Hi : 1 <= i <= n) by (apply (rep_dom _ _ _ H); congruence).
    destruct (smallest_corr s a n i x H Hx) as [Hsm Hj].
    rewrite sift_down_eq, (rep_node _ _ _ H _ _ Hx). cbn [left right].
    cbv zeta. cbn [sift_down_arr]. cbv zeta.
    set (sm := match a (2 * i + 1) with
               | Some r => if less_than r _ then r else _
               | None => _
               end) in *.
    set (j := if lto less_than (a (2 * i + 1)) _ then 2 * i + 1 else _) in *.
    rewrite (rep_eqb_pos _ _ _ _ _ _ _ H Hx Hsm).
    destruct (Z.eqb_spec j i) as [Hji|Hji].
    + exists s. cbn [fst snd]. auto.
    + destruct Hj as [Hj|[Hj Hd]]; [contradiction|].
      assert (Hjn : 1 <= j <= n) by (apply (rep_dom _ _ _ H); congruence).
      apply IH.
      * rewrite <- Hd. apply heap_node_swap_rep; [assumption..|]. rewrite Hd. assumption.
      * rewrite exchange_r. assumption.
      * rewrite Nat2Z.inj_succ, Z.pow_succ_r in Hf by lia. nia.
Qed.

Lemma sift_down_top n s a i x :
  heap_rep s a n -> a i = Some x ->
  exists s',
    sift_down less_than depth_fuel s x = Some s' /\
    heap_rep s' (fst (sift_down_arr less_than depth_fuel a i)) n /\
    fst (sift_down_arr less_than depth_fuel a i)
        (snd (sift_down_arr less_than depth_fuel a i)) = Some x.
Proof.
  intros H Hx. apply sift_down_refines; auto.
  assert (Hi : 1 <= i <= n) by (apply (rep_dom _ _ _ H); congruence).
  pose proof (rep_range _ _ _ H) as Hr.
  change (2 ^ Z.of_nat depth_fuel) with (2 ^ 32). nia.
Qed.

End RefinementRemove.

(** ** Unlinking the last node *)

Lemma unlink_rep s a n :
  heap_rep s a n -> 1 <= n ->
  heap_rep (store (set_nelts s (n - 1)) (slot a n) None) (place a n None) (n - 1).
Proof.
  intros H Hn.
  pose proof (rep_range _ _ _ H) as Hr.
  assert (Hnode : forall z,
    node (store (set_nelts s (n - 1)) (slot a n) None) z =
    HeapNode
      (if ptr_eqb (a (n / 2)) (Some z) && Z.even n && (2 <=? n)
       then None else left (node s z))
      (if ptr_eqb (a (n / 2)) (Some z) && negb (Z.even n) && (2 <=? n)
       then None else right (node s z))
      (parent (node s z))).
  { intro z. unfold slot.
    destruct (Z.leb_spec n 1) as [Hle|Hgt].
    - replace (2 <=? n) with false by (symmetry; apply Z.leb_gt; lia).
      rewrite !andb_false_r. cbn [store]. rewrite node_set_min, node_set_nelts.
      destruct (node s z); reflexivity.
    - replace (2 <=? n) with true by (symmetry; apply Z.leb_le; lia).
      rewrite !andb_true_r.
      destruct (rep_some _ _ _ (n / 2) H ltac:(dlia)) as [y Hy]. rewrite Hy.
      change (ptr_eqb (Some y) (Some z)) with (Pos.eqb y z). rewrite (Pos.eqb_sym y z).
      destruct (Z.even n); cbn [store negb andb]; apply heap_node_eq;
        cbn [left right parent]; autorewrite with mem; rewrite ?andb_false_r;
        try reflexivity; destruct (Pos.eqb z y); reflexivity. }
  assert (Hhp : hp (store (set_nelts s (n - 1)) (slot a n) None) =
                Heap (if n <=? 1 then None else min (hp s)) (n - 1)).
  { unfold slot. destruct (Z.leb_spec n 1); [reflexivity|].
    destruct (rep_some _ _ _ (n / 2) H ltac:(dlia)) as [y ->].
    destruct (Z.even n); reflexivity. }
  split.
  - lia.
  - intro i. unfold place. destruct (Z.eqb_spec i n) as [->|Hne].
    + split; [congruence|lia].
    + rewrite (rep_dom _ _ _ H). lia.
  - intros i j z. unfold place.
    destruct (Z.eqb_spec i n), (Z.eqb_spec j n); subst; intros E1 E2;
      try discriminate. eapply rep_inj; eauto.
  - rewrite Hhp. cbn [min]. unfold place.
    destruct (Z.leb_spec n 1), (Z.eqb_spec 1 n); try lia; try reflexivity.
    apply (rep_min _ _ _ H).
  - rewrite Hhp. reflexivity.
  - intros i z Hz. rewrite Hnode. unfold place in Hz.
    destruct (Z.eqb_spec i n) as [->|Hne]; [discriminate|].
    rewrite (rep_node _ _ _ H _ _ Hz). cbn [left right parent].
    rewrite (rep_eqb _ _ _ _ _ _ H Hz).
    assert (Hi : 1 <= i <= n) by (apply (rep_dom _ _ _ H); congruence).
    unfold place. apply heap_node_eq; cbn [left right parent].
    + rewrite left_child_test by lia. reflexivity.
    + rewrite right_child_test by lia. reflexivity.
    + split_eqb; try dlia. reflexivity.
Qed.

(** ** Putting a node in another's place *)

Lemma splice_rep s a n i x c :
  heap_rep s a n -> a i = Some x -> (forall j, a j <> Some c) ->
  heap_rep (splice s x c) (place a i (Some c)) n.
Proof.
  intros H Hx Hfresh.
  assert (Hi : 1 <= i <= n) by (apply (rep_dom _ _ _ H); congruence).
  pose proof (rep_node _ _ _ H _ _ Hx) as Nx.
  assert (Hcx : Pos.eqb c x = false).
  { apply Pos.eqb_neq. intros ->. exact (Hfresh _ Hx). }
  assert (Hxc : Pos.eqb x c = false) by (rewrite Pos.eqb_sym; exact Hcx).
  assert (Hc : forall j, ptr_eqb (a j) (Some c) = false).
  { intro j. apply ptr_eqb_neq, Hfresh. }
  assert (Hl : ptr_eqb (a (2 * i)) (Some x) = false).
  { rewrite (rep_eqb _ _ _ _ _ _ H Hx). apply Z.eqb_neq. lia. }
  assert (Hr : ptr_eqb (a (2 * i + 1)) (Some x) = false).
  { rewrite (rep_eqb _ _ _ _ _ _ H Hx). apply Z.eqb_neq. lia. }
  assert (Hnode : forall z,
    node (splice s x c) z =
    if Pos.eqb z c then HeapNode (a (2 * i)) (a (2 * i + 1)) (a (i / 2))
    else HeapNode
           (if ptr_eqb (a (i / 2)) (Some z) && ptr_eqb (left (node s z)) (Some x)
            then Some c else left (node s z))
           (if ptr_eqb (a (i / 2)) (Some z) && negb (ptr_eqb (left (node s z)) (Some x))
            then Some c else right (node s z))
           (if ptr_eqb (a (2 * i + 1)) (Some z) then Some c
            else if ptr_eqb (a (2 * i)) (Some z) then Some c
            else parent (node s z))).
  { intro z. unfold splice. cbv zeta.
    destruct (Pos.eqb_spec z c) as [->|Hzc].
    - apply heap_node_eq; cbn [left right parent]; autorewrite with mem;
        rewrite ?Hxc, ?Hcx, ?Nx; cbn [left right parent]; rewrite ?Hl, ?Hr, ?Hc;
        cbn [andb]; reflexivity.
    - apply heap_node_eq; cbn [left right parent]; autorewrite with mem;
        rewrite ?Hxc, ?Hcx, ?Nx; cbn [left right parent];
        rewrite ?Hl, ?Hr, ?(proj2 (Pos.eqb_neq z c) Hzc); reflexivity. }
  assert (Hhp : hp (splice s x c) =
                match a (i / 2) with
                | None => Heap (Some c) (nelts (hp s))
                | Some _ => hp s
                end).
  { unfold splice. cbv zeta. autorewrite with mem. rewrite ?Hxc, ?Nx.
    cbn [left right parent]. rewrite ?Hl, ?Hr. reflexivity. }
  name_half i g.
  split.
  - apply (rep_range _ _ _ H).
  - intro j. unfold place. destruct (Z.eqb_spec j i) as [->|Hne].
    + split; [lia|congruence].
    + apply (rep_dom _ _ _ H).
  - intros j k z. unfold place.
    destruct (Z.eqb_spec j i), (Z.eqb_spec k i); subst; intros E1 E2; try reflexivity.
    + exfalso. apply (Hfresh k). congruence.
    + exfalso. apply (Hfresh j). congruence.
    + eapply rep_inj; eauto.
  - rewrite Hhp. unfold place. destruct (Z.eqb_spec 1 i) as [<-|Hne].
    + rewrite (rep_none _ _ _ g H) by lia. reflexivity.
    + destruct (rep_some _ _ _ g H ltac:(lia)) as [gp ->]. apply (rep_min _ _ _ H).
  - rewrite Hhp. destruct (a g); apply (rep_nelts _ _ _ H).
  - intros j z Hz. rewrite Hnode. unfold place in Hz.
    destruct (Z.eqb_spec j i) as [->|Hne].
    + assert (z = c) by congruence. subst z. rewrite Pos.eqb_refl.
      rewrite <- (Z.div_unique_pos i 2 g (i - 2 * g)) by lia.
      unfold place. split_eqb. reflexivity.
    + assert (Hzc : Pos.eqb z c = false).
      { apply Pos.eqb_neq. intros ->. exact (Hfresh _ Hz). }
      rewrite Hzc, (rep_node _ _ _ H _ _ Hz). cbn [left right parent].
      rewrite !(rep_eqb _ _ _ _ _ _ H Hz), !(rep_eqb _ _ _ _ _ _ H Hx).
      name_half j q. unfold place.
      apply heap_node_eq; cbn [left right parent]; split_eqb; cbn [andb negb];
        try reflexivity.
Qed.

Section RemoveRefines.

Variable less_than : ptr -> ptr -> bool.

Lemma load_set_nelts s m l : load (set_nelts s m) l = load s l.
Proof. destruct l; reflexivity. Qed.

Lemma heap_remove_eq s x :
  heap_remove less_than s x =
  if nelts (hp s) =? 0 then Some s
  else
    '(path, k) <- path_loop 32 0 0 (nelts (hp s)) ;;
    max <- remove_walk s k path AtMin ;;
    let s1 := set_nelts s (uint (nelts (hp s) - 1)) in
    let child_ := load s1 max in
    let s2 := store s1 max None in
    if ptr_eqb child_ (Some x) then
      if ptr_eqb child_ (min (hp s2)) then Some (set_min s2 None) else Some s2
    else
      child <- child_ ;;
      s3 <- sift_down less_than depth_fuel (splice s2 x child) child ;;
      sift_up less_than depth_fuel s3 child.
Proof. reflexivity. Qed.

Lemma heap_remove_empty s x :
  nelts (hp s) = 0 -> heap_remove less_than s x = Some s.
Proof. intro E. rewrite heap_remove_eq, E. reflexivity. Qed.

(** Removing the node at the last position only unlinks it. *)
Lemma heap_remove_last s a n x :
  heap_rep s a n -> a n = Some x ->
  heap_remove less_than s x =
    Some (store (set_nelts s (n - 1)) (slot a n) None) /\
  heap_rep (store (set_nelts s (n - 1)) (slot a n) None) (place a n None) (n - 1).
Proof.
  intros H Hx.
  assert (Hn : 1 <= n <= n) by (apply (rep_dom _ _ _ H); congruence).
  pose proof (rep_range _ _ _ H) as Hr.
  pose proof (unlink_rep s a n H ltac:(lia)) as H2.
  split; [|exact H2].
  rewrite heap_remove_eq, (rep_nelts _ _ _ H).
  replace (n =? 0) with false by (symmetry; apply Z.eqb_neq; lia).
  destruct (path_loop_top n ltac:(lia)) as (path & k & -> & B). cbn [bind].
  rewrite remove_walk_follow, B. change AtMin with (slot a 1).
  rewrite (follow_rep _ _ _ H) by (rewrite ?idx_of_path, ?Z2Pos.id; lia).
  rewrite idx_of_path, Z2Pos.id by lia. cbn [bind]. cbv zeta.
  unfold uint. rewrite Z.mod_small by lia.
  rewrite load_set_nelts, (load_slot _ _ _ _ H), Hx, ptr_eqb_refl by lia.
  rewrite (rep_min _ _ _ H2). unfold place.
  destruct (Z.eqb_spec 1 n) as [<-|Hne]; [reflexivity|].
  replace (ptr_eqb (Some x) (a 1)) with false; [reflexivity|].
  symmetry. apply ptr_eqb_neq. intro E. symmetry in E.
  pose proof (rep_inj _ _ _ H _ _ _ E Hx). lia.
Qed.

(** Removing any other node: the last node takes its place, then moves
    down and up. *)
Lemma heap_remove_inner s a n i x :
  heap_rep s a n -> a i = Some x -> i <> n ->
  exists c s2 s3 s',
    a n = Some c /\
    s2 = splice (store (set_nelts s (n - 1)) (slot a n) None) x c /\
    heap_rep s2 (place (place a n None) i (Some c)) (n - 1) /\
    sift_down less_than depth_fuel s2 c = Some s3 /\
    sift_up less_than depth_fuel s3 c = Some s' /\
    heap_remove less_than s x = Some s' /\
    heap_rep s' (remove_arr less_than a n i) (n - 1).
Proof.
  intros H Hx Hin.
  assert (Hi : 1 <= i <= n) by (apply (rep_dom _ _ _ H); congruence).
  pose proof (rep_range _ _ _ H) as Hr.
  destruct (rep_some _ _ _ n H ltac:(lia)) as [c Hc].
  pose proof (unlink_rep s a n H ltac:(lia)) as H1.
  assert (Hxc : x <> c).
  { intros ->. pose proof (rep_inj _ _ _ H _ _ _ Hx Hc). lia. }
  assert (Hfresh : forall j, place a n None j <> Some c).
  { intros j. unfold place. destruct (Z.eqb_spec j n); [discriminate|].
    intro E. pose proof (rep_inj _ _ _ H _ _ _ E Hc). lia. }
  assert (Hx1 : place a n None i = Some x).
  { unfold place. destruct (Z.eqb_spec i n); [lia|assumption]. }
  pose proof (splice_rep _ _ _ i x c H1 Hx1 Hfresh) as H2.
  set (s2 := splice (store (set_nelts s (n - 1)) (slot a n) None) x c) in *.
  set (a1 := place (place a n None) i (Some c)) in *.
  assert (Hc1 : a1 i = Some c) by (subst a1; unfold place; rewrite Z.eqb_refl; reflexivity).
  destruct (sift_down_top less_than _ _ _ _ _ H2 Hc1) as (s3 & E3 & H3 & Hc3).
  destruct (sift_up_top less_than _ _ _ _ _ H3 Hc3) as (s' & E' & H').
  exists c, s2, s3, s'.
  split; [exact Hc|]. split; [reflexivity|]. split; [exact H2|].
  split; [exact E3|]. split; [exact E'|]. split.
  - rewrite heap_remove_eq, (rep_nelts _ _ _ H).
    replace (n =? 0) with false by (symmetry; apply Z.eqb_neq; lia).
    destruct (path_loop_top n ltac:(lia)) as (path & k & -> & B). cbn [bind].
    rewrite remove_walk_follow, B. change AtMin with (slot a 1).
    rewrite (follow_rep _ _ _ H) by (rewrite ?idx_of_path, ?Z2Pos.id; lia).
    rewrite idx_of_path, Z2Pos.id by lia. cbn [bind]. cbv zeta.
    unfold uint. rewrite Z.mod_small by lia.
    rewrite load_set_nelts, (load_slot _ _ _ _ H), Hc by lia.
    replace (ptr_eqb (Some c) (Some x)) with false
      by (symmetry; apply ptr_eqb_neq; congruence).
    cbn [bind]. fold s2. rewrite E3. cbn [bind]. exact E'.
  - unfold remove_arr.
    replace (i =? n) with false by (symmetry; apply Z.eqb_neq; lia).
    rewrite Hc. fold a1.
    destruct (sift_down_arr less_than depth_fuel a1 i) as [a2 j] eqn:Ed.
    exact H'.
Qed.

End RemoveRefines.

(** ** Heap order on arrays *)

Section Order.

Variable less_than : ptr -> ptr -> bool.
Hypothesis swo : strict_weak_order less_than.

Abbreviation lt := (lto less_than).

Lemma lto_none_l o : lt None o = false.
Proof. reflexivity. Qed.

Lemma lto_none_r o : lt o None = false.
Proof. destruct o; reflexivity. Qed.

Lemma lto_irrefl o : lt o o = false.
Proof. destruct o; [apply (swo_irrefl _ swo)|reflexivity]. Qed.

Lemma lto_trans o1 o2 o3 : lt o1 o2 = true -> lt o2 o3 = true -> lt o1 o3 = true.
Proof.
  destruct o1, o2, o3; cbn [lto]; try discriminate. apply (swo_trans _ swo).
Qed.

Lemma lto_asym o1 o2 : lt o1 o2 = true -> lt o2 o1 = false.
Proof.
  intro H. destruct (lt o2 o1) eqn:E; [|reflexivity].
  pose proof (lto_trans _ _ _ H E) as K. rewrite lto_irrefl in K. discriminate.
Qed.

Lemma lto_incomp o1 o2 o3 :
  o2 <> None -> lt o1 o2 = false -> lt o2 o3 = false -> lt o1 o3 = false.
Proof.
  destruct o1, o2, o3; cbn [lto]; try reflexivity; try congruence.
  intros _. apply (swo_incomp _ swo).
Qed.

Lemma lto_true_l o1 o2 : lt o1 o2 = true -> o1 <> None.
Proof. destruct o1; [discriminate|rewrite lto_none_l; discriminate]. Qed.

Lemma lto_true_r o1 o2 : lt o1 o2 = true -> o2 <> None.
Proof. destruct o2; [discriminate|rewrite lto_none_r; discriminate]. Qed.

(** If [x] is not before [y] although it is before [z], then [z] is not
    before [y]... stated the way the sifting proofs use it. *)
Lemma lto_below o1 o2 o3 :
  lt o1 o2 = false -> lt o3 o2 = true -> lt o1 o3 = false.
Proof.
  intros H1 H2. destruct (lt o1 o3) eqn:E; [|reflexivity].
  rewrite (lto_trans _ _ _ E H2) in H1. discriminate.
Qed.

Lemma arr_dom_exchange a n i j :
  arr_dom a n -> a i <> None -> a j <> None -> arr_dom (exchange a i j) n.
Proof.
  intros D Hi Hj k. unfold exchange.
  destruct (Z.eqb_spec k i) as [->|]; [|destruct (Z.eqb_spec k j) as [->|]].
  - split; [intros _; apply D; assumption|auto].
  - split; [intros _; apply D; assumption|auto].
  - apply D.
Qed.

Lemma arr_mem_exchange a i j z :
  arr_mem (exchange a i j) z <-> arr_mem a z.
Proof.
  unfold arr_mem, exchange. split; intros [k Hk].
  - destruct (Z.eqb_spec k i); [eauto|]. destruct (Z.eqb_spec k j); eauto.
  - destruct (Z.eqb_spec k i) as [->|]; [|destruct (Z.eqb_spec k j) as [->|]].
    + exists j. rewrite Z.eqb_refl. destruct (Z.eqb_spec j i); congruence.
    + exists i. rewrite Z.eqb_refl. assumption.
    + exists k. destruct (Z.eqb_spec k i); [contradiction|].
      destruct (Z.eqb_spec k j); [contradiction|]. assumption.
Qed.

(** *** Sifting up *)

Lemma exchange_other a i j k : k <> i -> k <> j -> exchange a i j k = a k.
Proof.
  intros Hi Hj. unfold exchange.
  destruct (Z.eqb_spec k i); [contradiction|].
  destruct (Z.eqb_spec k j); [contradiction|]. reflexivity.
Qed.

Lemma up_step a P Q :
  1 <= Q -> (P = 2 * Q \/ P = 2 * Q + 1) ->
  ordered_but_up less_than a P ->
  lt (a P) (a Q) = true ->
  ordered_but_up less_than (exchange a Q P) Q.
Proof.
  intros HQ HP [U1 U2] Hlt.
  assert (HPQ : P / 2 = Q) by dlia.
  pose proof (lto_true_r _ _ Hlt) as HQs.
  split.
  - intros i Hi. destruct (Z.eq_dec i P) as [->|HiP].
    + rewrite exchange_r, HPQ, exchange_l. apply lto_asym, Hlt.
    + rewrite (exchange_other a Q P i) by assumption.
      destruct (Z.eq_dec (i / 2) Q) as [E|E]; [|destruct (Z.eq_dec (i / 2) P) as [E'|E']].
      * rewrite E, exchange_l. apply (lto_below _ (a Q)); [|exact Hlt].
        rewrite <- E. apply U1. assumption.
      * rewrite E', exchange_r. rewrite <- HPQ. apply U2. assumption.
      * rewrite exchange_other by assumption. apply U1. assumption.
  - intros i Hi. rewrite (exchange_other a Q P (Q / 2)) by dlia.
    destruct (Z.eq_dec i P) as [->|HiP].
    + rewrite exchange_r. apply U1. lia.
    + rewrite exchange_other by (auto; dlia).
      apply (lto_incomp _ (a Q)); [assumption| |].
      * rewrite <- Hi. apply U1. assumption.
      * apply U1. lia.
Qed.

Lemma up_done a P :
  a 0 = None ->
  ordered_but_up less_than a P ->
  lt (a P) (a (P / 2)) = false ->
  ordered less_than a.
Proof.
  intros H0 [U1 _] Hlt i. destruct (Z.eq_dec i P) as [->|Hne]; auto.
Qed.

Lemma sift_up_arr_ordered p :
  forall a,
    a 0 = None ->
    ordered_but_up less_than a (Zpos p) ->
    ordered less_than (fst (sift_up_arr less_than a p)).
Proof.
  induction p as [q IH|q IH|]; intros a H0 U; cbn [sift_up_arr].
  - destruct (lt (a (Z.pos q~1)) (a (Z.pos q))) eqn:E.
    + apply IH.
      * unfold exchange. split_eqb. assumption.
      * apply (up_step a (Z.pos q~1) (Z.pos q)); auto; lia.
    + apply (up_done a (Z.pos q~1)); auto.
      replace (Z.pos q~1 / 2) with (Z.pos q) by dlia. assumption.
  - destruct (lt (a (Z.pos q~0)) (a (Z.pos q))) eqn:E.
    + apply IH.
      * unfold exchange. split_eqb. assumption.
      * apply (up_step a (Z.pos q~0) (Z.pos q)); auto; lia.
    + apply (up_done a (Z.pos q~0)); auto.
      replace (Z.pos q~0 / 2) with (Z.pos q) by dlia. assumption.
  - apply (up_done a 1); auto. change (1 / 2) with 0. rewrite H0. apply lto_none_r.
Qed.

Lemma sift_up_arr_dom p :
  forall a n, arr_dom a n -> arr_dom (fst (sift_up_arr less_than a p)) n.
Proof.
  induction p as [q IH|q IH|]; intros a n D; cbn [sift_up_arr]; auto.
  - destruct (lt (a (Z.pos q~1)) (a (Z.pos q))) eqn:E; auto.
    apply IH, arr_dom_exchange; eauto using lto_true_l, lto_true_r.
  - destruct (lt (a (Z.pos q~0)) (a (Z.pos q))) eqn:E; auto.
    apply IH, arr_dom_exchange; eauto using lto_true_l, lto_true_r.
Qed.

Lemma sift_up_arr_mem p :
  forall a z, arr_mem (fst (sift_up_arr less_than a p)) z <-> arr_mem a z.
Proof.
  induction p as [q IH|q IH|]; intros a z; cbn [sift_up_arr]; try reflexivity.
  - destruct (lt (a (Z.pos q~1)) (a (Z.pos q))); [|reflexivity].
    rewrite IH. apply arr_mem_exchange.
  - destruct (lt (a (Z.pos q~0)) (a (Z.pos q))); [|reflexivity].
    rewrite IH. apply arr_mem_exchange.
Qed.

End Order.

Section OrderDown.

Variable less_than : ptr -> ptr -> bool.
Hypothesis swo : strict_weak_order less_than.

Abbreviation lt := (lto less_than).

(** *** Sifting down *)

(** What the choice of [smallest] establishes when a child is chosen. *)
Lemma smallest_child a i :
  1 <= i ->
  let j1 := if lt (a (2 * i)) (a i) then 2 * i else i in
  let j2 := if lt (a (2 * i + 1)) (a j1) then 2 * i + 1 else j1 in
  (j2 = i /\ lt (a (2 * i)) (a i) = false /\ lt (a (2 * i + 1)) (a i) = false) \/
  ((j2 = 2 * i \/ j2 = 2 * i + 1) /\
   lt (a j2) (a i) = true /\
   lt (a (2 * i)) (a j2) = false /\ lt (a (2 * i + 1)) (a j2) = false).
Proof.
  intro Hi. cbv zeta.
  destruct (lt (a (2 * i)) (a i)) eqn:E1.
  - destruct (lt (a (2 * i + 1)) (a (2 * i))) eqn:E2; right.
    + split; [lia|]. split; [eapply (lto_trans _ swo); eauto|].
      split; [apply (lto_asym _ swo); assumption | apply (lto_irrefl _ swo)].
    + split; [lia|]. split; [assumption|].
      split; [apply (lto_irrefl _ swo) | assumption].
  - destruct (lt (a (2 * i + 1)) (a i)) eqn:E2.
    + right. split; [lia|]. split; [assumption|].
      split; [|apply (lto_irrefl _ swo)].
      apply (lto_below _ swo _ (a i)); assumption.
    + left. auto.
Qed.

Lemma down_step a i c :
  1 <= i -> (c = 2 * i \/ c = 2 * i + 1) ->
  ordered_but_at less_than a i ->
  lt (a c) (a i) = true ->
  lt (a (2 * i)) (a c) = false -> lt (a (2 * i + 1)) (a c) = false ->
  ordered_but_at less_than (exchange a i c) c.
Proof.
  intros Hi Hc [D1 D2] Hlt Hl Hr.
  assert (Hci : c / 2 = i) by dlia.
  split.
  - intros j Hj Hj2. destruct (Z.eq_dec j i) as [->|Hji].
    + rewrite exchange_l, exchange_other by dlia. apply D2. assumption.
    + rewrite (exchange_other a i c j) by assumption.
      destruct (Z.eq_dec (j / 2) i) as [E|E].
      * rewrite E, exchange_l.
        assert (j = 2 * i \/ j = 2 * i + 1) as [-> | ->] by dlia; assumption.
      * rewrite exchange_other by assumption. apply D1; assumption.
  - intros j Hj. rewrite Hci, exchange_l, exchange_other by dlia.
    rewrite <- Hj. apply D1; dlia.
Qed.

Lemma down_done a i :
  1 <= i ->
  ordered_but_at less_than a i ->
  lt (a (2 * i)) (a i) = false -> lt (a (2 * i + 1)) (a i) = false ->
  ordered_but_up less_than a i.
Proof.
  intros Hi [D1 D2] Hl Hr. split; [|exact D2].
  intros j Hj. destruct (Z.eq_dec (j / 2) i) as [E|E].
  - rewrite E. assert (j = 2 * i \/ j = 2 * i + 1) as [-> | ->] by dlia; assumption.
  - apply D1; assumption.
Qed.

Lemma sift_down_arr_eq fuel a i :
  sift_down_arr less_than fuel a i =
  let j1 := if lt (a (2 * i)) (a i) then 2 * i else i in
  let j2 := if lt (a (2 * i + 1)) (a j1) then 2 * i + 1 else j1 in
  if j2 =? i then (a, i)
  else match fuel with
       | O => (a, i)
       | S fuel' => sift_down_arr less_than fuel' (exchange a i j2) j2
       end.
Proof. destruct fuel; reflexivity. Qed.

Lemma sift_down_arr_spec n fuel :
  forall a i,
    arr_dom a n -> 1 <= i -> n < i * 2 ^ Z.of_nat fuel ->
    ordered_but_at less_than a i ->
    let r := sift_down_arr less_than fuel a i in
    ordered_but_up less_than (fst r) (snd r) /\
    arr_dom (fst r) n /\ 1 <= snd r /\
    (forall z, arr_mem (fst r) z <-> arr_mem a z).
Proof.
  induction fuel as [|fuel IH]; intros a i D Hi Hf Hat; cbv zeta;
    rewrite sift_down_arr_eq; cbv zeta;
    destruct (smallest_child a i Hi) as [(-> & Hl & Hr)|(Hc & Hlt & Hl & Hr)].
  - rewrite Z.eqb_refl. cbn [fst snd].
    split; [apply down_done; assumption|]. split; [assumption|].
    split; [assumption|]. intro z. reflexivity.
  - exfalso. pose proof (lto_true_l _ _ _ Hlt) as Hs. apply D in Hs.
    change (2 ^ Z.of_nat 0) with 1 in Hf. lia.
  - rewrite Z.eqb_refl. cbn [fst snd].
    split; [apply down_done; assumption|]. split; [assumption|].
    split; [assumption|]. intro z. reflexivity.
  - match goal with |- context [?j =? i] =>
      replace (j =? i) with false by (symmetry; apply Z.eqb_neq; lia);
      set (c := j) in *
    end.
    pose proof (lto_true_l _ _ _ Hlt) as Hcs.
    pose proof (lto_true_r _ _ _ Hlt) as His.
    destruct (IH (exchange a i c) c) as (U & D' & H1 & M).
    + apply arr_dom_exchange; assumption.
    + lia.
    + rewrite Nat2Z.inj_succ, Z.pow_succ_r in Hf by lia. nia.
    + apply down_step; assumption.
    + split; [exact U|]. split; [exact D'|]. split; [exact H1|].
      intro z. rewrite M. apply arr_mem_exchange.
Qed.

End OrderDown.

Section ArrayHeap.

Variable less_than : ptr -> ptr -> bool.
Hypothesis swo : strict_weak_order less_than.

Abbreviation lt := (lto less_than).

(** *** The array algorithms keep heap order *)

Lemma ordered_empty : ordered less_than empty_arr.
Proof. intro i. reflexivity. Qed.

Lemma insert_arr_spec a n x :
  arr_dom a n -> 0 <= n -> ordered less_than a ->
  ordered less_than (insert_arr less_than a n x) /\
  arr_dom (insert_arr less_than a n x) (n + 1) /\
  (forall z, arr_mem (insert_arr less_than a n x) z <-> z = x \/ arr_mem a z).
Proof.
  intros D Hn O. unfold insert_arr.
  assert (Hnone : forall i, n < i -> a i = None).
  { intros i Hi. destruct (a i) eqn:E; [|reflexivity].
    assert (a i <> None) by congruence. apply D in H. lia. }
  assert (D1 : arr_dom (place a (n + 1) (Some x)) (n + 1)).
  { intro i. unfold place. destruct (Z.eqb_spec i (n + 1)) as [->|Hne].
    - split; [lia|congruence].
    - rewrite (D i). lia. }
  split; [|split].
  - apply (sift_up_arr_ordered _ swo).
    + unfold place. destruct (Z.eqb_spec 0 (n + 1)); [lia|].
      destruct (a 0) eqn:E; [|reflexivity].
      assert (a 0 <> None) by congruence. apply D in H. lia.
    + rewrite Z2Pos.id by lia. split.
      * intros i Hi. unfold place.
        destruct (Z.eqb_spec i (n + 1)); [contradiction|].
        destruct (Z.eqb_spec (i / 2) (n + 1)); [|apply O].
        rewrite (Hnone i) by dlia. reflexivity.
      * intros i Hi. unfold place.
        destruct (Z.eqb_spec i (n + 1)); [dlia|].
        rewrite (Hnone i) by dlia. reflexivity.
  - apply sift_up_arr_dom. assumption.
  - intro z. rewrite sift_up_arr_mem. unfold arr_mem, place. split.
    + intros [i Hi]. destruct (Z.eqb_spec i (n + 1)); [left; congruence|right; eauto].
    + intros [->|[i Hi]].
      * exists (n + 1). rewrite Z.eqb_refl. reflexivity.
      * exists i. destruct (Z.eqb_spec i (n + 1)) as [->|]; [|assumption].
        rewrite Hnone in Hi by lia. discriminate.
Qed.

Lemma remove_arr_spec a n i x :
  arr_dom a n -> n < 2 ^ 32 ->
  (forall j k z, a j = Some z -> a k = Some z -> j = k) ->
  ordered less_than a -> a i = Some x ->
  ordered less_than (remove_arr less_than a n i) /\
  arr_dom (remove_arr less_than a n i) (n - 1) /\
  (forall z, arr_mem (remove_arr less_than a n i) z <-> arr_mem a z /\ z <> x).
Proof.
  intros D Hn Inj O Hx.
  assert (Hi : 1 <= i <= n) by (apply D; congruence).
  assert (Hnone : forall k, n < k -> a k = None).
  { intros k Hk. destruct (a k) eqn:E; [|reflexivity].
    assert (a k <> None) by congruence. apply D in H. lia. }
  assert (D0 : arr_dom (place a n None) (n - 1)).
  { intro k. unfold place. destruct (Z.eqb_spec k n) as [->|Hne].
    - split; [congruence|lia].
    - rewrite (D k). lia. }
  assert (O0 : ordered less_than (place a n None)).
  { intro k. unfold place. destruct (Z.eqb_spec k n); [reflexivity|].
    destruct (Z.eqb_spec (k / 2) n); [apply lto_none_r|apply O]. }
  unfold remove_arr. destruct (Z.eqb_spec i n) as [->|Hin].
  - split; [exact O0|]. split; [exact D0|].
    intro z. unfold arr_mem, place. split.
    + intros [k Hk]. destruct (Z.eqb_spec k n); [discriminate|].
      split; [eauto|]. intros ->. pose proof (Inj _ _ _ Hk Hx). contradiction.
    + intros [[k Hk] Hz]. exists k. destruct (Z.eqb_spec k n) as [->|]; [|assumption].
      congruence.
  - assert (Hc : a n <> None) by (apply D; lia).
    destruct (a n) as [c|] eqn:Ec; [clear Hc|congruence].
    set (a1 := place (place a n None) i (Some c)).
    assert (D1 : arr_dom a1 (n - 1)).
    { intro k. subst a1. unfold place at 1. destruct (Z.eqb_spec k i) as [->|Hne].
      - split; [lia|congruence].
      - apply D0. }
    assert (At : ordered_but_at less_than a1 i).
    { split.
      - intros k Hk Hk2. subst a1. unfold place.
        destruct (Z.eqb_spec k i); [contradiction|].
        destruct (Z.eqb_spec (k / 2) i); [contradiction|].
        destruct (Z.eqb_spec k n); [reflexivity|].
        destruct (Z.eqb_spec (k / 2) n); [apply lto_none_r|apply O].
      - intros k Hk. subst a1. unfold place.
        destruct (Z.eqb_spec k i); [dlia|].
        destruct (Z.eqb_spec (i / 2) i); [dlia|].
        destruct (Z.eqb_spec k n); [reflexivity|].
        destruct (Z.eqb_spec (i / 2) n); [apply lto_none_r|].
        apply (lto_incomp _ swo _ (a i)); [congruence| |apply O].
        rewrite <- Hk. apply O. }
    destruct (sift_down_arr_spec _ swo (n - 1) depth_fuel a1 i D1 ltac:(lia))
      as (U & D2 & Hj & M2); [| exact At |].
    { change (2 ^ Z.of_nat depth_fuel) with (2 ^ 32). nia. }
    destruct (sift_down_arr less_than depth_fuel a1 i) as [a2 j] eqn:Ed.
    cbn [fst snd] in *.
    split; [|split].
    + apply (sift_up_arr_ordered _ swo).
      * destruct (a2 0) eqn:E; [|reflexivity].
        assert (a2 0 <> None) by congruence. apply D2 in H. lia.
      * rewrite Z2Pos.id by lia. exact U.
    + apply sift_up_arr_dom. assumption.
    + intro z. rewrite sift_up_arr_mem, M2. subst a1. unfold arr_mem, place. split.
      * intros [k Hk]. destruct (Z.eqb_spec k i) as [Hki|Hki].
        -- assert (z = c) by congruence. subst z. split; [eauto|].
           intros ->. pose proof (Inj _ _ _ Ec Hx). lia.
        -- destruct (Z.eqb_spec k n); [discriminate|]. split; [eauto|].
           intros ->. pose proof (Inj _ _ _ Hk Hx). contradiction.
      * intros [[k Hk] Hz]. destruct (Z.eq_dec k n) as [->|Hkn].
        -- exists i. rewrite Z.eqb_refl. congruence.
        -- exists k. destruct (Z.eqb_spec k i) as [->|]; [congruence|].
           destruct (Z.eqb_spec k n); [contradiction|assumption].
Qed.

(** *** The root is a least element *)

Lemma ordered_root a n :
  arr_dom a n -> ordered less_than a ->
  forall p, Zpos p <= n -> lt (a (Zpos p)) (a 1) = false.
Proof.
  intros D O. induction p as [q IH|q IH|]; intro Hp.
  - apply (lto_incomp _ swo _ (a (Zpos q))).
    + apply D. lia.
    + replace (Zpos q) with (Z.pos q~1 / 2) by dlia. apply O.
    + apply IH. lia.
  - apply (lto_incomp _ swo _ (a (Zpos q))).
    + apply D. lia.
    + replace (Zpos q) with (Z.pos q~0 / 2) by dlia. apply O.
    + apply IH. lia.
  - apply (lto_irrefl _ swo).
Qed.

End ArrayHeap.

(** ** From the array view back to memory *)

Lemma node_at_rep s a n :
  heap_rep s a n -> forall p, node_at s p = a (Zpos p).
Proof.
  intros H. induction p as [q IH|q IH|]; cbn [node_at].
  - rewrite IH. destruct (a (Zpos q)) as [x|] eqn:E; cbn [bind].
    + rewrite (rep_node _ _ _ H _ _ E). reflexivity.
    + symmetry. apply (rep_none _ _ _ _ H).
      assert (~ (1 <= Zpos q <= n)) by (rewrite <- (rep_dom _ _ _ H); congruence). lia.
  - rewrite IH. destruct (a (Zpos q)) as [x|] eqn:E; cbn [bind].
    + rewrite (rep_node _ _ _ H _ _ E). reflexivity.
    + symmetry. apply (rep_none _ _ _ _ H).
      assert (~ (1 <= Zpos q <= n)) by (rewrite <- (rep_dom _ _ _ H); congruence). lia.
  - apply (rep_min _ _ _ H).
Qed.

Lemma reachable_node_at s x : reachable s x <-> exists p, node_at s p = Some x.
Proof.
  split.
  - induction 1 as [x Hm|x y _ [p Hp] Hl|x y _ [p Hp] Hr].
    + exists 1%positive. exact Hm.
    + exists (p~0)%positive. cbn [node_at]. rewrite Hp. exact Hl.
    + exists (p~1)%positive. cbn [node_at]. rewrite Hp. exact Hr.
  - intros [p Hp]. revert x Hp. induction p as [q IH|q IH|]; cbn [node_at]; intros x Hp.
    + destruct (node_at s q) as [y|]; [|discriminate]. eapply reach_right; eauto.
    + destruct (node_at s q) as [y|]; [|discriminate]. eapply reach_left; eauto.
    + apply reach_min. exact Hp.
Qed.

Lemma reachable_rep s a n x :
  heap_rep s a n -> (reachable s x <-> arr_mem a x).
Proof.
  intro H. rewrite reachable_node_at. unfold arr_mem. split.
  - intros [p Hp]. exists (Zpos p). rewrite <- (node_at_rep _ _ _ H). exact Hp.
  - intros [i Hi].
    assert (1 <= i <= n) by (apply (rep_dom _ _ _ H); congruence).
    destruct i as [|p|p]; try lia. exists p. rewrite (node_at_rep _ _ _ H). exact Hi.
Qed.

Lemma arr_list_in a k x :
  In x (arr_list a k) <-> exists i, 1 <= i <= Z.of_nat k /\ a i = Some x.
Proof.
  induction k as [|k IH]; cbn [arr_list].
  - split; [contradiction|]. intros (i & Hi & _). lia.
  - rewrite in_app_iff, IH. split.
    + intros [(i & Hi & E)|Hin].
      * exists i. split; [lia|exact E].
      * destruct (a (Z.of_nat (S k))) as [y|] eqn:E; [|contradiction].
        destruct Hin as [->|[]]. exists (Z.of_nat (S k)). split; [lia|exact E].
    + intros (i & Hi & E). destruct (Z.eq_dec i (Z.of_nat (S k))) as [->|Hne].
      * right. rewrite E. left. reflexivity.
      * left. exists i. split; [lia|exact E].
Qed.

Lemma arr_list_spec s a n k :
  heap_rep s a n -> Z.of_nat k <= n ->
  NoDup (arr_list a k) /\ length (arr_list a k) = k.
Proof.
  intro H. induction k as [|k IH]; intro Hk; cbn [arr_list].
  - split; [constructor|reflexivity].
  - destruct IH as [ND Len]; [lia|].
    destruct (rep_some _ _ _ (Z.of_nat (S k)) H ltac:(lia)) as [x Hx]. rewrite Hx.
    split.
    + apply NoDup_app; [exact ND|repeat constructor; intros []|].
      intros y Hy [<-|[]]. apply arr_list_in in Hy. destruct Hy as (i & Hi & E).
      pose proof (rep_inj _ _ _ H _ _ _ E Hx). lia.
    + rewrite length_app, Len. cbn [length]. lia.
Qed.

Section HeapInvariant.

Variable less_than : ptr -> ptr -> bool.
Hypothesis swo : strict_weak_order less_than.

Lemma not_before_equiv x y : less_than y x = false -> before_or_equiv less_than x y.
Proof.
  intro H. unfold before_or_equiv. destruct (less_than x y); [left|right]; auto.
Qed.

Lemma heap_rep_inv s a n :
  heap_rep s a n -> ordered less_than a -> heap_inv less_than s.
Proof.
  intros H O. pose proof (rep_range _ _ _ H) as Hr.
  split.
  - intro p. rewrite (node_at_rep _ _ _ H), (rep_dom _ _ _ H), (rep_nelts _ _ _ H). lia.
  - intros p q x Hp Hq. rewrite (node_at_rep _ _ _ H) in Hp, Hq.
    pose proof (rep_inj _ _ _ H _ _ _ Hp Hq). congruence.
  - intros p x Hp. rewrite (node_at_rep _ _ _ H) in Hp.
    rewrite (rep_node _ _ _ H _ _ Hp). cbn [parent].
    destruct p as [q|q|]; cbn [parent_pos bind].
    + rewrite (node_at_rep _ _ _ H). f_equal. dlia.
    + rewrite (node_at_rep _ _ _ H). f_equal. dlia.
    + change (1 / 2) with 0. apply (rep_none _ _ _ _ H). lia.
  - exists (arr_list a (Z.to_nat n)).
    destruct (arr_list_spec s a n (Z.to_nat n) H ltac:(lia)) as [ND Len].
    split; [exact ND|]. split; [rewrite Len, (rep_nelts _ _ _ H); lia|].
    intro x. rewrite arr_list_in, (reachable_rep _ _ _ _ H). unfold arr_mem. split.
    + intros (i & _ & E). eauto.
    + intros [i E]. exists i. split; [|exact E].
      rewrite Z2Nat.id by lia. apply (rep_dom _ _ _ H). congruence.
  - intros x c Hx Hc. apply not_before_equiv.
    apply (reachable_rep _ _ _ _ H) in Hx. destruct Hx as [i Hi].
    rewrite (rep_node _ _ _ H _ _ Hi) in Hc. cbn [left right] in Hc.
    destruct Hc as [Hc|Hc].
    + pose proof (O (2 * i)) as K. rewrite Hc in K.
      replace (2 * i / 2) with i in K by dlia. rewrite Hi in K. exact K.
    + pose proof (O (2 * i + 1)) as K. rewrite Hc in K.
      replace ((2 * i + 1) / 2) with i in K by dlia. rewrite Hi in K. exact K.
  - intros x Hx. apply (reachable_rep _ _ _ _ H) in Hx. destruct Hx as [i Hi].
    assert (Hin : 1 <= i <= n) by (apply (rep_dom _ _ _ H); congruence).
    destruct (rep_some _ _ _ 1 H ltac:(lia)) as [m Hm].
    exists m. split; [unfold heap_min; rewrite (rep_min _ _ _ H); exact Hm|].
    apply not_before_equiv. destruct i as [|p|p]; try lia.
    pose proof (ordered_root _ swo a n (rep_dom _ _ _ H) O p ltac:(lia)) as K.
    rewrite Hi, Hm in K. exact K.
  - unfold heap_min. rewrite (rep_min _ _ _ H), (rep_nelts _ _ _ H). split.
    + intro E. destruct (Z.eq_dec n 0); [assumption|].
      destruct (rep_some _ _ _ 1 H ltac:(lia)) as [m Hm]. congruence.
    + intros ->. apply (rep_none _ _ _ _ H). lia.
Qed.

Lemma heap_ok_inv s members :
  heap_ok less_than s members ->
  heap_inv less_than s /\ (forall x, reachable s x <-> In x members).
Proof.
  intros (a & n & H & O & M & _ & _). split.
  - eapply heap_rep_inv; eauto.
  - intro x. rewrite (reachable_rep _ _ _ _ H). apply M.
Qed.

Lemma heap_rep_init s0 : heap_rep (heap_init s0) empty_arr 0.
Proof.
  split; try reflexivity.
  - lia.
  - intro i. unfold empty_arr. split; [congruence|lia].
  - intros i j x E. discriminate.
  - intros i x E. discriminate.
Qed.

Lemma heap_ok_init s0 : heap_ok less_than (heap_init s0) [].
Proof.
  exists empty_arr, 0. split; [apply heap_rep_init|].
  split; [apply ordered_empty|]. split; [|split; [constructor|reflexivity]].
  intro x. split; [intros [i E]; discriminate|contradiction].
Qed.

Lemma heap_ok_insert s members x :
  heap_ok less_than s members -> ~ In x members ->
  Z.of_nat (length members) < UINT_MAX ->
  exists s', heap_insert less_than s x = Some s' /\
             heap_ok less_than s' (x :: members).
Proof.
  intros (a & n & H & O & M & ND & Len) Hx Hn.
  assert (Hfresh : forall i, a i <> Some x).
  { intros i E. apply Hx, M. exists i. exact E. }
  destruct (heap_insert_refines less_than s a n x H ltac:(lia) Hfresh) as (s' & E & H').
  destruct (insert_arr_spec _ swo a n x (rep_dom _ _ _ H) ltac:(lia) O) as (O' & _ & M').
  exists s'. split; [exact E|].
  exists (insert_arr less_than a n x), (n + 1).
  split; [exact H'|]. split; [exact O'|]. split; [|split].
  - intro z. rewrite M', M. cbn [In]. split; intros [?|?]; auto.
  - constructor; assumption.
  - cbn [length]. lia.
Qed.

Lemma remove_spec x (l : list ptr) :
  NoDup l -> In x l ->
  NoDup (remove Pos.eq_dec x l) /\
  S (length (remove Pos.eq_dec x l)) = length l /\
  (forall z, In z (remove Pos.eq_dec x l) <-> In z l /\ z <> x).
Proof.
  intros ND Hx. split; [|split].
  - clear Hx. induction ND as [|y l Hy ND IH]; cbn [remove]; [constructor|].
    destruct (Pos.eq_dec x y); [assumption|]. constructor; [|assumption].
    intro K. apply in_remove in K. tauto.
  - induction ND as [|y l Hy ND IH]; [contradiction|]. cbn [remove].
    destruct (Pos.eq_dec x y) as [<-|Hne].
    + rewrite notin_remove by assumption. reflexivity.
    + cbn [length]. f_equal. apply IH. destruct Hx; congruence.
  - intro z. split.
    + intro K. apply in_remove in K. exact K.
    + intros [K1 K2]. apply in_in_remove; assumption.
Qed.

Lemma heap_ok_remove s members x :
  heap_ok less_than s members -> In x members ->
  exists s', heap_remove less_than s x = Some s' /\
             heap_ok less_than s' (remove Pos.eq_dec x members).
Proof.
  intros (a & n & H & O & M & ND & Len) Hx.
  pose proof (rep_range _ _ _ H) as Hr.
  destruct (proj2 (M x) Hx) as [i Hi].
  destruct (remove_spec x members ND Hx) as (ND' & Len' & M').
  destruct (remove_arr_spec _ swo a n i x (rep_dom _ _ _ H) ltac:(lia)
              (rep_inj _ _ _ H) O Hi) as (O' & _ & Ma).
  assert (exists s', heap_remove less_than s x = Some s' /\
                     heap_rep s' (remove_arr less_than a n i) (n - 1)) as (s' & E & H').
  { destruct (Z.eq_dec i n) as [->|Hin].
    - destruct (heap_remove_last less_than s a n x H Hi) as [E H'].
      eexists. split; [exact E|]. unfold remove_arr. rewrite Z.eqb_refl. exact H'.
    - destruct (heap_remove_inner less_than s a n i x H Hi Hin)
        as (c & s2 & s3 & s' & _ & _ & _ & _ & _ & E & H').
      exists s'. auto. }
  exists s'. split; [exact E|].
  exists (remove_arr less_than a n i), (n - 1).
  split; [exact H'|]. split; [exact O'|]. split; [|split].
  - intro z. rewrite Ma, M', M. reflexivity.
  - exact ND'.
  - unfold ptr in *. lia.
Qed.

Lemma mem_of_in x l : mem_of x l = true <-> In x l.
Proof.
  unfold mem_of. rewrite existsb_exists. split.
  - intros (y & Hy & E). apply Pos.eqb_eq in E. subst y. exact Hy.
  - intro H. exists x. split; [assumption|apply Pos.eqb_refl].
Qed.

Lemma heap_ok_run ops :
  forall s members,
    heap_ok less_than s members -> valid_ops members ops = true ->
    exists s', run_ops less_than ops s = Some s' /\
               heap_ok less_than s' (fold_left members_after ops members).
Proof.
  induction ops as [|o ops IH]; intros s members Hok Hv.
  - exists s. split; [reflexivity|exact Hok].
  - cbn [valid_ops] in Hv. apply andb_true_iff in Hv. destruct Hv as [Hv1 Hv2].
    cbn [run_ops fold_left]. destruct o as [x|x]; cbn [valid_op run_op members_after] in *.
    + apply andb_true_iff in Hv1. destruct Hv1 as [Hm Hn].
      apply negb_true_iff in Hm. apply Z.ltb_lt in Hn.
      destruct (heap_ok_insert s members x Hok) as (s' & E & Hok'); [|assumption|].
      { intro K. apply mem_of_in in K. congruence. }
      rewrite E. cbn [bind]. apply IH; assumption.
    + destruct (mem_of x members) eqn:Hm.
      * apply mem_of_in in Hm.
        destruct (heap_ok_remove s members x Hok Hm) as (s' & E & Hok').
        rewrite E. cbn [bind]. apply IH; assumption.
      * destruct members as [|y members]; [|discriminate].
        destruct Hok as (a & n & H & O & M & ND & Len).
        rewrite (heap_remove_empty less_than s x)
          by (rewrite (rep_nelts _ _ _ H); cbn [length] in Len; lia).
        cbn [bind]. apply IH; [|assumption].
        exists a, n. auto.
Qed.

End HeapInvariant.

(** * The heap: main results *)

(** The two-node heap is laid out as its array says. *)
Lemma two_nodes_rep : heap_rep two_nodes two_nodes_arr 2.
Proof.
  split.
  - lia.
  - intro i. unfold two_nodes_arr. split_eqb; split; intros; try congruence; lia.
  - intros i j x. unfold two_nodes_arr. split_eqb; intros; try congruence; lia.
  - reflexivity.
  - reflexivity.
  - intros i x. unfold two_nodes_arr.
    destruct (Z.eqb_spec i 1) as [->|]; [intro E; inversion E; reflexivity|].
    destruct (Z.eqb_spec i 2) as [->|]; [intro E; inversion E; reflexivity|].
    discriminate.
Qed.

Lemma pos_ltb_swo : strict_weak_order Pos.ltb.
Proof.
  split.
  - intro x. apply Pos.ltb_irrefl.
  - intros x y z H1 H2. apply Pos.ltb_lt in H1, H2. apply Pos.ltb_lt. lia.
  - intros x y z H1 H2. apply Pos.ltb_ge in H1, H2. apply Pos.ltb_ge. lia.
Qed.





(** C4. [heap_remove] on an empty heap changes nothing.  On a well-formed
    heap of [n >= 1] nodes the path derived from [nelts] leads to the last
    position [n]; if the node to remove is the one there, the call only
    unlinks it and decrements [nelts] ([min] becoming absent when the heap
    empties); otherwise the last node is unlinked, [nelts] is decremented,
    the last node is spliced into the removed node's position, and the
    result is the sift-down followed by the sift-up of that node. *)
Theorem heap_remove_spec (less_than : ptr -> ptr -> bool) :
  (forall s x, nelts (hp s) = 0 -> heap_remove less_than s x = Some s) /\
  (forall s a n, heap_rep s a n -> 1 <= n ->
     exists path k,
       path_loop 32 0 0 (nelts (hp s)) = Some (path, k) /\
       bits_of k path = rev (low_bits (Z.to_pos (nelts (hp s)))) /\
       remove_walk s k path AtMin = Some (slot a n) /\
       load s (slot a n) = a n /\ a (n + 1) = None) /\
  (forall s a n x,
     heap_rep s a n -> a n = Some x ->
     exists s',
       heap_remove less_than s x = Some s' /\
       s' = store (set_nelts s (n - 1)) (slot a n) None /\
       heap_rep s' (place a n None) (n - 1) /\
       nelts (hp s') = nelts (hp s) - 1 /\
       (n = 1 -> min (hp s') = None)) /\
  (forall s a n i x,
     heap_rep s a n -> a i = Some x -> i <> n ->
     exists c s2 s3 s',
       a n = Some c /\
       s2 = splice (store (set_nelts s (n - 1)) (slot a n) None) x c /\
       heap_rep s2 (place (place a n None) i (Some c)) (n - 1) /\
       sift_down less_than depth_fuel s2 c = Some s3 /\
       sift_up less_than depth_fuel s3 c = Some s' /\
       heap_remove less_than s x = Some s' /\
       heap_rep s' (remove_arr less_than a n i) (n - 1) /\
       nelts (hp s') = nelts (hp s) - 1).
Proof.
  split; [|split; [|split]].
  - apply heap_remove_empty.
  - intros s a n H Hn. pose proof (rep_range _ _ _ H) as Hr.
    rewrite (rep_nelts _ _ _ H).
    destruct (path_loop_top n ltac:(lia)) as (path & k & E & B).
    exists path, k. split; [exact E|]. split; [exact B|]. split; [|split].
    + rewrite remove_walk_follow, B. change AtMin with (slot a 1).
      rewrite (follow_rep _ _ _ H) by (rewrite ?idx_of_path, ?Z2Pos.id; lia).
      rewrite idx_of_path, Z2Pos.id by lia. reflexivity.
    + apply (load_slot _ _ _ _ H). lia.
    + apply (rep_none _ _ _ _ H). lia.
  - intros s a n x H Hx.
    destruct (heap_remove_last less_than s a n x H Hx) as [E H'].
    eexists. split; [exact E|]. split; [reflexivity|]. split; [exact H'|]. split.
    + rewrite (rep_nelts _ _ _ H'), (rep_nelts _ _ _ H). reflexivity.
    + intros ->. rewrite (rep_min _ _ _ H'). reflexivity.
  - intros s a n i x H Hx Hin.
    destruct (heap_remove_inner less_than s a n i x H Hx Hin)
      as (c & s2 & s3 & s' & Hc & E2 & H2 & E3 & E' & E & H').
    exists c, s2, s3, s'. repeat (split; [assumption|]).
    rewrite (rep_nelts _ _ _ H'), (rep_nelts _ _ _ H). reflexivity.
Qed.

(** The two-node heap: removing the last node, and removing the root. *)
Lemma heap_remove_spec_witness :
  (exists s',
     heap_remove Pos.ltb two_nodes 2%positive = Some s' /\
     nelts (hp s') = 1 /\ heap_min s' = Some 1%positive) /\
  (exists s',
     heap_remove Pos.ltb two_nodes 1%positive = Some s' /\
     nelts (hp s') = 1 /\ heap_min s' = Some 2%positive).
Proof.
  destruct (heap_remove_spec Pos.ltb) as (_ & _ & Last & Inner).
  split.
  - destruct (Last two_nodes two_nodes_arr 2 2%positive two_nodes_rep eq_refl)
      as (s' & E & _ & R & N & _).
    exists s'. split; [exact E|]. split; [rewrite N; reflexivity|].
    unfold heap_min. rewrite (rep_min _ _ _ R). reflexivity.
  - destruct (Inner two_nodes two_nodes_arr 2 1 1%positive two_nodes_rep eq_refl)
      as (c & s2 & s3 & s' & _ & _ & _ & _ & _ & E & R & N).
    + discriminate.
    + exists s'. split; [exact E|]. split; [rewrite N; reflexivity|].
      unfold heap_min. rewrite (rep_min _ _ _ R). reflexivity.
Defined.

(** * The timer scheduler *)

(** ** The comparator *)

Lemma timer_less_than_iff tm a b :
  timer_less_than tm a b = true <-> key_lt (timer_key (tm a)) (timer_key (tm b)).
Proof.
  unfold timer_less_than, key_lt, timer_key. cbn [fst snd].
  destruct (Z.ltb_spec (timeout (tm a)) (timeout (tm b)));
    [|destruct (Z.ltb_spec (timeout (tm b)) (timeout (tm a)))];
    rewrite ?Z.ltb_lt; split; intro; try lia; discriminate.
Qed.

Lemma timer_less_than_false tm a b :
  timer_less_than tm a b = false <-> ~ key_lt (timer_key (tm a)) (timer_key (tm b)).
Proof.
  rewrite <- timer_less_than_iff. destruct (timer_less_than tm a b); split; congruence.
Qed.

Lemma timer_lt_swo tm : strict_weak_order (timer_less_than tm).
Proof.
  split.
  - intro x. apply timer_less_than_false. unfold key_lt. lia.
  - intros x y z. rewrite !timer_less_than_iff. unfold key_lt. lia.
  - intros x y z. rewrite !timer_less_than_false. unfold key_lt. lia.
Qed.

Lemma timer_less_than_ext tm tm' x y :
  timer_key (tm x) = timer_key (tm' x) -> timer_key (tm y) = timer_key (tm' y) ->
  timer_less_than tm x y = timer_less_than tm' x y.
Proof.
  unfold timer_key, timer_less_than. intros Ex Ey.
  injection Ex as -> ->. injection Ey as -> ->. reflexivity.
Qed.

(** C5. The comparator returns true exactly when the first timer's
    (timeout, start_id) pair is lexicographically smaller; it is
    irreflexive and transitive, and of two timers with distinct pairs
    exactly one is before the other, the earlier-started one on a tie of
    deadlines. *)
Theorem timer_less_than_spec (tm : ptr -> uv_timer) :
  (forall a b,
     timer_less_than tm a b = true <->
     timeout (tm a) < timeout (tm b) \/
     (timeout (tm a) = timeout (tm b) /\ start_id (tm a) < start_id (tm b))) /\
  (forall a, timer_less_than tm a a = false) /\
  (forall a b c, timer_less_than tm a b = true -> timer_less_than tm b c = true ->
                 timer_less_than tm a c = true) /\
  (forall a b, timer_key (tm a) <> timer_key (tm b) ->
               (timer_less_than tm a b = true /\ timer_less_than tm b a = false) \/
               (timer_less_than tm b a = true /\ timer_less_than tm a b = false)) /\
  (forall a b, timeout (tm a) = timeout (tm b) -> start_id (tm a) < start_id (tm b) ->
               timer_less_than tm a b = true).
Proof.
  split; [|split; [|split; [|split]]].
  - intros a b. apply timer_less_than_iff.
  - apply (swo_irrefl _ (timer_lt_swo tm)).
  - apply (swo_trans _ (timer_lt_swo tm)).
  - intros a b Hk.
    assert (timeout (tm a) <> timeout (tm b) \/ start_id (tm a) <> start_id (tm b)).
    { unfold timer_key in Hk.
      destruct (Z.eq_dec (timeout (tm a)) (timeout (tm b))) as [E|E]; [|auto].
      destruct (Z.eq_dec (start_id (tm a)) (start_id (tm b))) as [E'|E']; [|auto].
      exfalso. apply Hk. congruence. }
    rewrite !timer_less_than_iff, !timer_less_than_false.
    unfold key_lt, timer_key. cbn [fst snd]. lia.
  - intros a b E Hs. apply timer_less_than_iff. unfold key_lt, timer_key.
    cbn [fst snd]. lia.
Qed.

Lemma timer_less_than_spec_witness :
  let tm := fun x : ptr => UvTimer None 10 0 (Zpos x) false false in
  timer_less_than tm 1%positive 2%positive = true /\
  timer_less_than tm 2%positive 1%positive = false.
Proof.
  intro tm.
  destruct (proj1 (proj2 (proj2 (proj2 (timer_less_than_spec tm)))) 1%positive 2%positive)
    as [H|[H1 H2]].
  - discriminate.
  - exact H.
  - discriminate.
Defined.

(** ** Reading a loop after a write *)

Lemma timers_set_timer L h v x :
  timers (set_timer L h v) x = if Pos.eqb x h then v else timers L x.
Proof. reflexivity. Qed.

Ltac timers_rw :=
  unfold uv__handle_start, uv__handle_stop, set_timer_cb, set_timeout, set_repeat,
    set_start_id, set_active, set_closing, set_timer_counter, set_timer_heap, set_time;
  cbn [timers time timer_counter timer_heap];
  unfold set_timer, upd; cbn [timers time timer_counter timer_heap].

Lemma key_set_active L h v x :
  timer_key (timers (set_active L h v) x) = timer_key (timers L x).
Proof. timers_rw. destruct (Pos.eqb_spec x h); subst; reflexivity. Qed.

(** ** Comparators that agree on the members *)

Lemma ordered_ext lt1 lt2 a :
  (forall x y, arr_mem a x -> arr_mem a y -> lt1 x y = lt2 x y) ->
  ordered lt1 a -> ordered lt2 a.
Proof.
  intros E O i. specialize (O i). unfold lto in *.
  destruct (a i) as [x|] eqn:Ex; [|reflexivity].
  destruct (a (i / 2)) as [y|] eqn:Ey; [|reflexivity].
  rewrite <- E; [exact O|exists i; exact Ex|exists (i / 2); exact Ey].
Qed.

Lemma heap_ok_ext lt1 lt2 s members :
  (forall x y, In x members -> In y members -> lt1 x y = lt2 x y) ->
  heap_ok lt1 s members -> heap_ok lt2 s members.
Proof.
  intros E (a & n & H & O & M & ND & Len). exists a, n.
  split; [exact H|]. split; [|auto].
  apply (ordered_ext lt1); [|exact O]. intros x y Hx Hy. apply E; apply M; assumption.
Qed.

Lemma heap_ok_nelts lt1 s members :
  heap_ok lt1 s members -> nelts (hp s) = Z.of_nat (length members).
Proof. intros (a & n & H & _ & _ & _ & Len). rewrite (rep_nelts _ _ _ H). lia. Qed.

(** ** [uv_timer_stop] *)

Lemma uv_timer_stop_inactive L h :
  active (timers L h) = false -> uv_timer_stop L h = Some (L, 0).
Proof. intro E. unfold uv_timer_stop, uv__is_active. rewrite E. reflexivity. Qed.

Lemma uv_timer_stop_active L h members :
  heap_ok (timer_less_than (timers L)) (timer_heap L) members ->
  (forall x, In x members <-> active (timers L x) = true) ->
  active (timers L h) = true ->
  exists m,
    heap_remove (timer_less_than (timers L)) (timer_heap L) h = Some m /\
    uv_timer_stop L h = Some (uv__handle_stop (set_timer_heap L m) h, 0) /\
    heap_ok (timer_less_than (timers (uv__handle_stop (set_timer_heap L m) h))) m
            (remove Pos.eq_dec h members) /\
    (forall x, In x (remove Pos.eq_dec h members) <->
               active (timers (uv__handle_stop (set_timer_heap L m) h) x) = true).
Proof.
  intros Hok Hm Ha.
  destruct (heap_ok_remove _ (timer_lt_swo (timers L)) _ _ h Hok (proj2 (Hm h) Ha))
    as (m & E & Hok').
  exists m. split; [exact E|]. split; [|split].
  - unfold uv_timer_stop, uv__is_active. rewrite Ha. cbn [negb]. rewrite E. reflexivity.
  - apply (heap_ok_ext (timer_less_than (timers L))); [|exact Hok'].
    intros x y _ _. apply timer_less_than_ext; unfold uv__handle_stop;
      rewrite key_set_active; reflexivity.
  - intro x. destruct Hok as (a & n & _ & _ & _ & ND & _).
    rewrite (proj2 (proj2 (remove_spec h members ND (proj2 (Hm h) Ha)))).
    rewrite Hm. timers_rw. destruct (Pos.eqb_spec x h) as [->|Hne]; cbn [active].
    + split; [tauto|discriminate].
    + tauto.
Qed.

(** What [uv_timer_stop] does to an active handle of a consistent loop. *)
Lemma uv_timer_stop_effect L h :
  loop_inv L -> active (timers L h) = true ->
  exists L',
    uv_timer_stop L h = Some (L', 0) /\
    heap_remove (timer_less_than (timers L)) (timer_heap L) h = Some (timer_heap L') /\
    active (timers L' h) = false /\
    ~ reachable (timer_heap L') h /\
    (forall x, reachable (timer_heap L') x <-> reachable (timer_heap L) x /\ x <> h) /\
    nelts (hp (timer_heap L')) = nelts (hp (timer_heap L)) - 1 /\
    (forall x, x <> h -> timers L' x = timers L x) /\
    timers L' h = UvTimer (timer_cb (timers L h)) (timeout (timers L h))
                    (repeat (timers L h)) (start_id (timers L h)) false
                    (closing (timers L h)) /\
    time L' = time L /\ timer_counter L' = timer_counter L /\
    loop_inv L'.
Proof.
  intros (members & Hok & Hm) Ha.
  destruct (uv_timer_stop_active L h members Hok Hm Ha) as (m & E & Es & Hok' & Hm').
  exists (uv__handle_stop (set_timer_heap L m) h).
  pose proof (heap_ok_inv _ (timer_lt_swo _) _ _ Hok) as [_ R].
  pose proof (heap_ok_inv _ (timer_lt_swo _) _ _ Hok') as [_ R'].
  destruct Hok as (a & n & H & O & M & ND & Len).
  pose proof (remove_spec h members ND (proj2 (Hm h) Ha)) as (_ & Len' & M').
  split; [exact Es|]. split; [exact E|]. split; [|split; [|split; [|split]]].
  - timers_rw. rewrite Pos.eqb_refl. reflexivity.
  - cbn [timer_heap uv__handle_stop set_active set_timer set_timer_heap] in *.
    rewrite R', M'. tauto.
  - intro x. cbn [timer_heap uv__handle_stop set_active set_timer set_timer_heap] in *.
    rewrite R', M', R. reflexivity.
  - cbn [timer_heap uv__handle_stop set_active set_timer set_timer_heap] in *.
    rewrite (heap_ok_nelts _ _ _ Hok'), (rep_nelts _ _ _ H). unfold ptr in *. lia.
  - split; [|split; [|split; [|split]]]; try reflexivity.
    + intros x Hx. timers_rw. destruct (Pos.eqb_spec x h); [contradiction|reflexivity].
    + timers_rw. rewrite Pos.eqb_refl. reflexivity.
    + exists (remove Pos.eq_dec h members). split; assumption.
Qed.

(** C9. [uv_timer_stop] on an inactive handle returns 0 and the whole loop,
    heap and handles, unchanged.  On an active handle of a consistent loop
    it returns 0 after [heap_remove] of the handle's node: the node is no
    longer linked, the other linked nodes stay, [nelts] drops by one, the
    handle is inactive and nothing else in any handle changes. *)
Theorem uv_timer_stop_spec L h :
  (active (timers L h) = false -> uv_timer_stop L h = Some (L, 0)) /\
  (loop_inv L -> active (timers L h) = true ->
   exists L',
     uv_timer_stop L h = Some (L', 0) /\
     heap_remove (timer_less_than (timers L)) (timer_heap L) h = Some (timer_heap L') /\
     active (timers L' h) = false /\
     ~ reachable (timer_heap L') h /\
     (forall x, reachable (timer_heap L') x <-> reachable (timer_heap L) x /\ x <> h) /\
     nelts (hp (timer_heap L')) = nelts (hp (timer_heap L)) - 1 /\
     (forall x, x <> h -> timers L' x = timers L x) /\
     timers L' h = UvTimer (timer_cb (timers L h)) (timeout (timers L h))
                     (repeat (timers L h)) (start_id (timers L h)) false
                     (closing (timers L h)) /\
     time L' = time L /\ timer_counter L' = timer_counter L /\
     loop_inv L').
Proof.
  split.
  - apply uv_timer_stop_inactive.
  - apply uv_timer_stop_effect.
Qed.

(** ** [uv__next_timeout] *)

(** C8. [uv__next_timeout] is -1 on an empty heap, 0 when the minimum's
    deadline is at most [loop.time], and otherwise the difference of the
    two clamped to [INT_MAX]; on a non-empty heap it lies in
    [0..INT_MAX]. *)
Theorem uv__next_timeout_spec L :
  (heap_min (timer_heap L) = None -> uv__next_timeout L = -1) /\
  (forall h, heap_min (timer_heap L) = Some h ->
             timeout (timers L h) <= time L -> uv__next_timeout L = 0) /\
  (forall h, heap_min (timer_heap L) = Some h ->
             is_uint64 (time L) -> is_uint64 (timeout (timers L h)) ->
             time L < timeout (timers L h) ->
             uv__next_timeout L = Z.min (timeout (timers L h) - time L) INT_MAX) /\
  (forall h, heap_min (timer_heap L) = Some h ->
             is_uint64 (time L) -> is_uint64 (timeout (timers L h)) ->
             0 <= uv__next_timeout L <= INT_MAX).
Proof.
  unfold uv__next_timeout, is_uint64.
  assert (Hexact : forall h,
    0 <= time L < 2 ^ 64 -> 0 <= timeout (timers L h) < 2 ^ 64 ->
    time L < timeout (timers L h) ->
    to_int (let diff := uint64 (timeout (timers L h) - time L) in
            if INT_MAX <? diff then INT_MAX else diff)
    = Z.min (timeout (timers L h) - time L) INT_MAX).
  { intros h Ht Hd Hlt. cbv zeta. unfold uint64. rewrite Z.mod_small by lia.
    unfold to_int, INT_MAX.
    destruct (Z.ltb_spec (2 ^ 31 - 1) (timeout (timers L h) - time L)).
    - rewrite Z.min_r by lia. rewrite Z.mod_small by lia. lia.
    - rewrite Z.min_l by lia. rewrite Z.mod_small by lia. lia. }
  split; [|split; [|split]].
  - intros ->. reflexivity.
  - intros h -> Hle. apply Z.leb_le in Hle. rewrite Hle. reflexivity.
  - intros h -> Ht Hd Hlt.
    replace (timeout (timers L h) <=? time L) with false
      by (symmetry; apply Z.leb_gt; lia).
    apply Hexact; assumption.
  - intros h -> Ht Hd.
    destruct (Z.leb_spec (timeout (timers L h)) (time L)).
    + unfold INT_MAX. lia.
    + rewrite Hexact by assumption. unfold INT_MAX. lia.
Qed.

Lemma uv__next_timeout_spec_witness :
  uv__next_timeout
    (UvLoop 7 1 (Mem (fun _ => HeapNode None None None) (Heap (Some 1%positive) 1))
       (fun _ => UvTimer (Some 1%positive) 12 0 0 true false)) = 5.
Proof.
  rewrite (proj1 (proj2 (proj2 (uv__next_timeout_spec _))) 1%positive).
  - reflexivity.
  - reflexivity.
  - unfold is_uint64. cbn. lia.
  - unfold is_uint64. cbn. lia.
  - cbn. lia.
Defined.

(** ** Comparators that agree everywhere *)

Lemma sift_up_ext lt1 lt2 :
  (forall x y, lt1 x y = lt2 x y) ->
  forall fuel s x, sift_up lt1 fuel s x = sift_up lt2 fuel s x.
Proof.
  intros E fuel. induction fuel as [|fuel IH]; intros s x; cbn [sift_up];
    destruct (parent (node s x)); try reflexivity; rewrite E;
    destruct (lt2 x p); auto.
Qed.

Lemma heap_insert_ext lt1 lt2 s x :
  (forall x y, lt1 x y = lt2 x y) -> heap_insert lt1 s x = heap_insert lt2 s x.
Proof.
  intro E. unfold heap_insert.
  destruct (path_loop _ _ _ _) as [[path k]|]; [|reflexivity]. cbn [bind].
  destruct (insert_walk _ _ _ _ _) as [[pl cl]|]; [|reflexivity]. cbn [bind].
  apply sift_up_ext, E.
Qed.

(** ** [uv_timer_start] *)

Lemma clamp_exact now delay :
  is_uint64 now -> is_uint64 delay ->
  (if uint64 (now + delay) <? delay then uint64 (-1) else uint64 (now + delay))
  = clamp_deadline now delay /\
  (uint64 (now + delay) < delay <-> 2 ^ 64 <= now + delay).
Proof.
  unfold is_uint64, clamp_deadline, UINT64_MAX, uint64. intros Hn Hd.
  change ((-1) mod 2 ^ 64) with (2 ^ 64 - 1).
  destruct (Z.leb_spec (now + delay) (2 ^ 64 - 1)) as [Hle|Hgt].
  - rewrite Z.mod_small by lia.
    replace (now + delay <? delay) with false by (symmetry; apply Z.ltb_ge; lia).
    split; [reflexivity|lia].
  - assert (E : (now + delay) mod 2 ^ 64 = now + delay - 2 ^ 64).
    { symmetry. apply (Z.mod_unique_pos _ _ 1); lia. }
    rewrite E.
    replace (now + delay - 2 ^ 64 <? delay) with true by (symmetry; apply Z.ltb_lt; lia).
    split; [reflexivity|lia].
Qed.

Lemma uv_timer_start_invalid L h cb t r :
  closing (timers L h) = true \/ cb = None ->
  uv_timer_start L h cb t r = Some (L, UV_EINVAL).
Proof.
  intros [E| ->]; unfold uv_timer_start, uv__is_closing.
  - rewrite E. reflexivity.
  - rewrite orb_true_r. reflexivity.
Qed.

Lemma uv_timer_start_eq L h c t r :
  closing (timers L h) = false ->
  uv_timer_start L h (Some c) t r =
  '(L1, _) <- (if active (timers L h) then uv_timer_stop L h else Some (L, 0)) ;;
  let ct := (let clamped_timeout := uint64 (time L1 + t) in
             if clamped_timeout <? t then uint64 (-1) else clamped_timeout) in
  let L2 := set_timer_counter
              (set_start_id
                 (set_repeat (set_timeout (set_timer_cb L1 h (Some c)) h ct) h r)
                 h (timer_counter L1))
              (uint64 (timer_counter L1 + 1)) in
  m <- heap_insert (timer_less_than (timers L2)) (timer_heap L1) h ;;
  Some (uv__handle_start (set_timer_heap L2 m) h, 0).
Proof.
  intro Hcl. unfold uv_timer_start, uv__is_closing, uv__is_active. rewrite Hcl.
  reflexivity.
Qed.

(** The loop [uv_timer_start] reaches after its implicit stop, and its
    result. *)
Lemma uv_timer_start_ok L h c t r :
  loop_inv L -> closing (timers L h) = false ->
  active (timers L h) = true \/ nelts (hp (timer_heap L)) < UINT_MAX ->
  exists L1 L',
    (if active (timers L h) then uv_timer_stop L h else Some (L, 0)) = Some (L1, 0) /\
    active (timers L1 h) = false /\ ~ reachable (timer_heap L1) h /\
    (forall x, x <> h -> timers L1 x = timers L x) /\
    timer_key (timers L1 h) = timer_key (timers L h) /\
    (forall x, reachable (timer_heap L1) x <-> reachable (timer_heap L) x /\ x <> h) /\
    uv_timer_start L h (Some c) t r = Some (L', 0) /\
    heap_insert (timer_less_than (timers L')) (timer_heap L1) h = Some (timer_heap L') /\
    timers L' h =
      UvTimer (Some c)
        (let clamped_timeout := uint64 (time L + t) in
         if clamped_timeout <? t then uint64 (-1) else clamped_timeout)
        r (timer_counter L) true false /\
    (forall x, x <> h -> timers L' x = timers L x) /\
    time L' = time L /\ timer_counter L' = uint64 (timer_counter L + 1) /\
    (forall x, reachable (timer_heap L') x <-> x = h \/ reachable (timer_heap L) x) /\
    loop_inv L'.
Proof.
  intros Hinv Hcl Hroom.
  assert (Hstage1 : exists L1 members1,
    (if active (timers L h) then uv_timer_stop L h else Some (L, 0)) = Some (L1, 0) /\
    heap_ok (timer_less_than (timers L1)) (timer_heap L1) members1 /\
    (forall x, In x members1 <-> active (timers L1 x) = true) /\
    active (timers L1 h) = false /\
    (forall x, x <> h -> timers L1 x = timers L x) /\
    timer_key (timers L1 h) = timer_key (timers L h) /\
    closing (timers L1 h) = false /\
    time L1 = time L /\ timer_counter L1 = timer_counter L /\
    (forall x, reachable (timer_heap L1) x <-> reachable (timer_heap L) x /\ x <> h) /\
    Z.of_nat (length members1) < UINT_MAX).
  { destruct (active (timers L h)) eqn:Ha.
    - destruct (uv_timer_stop_effect L h Hinv Ha)
        as (L1 & E & _ & Ha1 & _ & R1 & N1 & T1 & Th & Tm & Tc & (members1 & Hok1 & Hm1)).
      exists L1, members1. split; [exact E|]. split; [exact Hok1|]. split; [exact Hm1|].
      split; [exact Ha1|]. split; [exact T1|]. split; [rewrite Th; reflexivity|].
      split; [rewrite Th; exact Hcl|]. split; [exact Tm|]. split; [exact Tc|].
      split; [exact R1|].
      rewrite <- (heap_ok_nelts _ _ _ Hok1), N1.
      destruct Hinv as (members & (a & n & H & _) & _).
      pose proof (rep_range _ _ _ H). rewrite (rep_nelts _ _ _ H). unfold UINT_MAX. lia.
    - destruct Hroom as [?|Hroom]; [discriminate|].
      destruct Hinv as (members & Hok & Hm).
      exists L, members. split; [reflexivity|]. split; [exact Hok|]. split; [exact Hm|].
      split; [exact Ha|]. split; [reflexivity|]. split; [reflexivity|].
      split; [exact Hcl|]. split; [reflexivity|]. split; [reflexivity|]. split.
      + intro x. pose proof (heap_ok_inv _ (timer_lt_swo _) _ _ Hok) as [_ R].
        rewrite R, Hm. split; [|tauto]. intro Hx. split; [exact Hx|]. congruence.
      + rewrite <- (heap_ok_nelts _ _ _ Hok). exact Hroom. }
  destruct Hstage1 as (L1 & members1 & E1 & Hok1 & Hm1 & Ha1 & T1 & K1 & C1 & Tm1 & Tc1
                       & R1 & Len1).
  pose proof (heap_ok_inv _ (timer_lt_swo _) _ _ Hok1) as [_ Rm1].
  assert (Hh : ~ In h members1) by (rewrite Hm1, Ha1; discriminate).
  set (ct := let clamped_timeout := uint64 (time L + t) in
             if clamped_timeout <? t then uint64 (-1) else clamped_timeout).
  set (L2 := set_timer_counter
               (set_start_id
                  (set_repeat (set_timeout (set_timer_cb L1 h (Some c)) h ct) h r)
                  h (timer_counter L1))
               (uint64 (timer_counter L1 + 1))).
  assert (T2 : forall x, timers L2 x =
                 if Pos.eqb x h
                 then UvTimer (Some c) ct r (timer_counter L1) (active (timers L1 h))
                        (closing (timers L1 h))
                 else timers L1 x).
  { intro x. subst L2. timers_rw. rewrite !Pos.eqb_refl.
    destruct (Pos.eqb x h); reflexivity. }
  assert (Hok2 : heap_ok (timer_less_than (timers L2)) (timer_heap L1) members1).
  { apply (heap_ok_ext (timer_less_than (timers L1))); [|exact Hok1].
    intros x y Hx Hy. apply timer_less_than_ext; rewrite T2.
    - destruct (Pos.eqb_spec x h); [subst; contradiction|reflexivity].
    - destruct (Pos.eqb_spec y h); [subst; contradiction|reflexivity]. }
  destruct (heap_ok_insert _ (timer_lt_swo (timers L2)) _ _ h Hok2 Hh Len1)
    as (m & Em & Hokm).
  pose proof (heap_ok_inv _ (timer_lt_swo _) _ _ Hokm) as [_ Rm].
  set (L' := uv__handle_start (set_timer_heap L2 m) h).
  assert (T' : forall x, timers L' x =
                 if Pos.eqb x h
                 then UvTimer (Some c) ct r (timer_counter L) true false
                 else timers L1 x).
  { intro x. subst L'. unfold uv__handle_start, set_active, set_timer_heap.
    cbn [timers]. rewrite timers_set_timer. cbn [timers]. rewrite !T2, Pos.eqb_refl.
    destruct (Pos.eqb x h); [|reflexivity].
    cbn [timer_cb timeout repeat start_id closing]. rewrite C1, Tc1. reflexivity. }
  assert (Elt : forall x y, timer_less_than (timers L') x y = timer_less_than (timers L2) x y).
  { intros x y. apply timer_less_than_ext; rewrite T', T2;
      [destruct (Pos.eqb x h)|destruct (Pos.eqb y h)]; try reflexivity;
      unfold timer_key; cbn [timeout start_id]; rewrite Tc1; reflexivity. }
  exists L1, L'.
  split; [exact E1|]. split; [exact Ha1|]. split; [rewrite Rm1; exact Hh|].
  split; [exact T1|]. split; [exact K1|]. split; [exact R1|]. split.
  { rewrite (uv_timer_start_eq _ _ _ _ _ Hcl), E1. cbn [bind]. cbv zeta.
    rewrite Tm1. fold ct. fold L2. rewrite Em. reflexivity. }
  split.
  { change (timer_heap L') with m. rewrite <- Em. apply heap_insert_ext, Elt. }
  split; [rewrite T', Pos.eqb_refl; reflexivity|].
  split.
  { intros x Hx. rewrite T'. destruct (Pos.eqb_spec x h); [contradiction|]. apply T1, Hx. }
  split; [subst L' L2; cbn; exact Tm1|].
  split; [subst L' L2; cbn; rewrite Tc1; reflexivity|].
  split.
  { intro x. change (timer_heap L') with m. rewrite Rm. cbn [In].
    rewrite <- Rm1, R1. split.
    - intros [<-|[Hx _]]; auto.
    - intros [->|Hx]; [auto|].
      destruct (Pos.eq_dec x h) as [->|Hne]; [left; reflexivity|right; tauto]. }
  exists (h :: members1). split.
  - change (timer_heap L') with m.
    apply (heap_ok_ext (timer_less_than (timers L2))); [|exact Hokm].
    intros x y _ _. symmetry. apply Elt.
  - intro x. rewrite T'. cbn [In]. destruct (Pos.eqb_spec x h) as [->|Hne]; cbn [active].
    + tauto.
    + rewrite Hm1. split; [intros [?|?]; [congruence|assumption]|auto].
Qed.

Lemma loop_inv_empty t c s0 tmr :
  (forall h, active (tmr h) = false) ->
  loop_inv (UvLoop t c (heap_init s0) tmr).
Proof.
  intro Ha. exists []. split; [apply heap_ok_init|].
  intro h. cbn [timers In]. rewrite Ha. split; [contradiction|discriminate].
Qed.

Lemma loop_inv_loop0 t : loop_inv (set_time loop0 t).
Proof. apply (loop_inv_empty t 0 mem0). reflexivity. Qed.

(** Stopping a running timer. *)
Lemma uv_timer_stop_spec_witness :
  exists L1 L',
    uv_timer_start (set_time loop0 5) 1%positive (Some 1%positive) 10 0 = Some (L1, 0) /\
    reachable (timer_heap L1) 1%positive /\
    uv_timer_stop L1 1%positive = Some (L', 0) /\
    active (timers L' 1%positive) = false /\
    ~ reachable (timer_heap L') 1%positive /\
    nelts (hp (timer_heap L')) = nelts (hp (timer_heap L1)) - 1 /\
    uv_timer_stop L' 1%positive = Some (L', 0).
Proof.
  destruct (uv_timer_start_ok (set_time loop0 5) 1%positive 1%positive 10 0
              (loop_inv_loop0 5) eq_refl (or_intror eq_refl))
    as (La & L1 & _ & _ & _ & _ & _ & _ & Es & _ & Th & _ & _ & _ & R & Hinv).
  destruct (uv_timer_stop_spec L1 1%positive) as (_ & Active).
  destruct (Active Hinv) as (L' & E & _ & Ha & Hn & _ & N & _).
  - rewrite Th. reflexivity.
  - exists L1, L'. split; [exact Es|]. split; [apply R; left; reflexivity|].
    split; [exact E|]. split; [exact Ha|]. split; [exact Hn|]. split; [exact N|].
    apply (proj1 (uv_timer_stop_spec L' 1%positive) Ha).
Defined.

(** C6. On a consistent loop, [uv_timer_start] with a callback on a handle
    that is not closing returns 0 and stores as deadline [loop.time +
    timeout] when that fits 64 bits and 2^64-1 when it does not; the test
    [clamped_timeout < timeout] detects exactly the sums that wrap.  With
    [timeout] = 2^64-1 and [loop.time] > 0 the deadline is 2^64-1. *)
Theorem uv_timer_start_clamp L h c t r :
  loop_inv L -> is_uint64 (time L) -> is_uint64 t ->
  closing (timers L h) = false ->
  active (timers L h) = true \/ nelts (hp (timer_heap L)) < UINT_MAX ->
  exists L',
    uv_timer_start L h (Some c) t r = Some (L', 0) /\
    timeout (timers L' h) = clamp_deadline (time L) t /\
    (uint64 (time L + t) < t <-> UINT64_MAX < time L + t) /\
    (UINT64_MAX < time L + t -> timeout (timers L' h) = UINT64_MAX) /\
    (time L + t <= UINT64_MAX -> timeout (timers L' h) = time L + t) /\
    (t = UINT64_MAX -> 0 < time L -> timeout (timers L' h) = UINT64_MAX) /\
    active (timers L' h) = true.
Proof.
  intros Hinv Ht Hd Hcl Hroom.
  destruct (uv_timer_start_ok L h c t r Hinv Hcl Hroom)
    as (L1 & L' & _ & _ & _ & _ & _ & _ & E & _ & Th & _).
  destruct (clamp_exact (time L) t Ht Hd) as [Ec Ew].
  exists L'. split; [exact E|]. rewrite Th. cbn [timeout active]. cbv zeta. rewrite Ec.
  unfold clamp_deadline, UINT64_MAX in *.
  split; [reflexivity|]. split; [rewrite Ew; lia|].
  destruct (Z.leb_spec (time L + t) (2 ^ 64 - 1)); repeat split; intros; try lia.
Qed.

Lemma uv_timer_start_clamp_witness :
  exists L',
    uv_timer_start (set_time loop0 5) 1%positive (Some 1%positive) UINT64_MAX 0
    = Some (L', 0) /\
    timeout (timers L' 1%positive) = UINT64_MAX.
Proof.
  destruct (uv_timer_start_clamp (set_time loop0 5) 1%positive 1%positive UINT64_MAX 0)
    as (L' & E & _ & _ & _ & _ & Hmax & _).
  - apply loop_inv_loop0.
  - unfold is_uint64. cbn [time set_time]. lia.
  - unfold is_uint64, UINT64_MAX. lia.
  - reflexivity.
  - right. cbn. unfold UINT_MAX. lia.
  - exists L'. split; [exact E|]. apply Hmax; [reflexivity|cbn; lia].
Defined.

(** ** [uv_timer_again] *)

Lemma key_uv_timer_stop L h L' r0 :
  uv_timer_stop L h = Some (L', r0) ->
  (forall x, timer_key (timers L' x) = timer_key (timers L x)) /\
  (forall x, timer_cb (timers L' x) = timer_cb (timers L x) /\
             repeat (timers L' x) = repeat (timers L x) /\
             closing (timers L' x) = closing (timers L x)) /\
  time L' = time L /\ timer_counter L' = timer_counter L /\
  active (timers L' h) = false.
Proof.
  unfold uv_timer_stop, uv__is_active. destruct (active (timers L h)) eqn:Ha; cbn [negb].
  - destruct (heap_remove _ _ _) as [m|]; [|discriminate]. cbn [bind].
    intro E. injection E as <- <-. split; [|split; [|split; [|split]]]; try reflexivity.
    + intro x. timers_rw. destruct (Pos.eqb_spec x h); subst; reflexivity.
    + intro x. timers_rw. destruct (Pos.eqb_spec x h); subst; auto.
    + timers_rw. rewrite Pos.eqb_refl. reflexivity.
  - intro E. injection E as <- <-. auto.
Qed.

(** With a callback, a nonzero repeat and no closing flag, [uv_timer_again]
    is [uv_timer_start] with [timeout = repeat]. *)
Lemma uv_timer_again_start L h c :
  timer_cb (timers L h) = Some c -> repeat (timers L h) <> 0 ->
  closing (timers L h) = false ->
  uv_timer_again L h =
  uv_timer_start L h (Some c) (repeat (timers L h)) (repeat (timers L h)).
Proof.
  intros Hc Hr Hcl. unfold uv_timer_again. rewrite Hc.
  replace (repeat (timers L h) =? 0) with false by (symmetry; apply Z.eqb_neq; exact Hr).
  cbn [negb]. rewrite (uv_timer_start_eq L h c _ _ Hcl).
  unfold uv_timer_stop at 1, uv__is_active.
  destruct (active (timers L h)) eqn:Ha; cbn [negb].
  - unfold uv_timer_stop, uv__is_active. rewrite Ha. cbn [negb].
    destruct (heap_remove _ _ _) as [m|]; [|reflexivity]. cbn [bind].
    set (L1 := uv__handle_stop (set_timer_heap L m) h).
    assert (T1 : timers L1 h = UvTimer (Some c) (timeout (timers L h))
                   (repeat (timers L h)) (start_id (timers L h)) false false).
    { subst L1. timers_rw. rewrite Pos.eqb_refl, Hc, Hcl. reflexivity. }
    assert (Hcl1 : closing (timers L1 h) = false) by (rewrite T1; reflexivity).
    rewrite T1. cbn [timer_cb repeat]. rewrite (uv_timer_start_eq L1 h c _ _ Hcl1).
    rewrite T1. cbn [active bind]. cbv zeta.
    destruct (heap_insert _ _ _); reflexivity.
  - cbn [bind]. rewrite Hc. rewrite (uv_timer_start_eq L h c _ _ Hcl), Ha. cbn [bind].
    cbv zeta. destruct (heap_insert _ _ _); reflexivity.
Qed.

Lemma uv_timer_again_no_cb L h :
  timer_cb (timers L h) = None -> uv_timer_again L h = Some (L, UV_EINVAL).
Proof. intro E. unfold uv_timer_again. rewrite E. reflexivity. Qed.

Lemma uv_timer_again_no_repeat L h :
  timer_cb (timers L h) <> None -> repeat (timers L h) = 0 ->
  uv_timer_again L h = Some (L, 0).
Proof.
  intros Hc Hr. unfold uv_timer_again. rewrite Hr.
  destruct (timer_cb (timers L h)); [reflexivity|contradiction].
Qed.

(** On a closing handle [uv_timer_again] is [uv_timer_stop]. *)
Lemma uv_timer_again_closing L h c :
  loop_inv L -> timer_cb (timers L h) = Some c -> repeat (timers L h) <> 0 ->
  closing (timers L h) = true ->
  exists L',
    uv_timer_again L h = Some (L', 0) /\
    uv_timer_stop L h = Some (L', 0) /\
    active (timers L' h) = false /\
    timer_key (timers L' h) = timer_key (timers L h).
Proof.
  intros Hinv Hc Hr Hcl.
  assert (Hs : exists L', uv_timer_stop L h = Some (L', 0)).
  { destruct (active (timers L h)) eqn:Ha.
    - destruct (uv_timer_stop_effect L h Hinv Ha) as (L' & E & _). eauto.
    - exists L. apply uv_timer_stop_inactive, Ha. }
  destruct Hs as (L' & Es).
  destruct (key_uv_timer_stop _ _ _ _ Es) as (K & F & _ & _ & Ha').
  destruct (F h) as (Fc & Fr & Fcl).
  exists L'. split; [|split; [exact Es|split; [exact Ha'|apply K]]].
  unfold uv_timer_again. rewrite Hc.
  replace (repeat (timers L h) =? 0) with false by (symmetry; apply Z.eqb_neq; exact Hr).
  cbn [negb]. rewrite Es. cbn [bind].
  rewrite (uv_timer_start_invalid L' h) by (left; congruence). reflexivity.
Qed.

Lemma uv_timer_again_counterexample :
  exists L L' L2 L2',
    huge_repeat_loop = Some L /\
    timer_cb (timers L 1%positive) = Some 1%positive /\
    repeat (timers L 1%positive) = UINT64_MAX /\
    time L = 10 /\
    uv_timer_again L 1%positive = Some (L', 0) /\
    timeout (timers L' 1%positive) = UINT64_MAX /\
    timeout (timers L' 1%positive) <> time L + repeat (timers L 1%positive) /\
    timeout (timers L' 1%positive) <> uint64 (time L + repeat (timers L 1%positive)) /\
    closing_loop = Some L2 /\
    timer_cb (timers L2 1%positive) = Some 1%positive /\
    repeat (timers L2 1%positive) = 50 /\
    time L2 = 10 /\
    uv_timer_again L2 1%positive = Some (L2', 0) /\
    active (timers L2' 1%positive) = false /\
    timeout (timers L2' 1%positive) = 10 /\
    timeout (timers L2' 1%positive) <> time L2 + repeat (timers L2 1%positive).
Proof.
  destruct huge_repeat_loop as [L|] eqn:EL; [|vm_compute in EL; discriminate].
  destruct (uv_timer_again L 1%positive) as [[L' r']|] eqn:EL';
    [|vm_compute in EL; injection EL as <-; vm_compute in EL'; discriminate].
  destruct closing_loop as [L2|] eqn:EL2; [|vm_compute in EL2; discriminate].
  destruct (uv_timer_again L2 1%positive) as [[L2' r2']|] eqn:EL2';
    [|vm_compute in EL2; injection EL2 as <-; vm_compute in EL2'; discriminate].
  exists L, L', L2, L2'.
  vm_compute in EL. injection EL as <-.
  vm_compute in EL'. injection EL' as <- <-.
  vm_compute in EL2. injection EL2 as <-.
  vm_compute in EL2'. injection EL2' as <- <-.
  repeat split; try reflexivity; vm_compute; discriminate.
Qed.

(** C7, amended.  Without a callback [uv_timer_again] returns [UV_EINVAL]
    and the loop unchanged; with a callback and [repeat] = 0 it returns 0
    and the loop unchanged.  With a callback and [repeat] nonzero on a
    consistent loop it returns 0 and: if the handle is not closing, it is
    [uv_timer_start] with timeout and repeat both [repeat], so the handle
    is active with deadline [loop.time + repeat] saturated at 2^64-1
    (exactly [loop.time + repeat] when that fits 64 bits), counted from the
    current time; if the handle is closing, it is left stopped and is not
    restarted. *)
Theorem uv_timer_again_spec L h :
  (timer_cb (timers L h) = None -> uv_timer_again L h = Some (L, UV_EINVAL)) /\
  (timer_cb (timers L h) <> None -> repeat (timers L h) = 0 ->
   uv_timer_again L h = Some (L, 0)) /\
  (forall c,
     loop_inv L -> is_uint64 (time L) -> is_uint64 (repeat (timers L h)) ->
     timer_cb (timers L h) = Some c -> repeat (timers L h) <> 0 ->
     closing (timers L h) = false ->
     active (timers L h) = true \/ nelts (hp (timer_heap L)) < UINT_MAX ->
     exists L',
       uv_timer_again L h = Some (L', 0) /\
       uv_timer_start L h (Some c) (repeat (timers L h)) (repeat (timers L h))
         = Some (L', 0) /\
       active (timers L' h) = true /\
       timeout (timers L' h) = clamp_deadline (time L) (repeat (timers L h)) /\
       (time L + repeat (timers L h) <= UINT64_MAX ->
        timeout (timers L' h) = time L + repeat (timers L h)) /\
       repeat (timers L' h) = repeat (timers L h) /\
       timer_cb (timers L' h) = Some c /\
       start_id (timers L' h) = timer_counter L /\
       loop_inv L') /\
  (forall c,
     loop_inv L -> timer_cb (timers L h) = Some c -> repeat (timers L h) <> 0 ->
     closing (timers L h) = true ->
     exists L',
       uv_timer_again L h = Some (L', 0) /\
       uv_timer_stop L h = Some (L', 0) /\
       active (timers L' h) = false /\
       timer_key (timers L' h) = timer_key (timers L h)).
Proof.
  split; [|split; [|split]].
  - apply uv_timer_again_no_cb.
  - apply uv_timer_again_no_repeat.
  - intros c Hinv Ht Hrr Hc Hr Hcl Hroom.
    destruct (uv_timer_start_ok L h c (repeat (timers L h)) (repeat (timers L h))
                Hinv Hcl Hroom)
      as (L1 & L' & _ & _ & _ & _ & _ & _ & E & _ & Th & _ & _ & _ & _ & Hinv').
    destruct (clamp_exact (time L) (repeat (timers L h)) Ht Hrr) as [Ec _].
    exists L'. rewrite (uv_timer_again_start L h c Hc Hr Hcl).
    split; [exact E|]. split; [exact E|]. rewrite Th.
    cbn [active timeout repeat timer_cb start_id]. cbv zeta. rewrite Ec.
    repeat split; auto.
    intro Hfit. unfold clamp_deadline.
    apply Z.leb_le in Hfit. rewrite Hfit. reflexivity.
  - intros c. apply uv_timer_again_closing.
Qed.

Lemma uv_timer_again_spec_witness :
  exists L1 L',
    uv_timer_start (set_time loop0 0) 1%positive (Some 1%positive) 0 50 = Some (L1, 0) /\
    uv_timer_again (set_time L1 1000) 1%positive = Some (L', 0) /\
    timeout (timers L' 1%positive) = 1000 + 50.
Proof.
  destruct (uv_timer_start_ok (set_time loop0 0) 1%positive 1%positive 0 50)
    as (L0 & L1 & _ & _ & _ & _ & _ & _ & E1 & _ & Th & _ & _ & _ & _ & Hinv1).
  - apply loop_inv_loop0.
  - reflexivity.
  - right. cbn. unfold UINT_MAX. lia.
  - assert (Hinv1' : loop_inv (set_time L1 1000)).
    { destruct Hinv1 as (members & Hok & Hm). exists members. split; assumption. }
    destruct (proj1 (proj2 (proj2 (uv_timer_again_spec (set_time L1 1000) 1%positive)))
                1%positive Hinv1')
      as (L' & E' & _ & _ & _ & Hd & _).
    + unfold is_uint64. cbn [time set_time]. lia.
    + cbn [timers set_time]. rewrite Th. unfold is_uint64. cbn [repeat]. lia.
    + cbn [timers set_time]. rewrite Th. reflexivity.
    + cbn [timers set_time]. rewrite Th. cbn [repeat]. lia.
    + cbn [timers set_time]. rewrite Th. reflexivity.
    + left. cbn [timers set_time]. rewrite Th. reflexivity.
    + exists L1, L'. split; [exact E1|]. split; [exact E'|].
      cbn [timers set_time time] in Hd. rewrite Th in Hd. cbn [repeat] in Hd.
      apply Hd. unfold UINT64_MAX. lia.
Defined.

(** ** Which handle a call writes *)

Lemma uv_timer_stop_others L h L' r0 :
  uv_timer_stop L h = Some (L', r0) ->
  forall x, x <> h -> timers L' x = timers L x.
Proof.
  unfold uv_timer_stop, uv__is_active. destruct (active (timers L h)); cbn [negb].
  - destruct (heap_remove _ _ _) as [m|]; [|discriminate]. cbn [bind].
    intro E. injection E as <- <-. intros x Hx. timers_rw.
    destruct (Pos.eqb_spec x h); [contradiction|reflexivity].
  - intro E. injection E as <- <-. reflexivity.
Qed.

Lemma uv_timer_start_others L h cb t r L' r0 :
  uv_timer_start L h cb t r = Some (L', r0) ->
  forall x, x <> h -> timers L' x = timers L x.
Proof.
  unfold uv_timer_start.
  destruct (uv__is_closing L h || match cb with None => true | Some _ => false end).
  - intro E. injection E as <- <-. reflexivity.
  - destruct (if uv__is_active L h then uv_timer_stop L h else Some (L, 0))
      as [[L1 r1]|] eqn:E1; [|discriminate]. cbn [bind].
    destruct (heap_insert _ _ _) as [m|]; [|discriminate]. cbn [bind].
    intro E. injection E as <- <-. intros x Hx.
    assert (T1 : timers L1 x = timers L x).
    { destruct (uv__is_active L h).
      - eapply uv_timer_stop_others; eauto.
      - injection E1 as <- <-. reflexivity. }
    rewrite <- T1. timers_rw. destruct (Pos.eqb_spec x h); [contradiction|reflexivity].
Qed.

Lemma uv_timer_again_others L h L' r0 :
  uv_timer_again L h = Some (L', r0) ->
  forall x, x <> h -> timers L' x = timers L x.
Proof.
  unfold uv_timer_again. destruct (timer_cb (timers L h)).
  - destruct (negb (repeat (timers L h) =? 0)).
    + destruct (uv_timer_stop L h) as [[L1 r1]|] eqn:E1; [|discriminate]. cbn [bind].
      destruct (uv_timer_start L1 h _ _ _) as [[L2 r2]|] eqn:E2; [|discriminate].
      cbn [bind]. intro E. injection E as <- <-. intros x Hx.
      rewrite (uv_timer_start_others _ _ _ _ _ _ _ E2 x Hx).
      apply (uv_timer_stop_others _ _ _ _ E1 x Hx).
    + intro E. injection E as <- <-. reflexivity.
  - intro E. injection E as <- <-. reflexivity.
Qed.

Lemma run_timer_op_others L op L' :
  run_timer_op L op = Some L' ->
  forall x, x <> op_handle op -> timers L' x = timers L x.
Proof.
  destruct op as [h cb t r|h|h|h r|h]; cbn [run_timer_op op_handle].
  - destruct (uv_timer_start L h cb t r) as [[L1 r1]|] eqn:E; [|discriminate].
    cbn [bind]. intro K. injection K as <-. eapply uv_timer_start_others; eauto.
  - destruct (uv_timer_stop L h) as [[L1 r1]|] eqn:E; [|discriminate].
    cbn [bind]. intro K. injection K as <-. eapply uv_timer_stop_others; eauto.
  - destruct (uv_timer_again L h) as [[L1 r1]|] eqn:E; [|discriminate].
    cbn [bind]. intro K. injection K as <-. eapply uv_timer_again_others; eauto.
  - intro K. injection K as <-. intros x Hx. unfold uv_timer_set_repeat. timers_rw.
    destruct (Pos.eqb_spec x h); [contradiction|reflexivity].
  - unfold uv__timer_close.
    destruct (uv_timer_stop L h) as [[L1 r1]|] eqn:E; [|discriminate].
    cbn [bind]. intro K. injection K as <-. eapply uv_timer_stop_others; eauto.
Qed.

Lemma run_timer_op_keys L op L' :
  run_timer_op L op = Some L' -> keeps_keys op = true ->
  forall x, timer_key (timers L' x) = timer_key (timers L x).
Proof.
  destruct op as [h cb t r|h|h|h r|h]; cbn [run_timer_op keeps_keys]; try discriminate.
  - destruct (uv_timer_stop L h) as [[L1 r1]|] eqn:E; [|discriminate].
    cbn [bind]. intro K. injection K as <-. intros _.
    apply (key_uv_timer_stop _ _ _ _ E).
  - intro K. injection K as <-. intros _ x. unfold uv_timer_set_repeat. timers_rw.
    destruct (Pos.eqb_spec x h); subst; reflexivity.
  - unfold uv__timer_close.
    destruct (uv_timer_stop L h) as [[L1 r1]|] eqn:E; [|discriminate].
    cbn [bind]. intro K. injection K as <-. intros _.
    apply (key_uv_timer_stop _ _ _ _ E).
Qed.

Lemma uv_timer_set_repeat_fields L h r :
  timer_heap (uv_timer_set_repeat L h r) = timer_heap L /\
  time (uv_timer_set_repeat L h r) = time L /\
  timer_counter (uv_timer_set_repeat L h r) = timer_counter L /\
  (forall x, x <> h -> timers (uv_timer_set_repeat L h r) x = timers L x) /\
  timers (uv_timer_set_repeat L h r) h =
    UvTimer (timer_cb (timers L h)) (timeout (timers L h)) r
      (start_id (timers L h)) (active (timers L h)) (closing (timers L h)).
Proof.
  unfold uv_timer_set_repeat. repeat split.
  - intros x Hx. timers_rw. destruct (Pos.eqb_spec x h); [contradiction|reflexivity].
  - timers_rw. rewrite Pos.eqb_refl. reflexivity.
Qed.

(** ** The calls that leave every key alone *)

Lemma uv_timer_stop_rc L h L' r0 : uv_timer_stop L h = Some (L', r0) -> r0 = 0.
Proof.
  unfold uv_timer_stop. destruct (negb (uv__is_active L h)).
  - intro E. injection E as _ <-. reflexivity.
  - destruct (heap_remove _ _ _); [|discriminate]. cbn [bind].
    intro E. injection E as _ <-. reflexivity.
Qed.

(** [uv_timer_again] on a closing handle is [uv_timer_stop]: the start it
    attempts is refused. *)
Lemma uv_timer_again_closing_stop L h c L' rc :
  timer_cb (timers L h) = Some c -> repeat (timers L h) <> 0 ->
  closing (timers L h) = true ->
  uv_timer_again L h = Some (L', rc) ->
  uv_timer_stop L h = Some (L', 0) /\ rc = 0.
Proof.
  intros Hc Hr Hcl. unfold uv_timer_again. rewrite Hc.
  replace (repeat (timers L h) =? 0) with false by (symmetry; apply Z.eqb_neq; exact Hr).
  cbn [negb].
  destruct (uv_timer_stop L h) as [[L1 r1]|] eqn:Es; [|discriminate]. cbn [bind].
  pose proof (uv_timer_stop_rc _ _ _ _ Es). subst r1.
  destruct (key_uv_timer_stop L h L1 0 Es) as (_ & F & _).
  destruct (F h) as (_ & _ & C).
  rewrite uv_timer_start_invalid by (left; rewrite C; exact Hcl).
  cbn [bind]. intro E. injection E as <- <-. auto.
Qed.

Lemma run_timer_op_same L op L' :
  run_timer_op L op = Some L' -> rekeys L op = false ->
  forall x, timer_key (timers L' x) = timer_key (timers L x).
Proof.
  destruct op as [h cb t r|h|h|h r|h]; cbn [rekeys];
    try (intros E _; apply (run_timer_op_keys _ _ _ E); reflexivity).
  - intros E Hk. cbn [run_timer_op] in E.
    rewrite uv_timer_start_invalid in E.
    + cbn [bind] in E. injection E as <-. reflexivity.
    + destruct (closing (timers L h)); [left; reflexivity|].
      destruct cb; [discriminate Hk|right; reflexivity].
  - intros E Hk. cbn [run_timer_op] in E.
    destruct (timer_cb (timers L h)) as [c|] eqn:Hc.
    + destruct (Z.eqb_spec (repeat (timers L h)) 0) as [Hr|Hr].
      * rewrite uv_timer_again_no_repeat in E by congruence.
        cbn [bind] in E. injection E as <-. reflexivity.
      * destruct (closing (timers L h)) eqn:Hcl; [|discriminate Hk].
        destruct (uv_timer_again L h) as [[L1 rc]|] eqn:Ea; [|discriminate E].
        cbn [bind] in E. injection E as <-.
        destruct (uv_timer_again_closing_stop L h c L1 rc Hc Hr Hcl Ea) as [Es _].
        apply (key_uv_timer_stop _ _ _ _ Es).
    + rewrite uv_timer_again_no_cb in E by exact Hc.
      cbn [bind] in E. injection E as <-. reflexivity.
Qed.

Lemma key_eq_dec (k1 k2 : Z * Z) : {k1 = k2} + {k1 <> k2}.
Proof. decide equality; apply Z.eq_dec. Qed.

Lemma run_timer_op_rekeyed L op L' x :
  run_timer_op L op = Some L' ->
  timer_key (timers L' x) <> timer_key (timers L x) ->
  x = op_handle op /\ rekeys L op = true.
Proof.
  intros E Hne. split.
  - destruct (Pos.eq_dec x (op_handle op)) as [Hx|Hx]; [exact Hx|].
    exfalso. apply Hne. rewrite (run_timer_op_others _ _ _ E x Hx). reflexivity.
  - destruct (rekeys L op) eqn:Hk; [reflexivity|].
    exfalso. apply Hne. apply (run_timer_op_same _ _ _ E Hk).
Qed.

Lemma run_timer_ops_app L ops1 ops2 :
  run_timer_ops L (ops1 ++ ops2) =
  (L1 <- run_timer_ops L ops1 ;; run_timer_ops L1 ops2).
Proof.
  revert L. induction ops1 as [|op ops1 IH]; intro L; cbn [app run_timer_ops].
  - reflexivity.
  - destruct (run_timer_op L op) as [L1|]; cbn [bind]; [apply IH|reflexivity].
Qed.

Lemma run_timer_ops_rekeyed ops :
  forall L L' x,
    run_timer_ops L ops = Some L' ->
    timer_key (timers L' x) <> timer_key (timers L x) ->
    exists ops1 op ops2 Lmid,
      ops = ops1 ++ op :: ops2 /\
      run_timer_ops L ops1 = Some Lmid /\
      op_handle op = x /\ rekeys Lmid op = true.
Proof.
  induction ops as [|op ops IH]; intros L L' x E Hne.
  - cbn [run_timer_ops] in E. injection E as <-. contradiction.
  - cbn [run_timer_ops] in E.
    destruct (run_timer_op L op) as [L1|] eqn:E1; [|discriminate E]. cbn [bind] in E.
    destruct (key_eq_dec (timer_key (timers L1 x)) (timer_key (timers L x))) as [Hk|Hk].
    + rewrite <- Hk in Hne.
      destruct (IH L1 L' x E Hne) as (ops1 & op' & ops2 & Lmid & -> & Em & Hh & Hr).
      exists (op :: ops1), op', ops2, Lmid. split; [reflexivity|].
      split; [cbn [run_timer_ops]; rewrite E1; exact Em|]. auto.
    + destruct (run_timer_op_rekeyed L op L1 x E1 Hk) as [-> Hr].
      exists [], op, ops, L. auto.
Qed.

(** A call that assigns the handle's fields does so on a loop where the
    handle's node is not linked. *)
Lemma rekeys_unlinked L op :
  loop_inv L -> rekeys L op = true ->
  active (timers L (op_handle op)) = true \/ nelts (hp (timer_heap L)) < UINT_MAX ->
  exists c t r L1 L',
    run_timer_op L op = Some L' /\
    uv_timer_start L (op_handle op) (Some c) t r = Some (L', 0) /\
    (if active (timers L (op_handle op)) then uv_timer_stop L (op_handle op)
     else Some (L, 0)) = Some (L1, 0) /\
    ~ reachable (timer_heap L1) (op_handle op) /\
    (forall x, timer_key (timers L1 x) = timer_key (timers L x)) /\
    heap_insert (timer_less_than (timers L')) (timer_heap L1) (op_handle op)
      = Some (timer_heap L') /\
    timers L' (op_handle op) =
      UvTimer (Some c)
        (let clamped_timeout := uint64 (time L + t) in
         if clamped_timeout <? t then uint64 (-1) else clamped_timeout)
        r (timer_counter L) true false /\
    (forall x, x <> op_handle op -> timers L' x = timers L x) /\
    reachable (timer_heap L') (op_handle op) /\
    loop_inv L'.
Proof.
  intros Hinv Hk Hroom.
  assert (Hstart : forall h c t r,
            closing (timers L h) = false ->
            active (timers L h) = true \/ nelts (hp (timer_heap L)) < UINT_MAX ->
            exists L1 L',
              uv_timer_start L h (Some c) t r = Some (L', 0) /\
              (if active (timers L h) then uv_timer_stop L h else Some (L, 0))
                = Some (L1, 0) /\
              ~ reachable (timer_heap L1) h /\
              (forall x, timer_key (timers L1 x) = timer_key (timers L x)) /\
              heap_insert (timer_less_than (timers L')) (timer_heap L1) h
                = Some (timer_heap L') /\
              timers L' h =
                UvTimer (Some c)
                  (let clamped_timeout := uint64 (time L + t) in
                   if clamped_timeout <? t then uint64 (-1) else clamped_timeout)
                  r (timer_counter L) true false /\
              (forall x, x <> h -> timers L' x = timers L x) /\
              reachable (timer_heap L') h /\
              loop_inv L').
  { intros h c t r Hcl Hrm.
    destruct (uv_timer_start_ok L h c t r Hinv Hcl Hrm)
      as (L1 & L' & E1 & _ & Hn1 & T1 & K1 & _ & E & Ei & Th & T' & _ & _ & R' & Hinv').
    exists L1, L'. split; [exact E|]. split; [exact E1|]. split; [exact Hn1|].
    split.
    { intro x. destruct (Pos.eq_dec x h) as [->|Hne]; [exact K1|].
      rewrite T1 by assumption. reflexivity. }
    split; [exact Ei|]. split; [exact Th|]. split; [exact T'|].
    split; [apply R'; left; reflexivity|exact Hinv']. }
  destruct op as [h cb t r|h|h|h r|h]; cbn [rekeys op_handle] in Hk, Hroom |- *;
    try discriminate Hk.
  - destruct (closing (timers L h)) eqn:Hcl; [discriminate Hk|].
    destruct cb as [c|]; [|discriminate Hk].
    destruct (Hstart h c t r Hcl Hroom) as (L1 & L' & E & Rest).
    exists c, t, r, L1, L'. split; [|split; [exact E|exact Rest]].
    cbn [run_timer_op]. rewrite E. reflexivity.
  - destruct (timer_cb (timers L h)) as [c|] eqn:Hc; [|discriminate Hk].
    destruct (Z.eqb_spec (repeat (timers L h)) 0) as [Hr|Hr]; [discriminate Hk|].
    destruct (closing (timers L h)) eqn:Hcl; [discriminate Hk|].
    destruct (Hstart h c (repeat (timers L h)) (repeat (timers L h)) Hcl Hroom)
      as (L1 & L' & E & Rest).
    exists c, (repeat (timers L h)), (repeat (timers L h)), L1, L'.
    split; [|split; [exact E|exact Rest]].
    cbn [run_timer_op]. rewrite (uv_timer_again_start L h c Hc Hr Hcl), E. reflexivity.
Qed.

(** C10. No call of the timer API writes any field of a handle other than
    the one it is applied to; [uv_timer_stop], [uv_timer_set_repeat] and
    [uv__timer_close] leave every handle's (timeout, start_id) untouched,
    [uv_timer_set_repeat] changing only [repeat]; and on a consistent loop
    [uv_timer_start] (and [uv_timer_again], which then is a
    [uv_timer_start]) first reaches, by [uv_timer_stop] if the handle is
    active, a loop where the handle's node is not linked and all keys are
    as before, and only then assigns the handle's fields, with a start_id
    taken from the counter it increments, and inserts the node under the
    new key.  The calls that do not take that path write no key at all,
    the handle's own included: a [uv_timer_start] that is refused
    (closing handle or NULL callback) and a [uv_timer_again] without a
    callback or with repeat 0 return the loop as it was, and a
    [uv_timer_again] on a closing handle is a [uv_timer_stop].  So a key
    that differs after a call belongs to the handle of an accepted start or
    of a restarting again, which was unlinked before it was written; and a
    key that differs after a sequence of calls was written by such a call
    of the sequence on that handle. *)
Theorem timer_key_stable :
  (forall L op L',
     run_timer_op L op = Some L' ->
     forall x, x <> op_handle op -> timers L' x = timers L x) /\
  (forall L op L',
     run_timer_op L op = Some L' -> keeps_keys op = true ->
     forall x, timer_key (timers L' x) = timer_key (timers L x)) /\
  (forall L h r,
     timer_heap (uv_timer_set_repeat L h r) = timer_heap L /\
     timers (uv_timer_set_repeat L h r) h =
       UvTimer (timer_cb (timers L h)) (timeout (timers L h)) r
         (start_id (timers L h)) (active (timers L h)) (closing (timers L h))) /\
  (forall L h c t r,
     loop_inv L -> closing (timers L h) = false ->
     active (timers L h) = true \/ nelts (hp (timer_heap L)) < UINT_MAX ->
     exists L1 L',
       (if active (timers L h) then uv_timer_stop L h else Some (L, 0)) = Some (L1, 0) /\
       ~ reachable (timer_heap L1) h /\
       (forall x, timer_key (timers L1 x) = timer_key (timers L x)) /\
       (forall x, reachable (timer_heap L1) x <-> reachable (timer_heap L) x /\ x <> h) /\
       uv_timer_start L h (Some c) t r = Some (L', 0) /\
       heap_insert (timer_less_than (timers L')) (timer_heap L1) h
         = Some (timer_heap L') /\
       start_id (timers L' h) = timer_counter L /\
       timer_counter L' = uint64 (timer_counter L + 1) /\
       (forall x, reachable (timer_heap L) x -> x <> h ->
                  reachable (timer_heap L') x /\
                  timer_key (timers L' x) = timer_key (timers L x)) /\
       loop_inv L') /\
  (forall L h c,
     timer_cb (timers L h) = Some c -> repeat (timers L h) <> 0 ->
     closing (timers L h) = false ->
     uv_timer_again L h =
     uv_timer_start L h (Some c) (repeat (timers L h)) (repeat (timers L h))) /\
  (forall L op L',
     run_timer_op L op = Some L' -> rekeys L op = false ->
     forall x, timer_key (timers L' x) = timer_key (timers L x)) /\
  (forall L h cb t r,
     closing (timers L h) = true \/ cb = None ->
     uv_timer_start L h cb t r = Some (L, UV_EINVAL)) /\
  (forall L h,
     timer_cb (timers L h) = None -> uv_timer_again L h = Some (L, UV_EINVAL)) /\
  (forall L h,
     timer_cb (timers L h) <> None -> repeat (timers L h) = 0 ->
     uv_timer_again L h = Some (L, 0)) /\
  (forall L h c L' rc,
     timer_cb (timers L h) = Some c -> repeat (timers L h) <> 0 ->
     closing (timers L h) = true ->
     uv_timer_again L h = Some (L', rc) ->
     uv_timer_stop L h = Some (L', 0) /\ rc = 0) /\
  (forall L op L' x,
     run_timer_op L op = Some L' ->
     timer_key (timers L' x) <> timer_key (timers L x) ->
     x = op_handle op /\ rekeys L op = true) /\
  (forall L op,
     loop_inv L -> rekeys L op = true ->
     active (timers L (op_handle op)) = true \/ nelts (hp (timer_heap L)) < UINT_MAX ->
     exists c t r L1 L',
       run_timer_op L op = Some L' /\
       uv_timer_start L (op_handle op) (Some c) t r = Some (L', 0) /\
       (if active (timers L (op_handle op)) then uv_timer_stop L (op_handle op)
        else Some (L, 0)) = Some (L1, 0) /\
       ~ reachable (timer_heap L1) (op_handle op) /\
       (forall x, timer_key (timers L1 x) = timer_key (timers L x)) /\
       heap_insert (timer_less_than (timers L')) (timer_heap L1) (op_handle op)
         = Some (timer_heap L') /\
       timers L' (op_handle op) =
         UvTimer (Some c)
           (let clamped_timeout := uint64 (time L + t) in
            if clamped_timeout <? t then uint64 (-1) else clamped_timeout)
           r (timer_counter L) true false /\
       (forall x, x <> op_handle op -> timers L' x = timers L x) /\
       reachable (timer_heap L') (op_handle op) /\
       loop_inv L') /\
  (forall ops L L' x,
     run_timer_ops L ops = Some L' ->
     timer_key (timers L' x) <> timer_key (timers L x) ->
     exists ops1 op ops2 Lmid,
       ops = ops1 ++ op :: ops2 /\
       run_timer_ops L ops1 = Some Lmid /\
       op_handle op = x /\ rekeys Lmid op = true).
Proof.
  split; [exact run_timer_op_others|]. split; [exact run_timer_op_keys|].
  split; [|split; [|split; [exact uv_timer_again_start|]]].
  - intros L h r. pose proof (uv_timer_set_repeat_fields L h r). tauto.
  - intros L h c t r Hinv Hcl Hroom.
    destruct (uv_timer_start_ok L h c t r Hinv Hcl Hroom)
      as (L1 & L' & E1 & Ha1 & Hn1 & T1 & K1 & R1 & E & Ei & Th & T' & _ & Tc & R' & Hinv').
    exists L1, L'. split; [exact E1|]. split; [exact Hn1|]. split.
    { intro x. destruct (Pos.eq_dec x h) as [->|Hne]; [exact K1|].
      rewrite T1 by assumption. reflexivity. }
    split; [exact R1|]. split; [exact E|]. split; [exact Ei|].
    split; [rewrite Th; reflexivity|]. split; [exact Tc|]. split; [|exact Hinv'].
    intros x Hx Hne. split; [apply R'; right; exact Hx|].
    rewrite T' by assumption. reflexivity.
  - split; [exact run_timer_op_same|].
    split; [exact uv_timer_start_invalid|].
    split; [exact uv_timer_again_no_cb|].
    split; [exact uv_timer_again_no_repeat|].
    split; [exact uv_timer_again_closing_stop|].
    split; [exact run_timer_op_rekeyed|].
    split; [exact rekeys_unlinked|].
    intros ops. apply run_timer_ops_rekeyed.
Qed.

(** A running timer, enqueued with key (15, 0): a refused start and an
    again with repeat 0 leave its key alone, and after a start that moves
    it and three more calls the only call that wrote its key is that
    start. *)
Lemma timer_key_stable_witness :
  exists L1,
    uv_timer_start (set_time loop0 5) 1%positive (Some 1%positive) 10 0 = Some (L1, 0) /\
    reachable (timer_heap L1) 1%positive /\
    timer_key (timers L1 1%positive) = (15, 0) /\
    (forall L', run_timer_op L1 (OpStart 1%positive None 99 0) = Some L' ->
                timer_key (timers L' 1%positive) = (15, 0)) /\
    (forall L', run_timer_op L1 (OpAgain 1%positive) = Some L' ->
                timer_key (timers L' 1%positive) = (15, 0)) /\
    (forall L', run_timer_op L1 (OpSetRepeat 1%positive 7) = Some L' ->
                timer_key (timers L' 1%positive) = (15, 0)) /\
    exists c t r L0 L',
      run_timer_op L1 (OpStart 1%positive (Some 1%positive) 20 0) = Some L' /\
      uv_timer_start L1 1%positive (Some c) t r = Some (L', 0) /\
      uv_timer_stop L1 1%positive = Some (L0, 0) /\
      ~ reachable (timer_heap L0) 1%positive /\
      timer_key (timers L0 1%positive) = (15, 0) /\
      timer_key (timers L' 1%positive) = (25, 1).
Proof.
  destruct (uv_timer_start_ok (set_time loop0 5) 1%positive 1%positive 10 0
              (loop_inv_loop0 5) eq_refl (or_intror eq_refl))
    as (La & L1 & _ & _ & _ & _ & _ & _ & Es & _ & Th & _ & Tm & Tc & R & Hinv).
  assert (K : timer_key (timers L1 1%positive) = (15, 0)) by (rewrite Th; reflexivity).
  destruct timer_key_stable
    as (_ & _ & _ & _ & _ & Same & _ & _ & _ & _ & _ & Unl & _).
  exists L1. split; [exact Es|]. split; [apply R; left; reflexivity|].
  split; [exact K|]. split; [|split; [|split]].
  - intros L' E. rewrite (Same _ _ _ E); [exact K|].
    cbn [rekeys]. apply andb_false_r.
  - intros L' E. rewrite (Same _ _ _ E); [exact K|].
    cbn [rekeys]. rewrite Th. reflexivity.
  - intros L' E. rewrite (Same _ _ _ E); [exact K|]. reflexivity.
  - destruct (Unl L1 (OpStart 1%positive (Some 1%positive) 20 0) Hinv)
      as (c & t & r & L0 & L' & E & Es' & E0 & Hn & K0 & _ & Th' & _).
    + cbn [rekeys]. rewrite Th. reflexivity.
    + left. cbn [op_handle]. rewrite Th. reflexivity.
    + cbn [op_handle] in *. rewrite Th in E0. cbn [active] in E0.
      exists c, t, r, L0, L'. split; [exact E|]. split; [exact Es'|].
      split; [exact E0|]. split; [exact Hn|]. split; [rewrite K0; exact K|].
      pose proof E as E'. cbn [run_timer_op] in E'.
      destruct (uv_timer_start_ok L1 1%positive 1%positive 20 0 Hinv)
        as (_ & L3 & _ & _ & _ & _ & _ & _ & E3 & _ & Th3 & _).
      * rewrite Th. reflexivity.
      * left. rewrite Th. reflexivity.
      * unfold cb_id, ptr in E', E3. rewrite E3 in E'. cbn [bind] in E'.
        injection E' as <-.
        rewrite Th3, Tm, Tc. reflexivity.
Defined.

(** ** [uv__run_timers] *)

Lemma loop_inv_min L h :
  loop_inv L -> heap_min (timer_heap L) = Some h ->
  active (timers L h) = true /\
  (forall x, active (timers L x) = true ->
             before_or_equiv (timer_less_than (timers L)) h x).
Proof.
  intros (members & Hok & Hm) Hmin.
  destruct (heap_ok_inv _ (timer_lt_swo _) _ _ Hok) as [Hinv R].
  split.
  - apply Hm, R. apply reach_min. exact Hmin.
  - intros x Hx. apply Hm, R in Hx.
    destruct (inv_min _ _ Hinv x Hx) as (m & Em & Hle).
    rewrite Hmin in Em. injection Em as <-. exact Hle.
Qed.

Lemma loop_inv_nelts L : loop_inv L -> 0 <= nelts (hp (timer_heap L)) < 2 ^ 32.
Proof.
  intros (members & (a & n & H & _) & _). rewrite (rep_nelts _ _ _ H).
  apply (rep_range _ _ _ H).
Qed.

(** What [uv_timer_stop] followed by [uv_timer_again] does to a due
    handle. *)
Lemma stop_again L h :
  loop_inv L -> active (timers L h) = true ->
  exists L1 L2 r,
    uv_timer_stop L h = Some (L1, 0) /\
    ~ reachable (timer_heap L1) h /\ active (timers L1 h) = false /\
    loop_inv L1 /\
    uv_timer_again L1 h = Some (L2, r) /\
    (repeat (timers L h) = 0 -> L2 = L1) /\
    (timer_cb (timers L h) = None -> L2 = L1) /\
    (closing (timers L h) = true -> L2 = L1) /\
    (forall c, timer_cb (timers L h) = Some c -> repeat (timers L h) <> 0 ->
               closing (timers L h) = false ->
               uv_timer_start L1 h (Some c) (repeat (timers L h)) (repeat (timers L h))
               = Some (L2, 0) /\
               reachable (timer_heap L2) h /\
               timers L2 h =
                 UvTimer (Some c)
                   (if uint64 (time L + repeat (timers L h)) <? repeat (timers L h)
                    then uint64 (-1) else uint64 (time L + repeat (timers L h)))
                   (repeat (timers L h)) (timer_counter L) true false /\
               timer_counter L2 = uint64 (timer_counter L + 1)) /\
    (forall x, x <> h -> timers L2 x = timers L x) /\
    timer_cb (timers L2 h) = timer_cb (timers L h) /\
    time L2 = time L /\
    (forall x, reachable (timer_heap L1) x <-> reachable (timer_heap L) x /\ x <> h) /\
    loop_inv L2.
Proof.
  intros Hinv Ha.
  destruct (uv_timer_stop_effect L h Hinv Ha)
    as (L1 & Es & _ & Ha1 & Hn1 & R1 & N1 & T1 & Th & Tm & Tc & Hinv1).
  pose proof (loop_inv_nelts L Hinv) as Hn.
  assert (Hcases : (timer_cb (timers L h) = None \/ repeat (timers L h) = 0 \/
                    closing (timers L h) = true) \/
                   (exists c, timer_cb (timers L h) = Some c /\
                              repeat (timers L h) <> 0 /\
                              closing (timers L h) = false)).
  { destruct (timer_cb (timers L h)) as [c|]; [|auto].
    destruct (Z.eq_dec (repeat (timers L h)) 0); [auto|].
    destruct (closing (timers L h)); [auto|]. right. exists c. auto. }
  destruct Hcases as [Hno|(c & Hc & Hr & Hcl)].
  - assert (E : exists r, uv_timer_again L1 h = Some (L1, r)).
    { destruct (timer_cb (timers L h)) as [c|] eqn:Hc.
      - destruct (Z.eq_dec (repeat (timers L h)) 0) as [Hr|Hr].
        + exists 0. apply uv_timer_again_no_repeat; rewrite Th;
            cbn [timer_cb repeat]; [discriminate|exact Hr].
        + destruct Hno as [?|[?|Hcl]]; [discriminate|contradiction|].
          assert (Hc1 : timer_cb (timers L1 h) = Some c) by (rewrite Th; reflexivity).
          assert (Hr1 : repeat (timers L1 h) <> 0) by (rewrite Th; exact Hr).
          assert (Hcl1 : closing (timers L1 h) = true) by (rewrite Th; exact Hcl).
          destruct (uv_timer_again_closing L1 h c Hinv1 Hc1 Hr1 Hcl1)
            as (L2 & E2 & Es2 & _).
          rewrite (uv_timer_stop_inactive _ _ Ha1) in Es2. injection Es2 as <-.
          exists 0. exact E2.
      - exists UV_EINVAL. apply uv_timer_again_no_cb. rewrite Th.
        reflexivity. }
    destruct E as [r E]. exists L1, L1, r.
    split; [exact Es|]. split; [exact Hn1|]. split; [exact Ha1|]. split; [exact Hinv1|].
    split; [exact E|]. split; [reflexivity|]. split; [reflexivity|].
    split; [reflexivity|]. split.
    { intros c Hc Hr Hcl. exfalso. destruct Hno as [?|[?|?]]; congruence. }
    split; [exact T1|]. split; [rewrite Th; reflexivity|]. split; [exact Tm|].
    split; [exact R1|exact Hinv1].
  - assert (Hc1 : timer_cb (timers L1 h) = Some c) by (rewrite Th; exact Hc).
    assert (Hr1 : repeat (timers L1 h) = repeat (timers L h)) by (rewrite Th; reflexivity).
    assert (Hcl1 : closing (timers L1 h) = false) by (rewrite Th; exact Hcl).
    destruct (uv_timer_start_ok L1 h c (repeat (timers L h)) (repeat (timers L h))
                Hinv1 Hcl1)
      as (L1' & L2 & E1' & _ & _ & _ & _ & _ & E2 & _ & Th2 & T2 & Tm2 & Tc2 & R2 & Hinv2).
    { right. unfold UINT_MAX. lia. }
    exists L1, L2, 0.
    split; [exact Es|]. split; [exact Hn1|]. split; [exact Ha1|]. split; [exact Hinv1|].
    split.
    { rewrite (uv_timer_again_start L1 h c Hc1) by (rewrite ?Hr1; assumption).
      rewrite Hr1. exact E2. }
    split; [intro; contradiction|]. split; [intro; congruence|].
    split; [intro; congruence|]. split.
    { intros c' Hc' _ _. assert (c' = c) by congruence. subst c'.
      split; [exact E2|]. split; [apply R2; left; reflexivity|].
      split; [rewrite Th2, Tm, Tc; reflexivity|]. rewrite Tc2, Tc. reflexivity. }
    split; [intros x Hx; rewrite T2, T1 by assumption; reflexivity|].
    split; [rewrite Th2, Hc; reflexivity|]. split; [rewrite Tm2; exact Tm|].
    split; [exact R1|exact Hinv2].
Qed.

Section RunTimersFacts.

Variable U : Type.
Variable callbacks : cb_id -> ptr -> uv_loop * U -> option (uv_loop * U).

Lemma run_timers_exit fuel L u :
  heap_min (timer_heap L) = None \/
  (exists h, heap_min (timer_heap L) = Some h /\ time L < timeout (timers L h)) ->
  uv__run_timers U callbacks fuel (L, u) = Some (L, u).
Proof.
  intros [E|(h & E & Hlt)]; destruct fuel; cbn [uv__run_timers]; rewrite E;
    try reflexivity; apply Z.ltb_lt in Hlt; rewrite Hlt; reflexivity.
Qed.

Lemma run_timers_step fuel L u h :
  heap_min (timer_heap L) = Some h -> timeout (timers L h) <= time L ->
  uv__run_timers U callbacks (S fuel) (L, u) =
  '(L1, _) <- uv_timer_stop L h ;;
  '(L2, _) <- uv_timer_again L1 h ;;
  cb <- timer_cb (timers L2 h) ;;
  w <- callbacks cb h (L2, u) ;;
  uv__run_timers U callbacks fuel w.
Proof.
  intros E Hle. cbn [uv__run_timers]. rewrite E.
  replace (time L <? timeout (timers L h)) with false
    by (symmetry; apply Z.ltb_ge; exact Hle).
  reflexivity.
Qed.

End RunTimersFacts.

(** ** The order of firings in one pass *)

Lemma before_or_equiv_key tm x y :
  before_or_equiv (timer_less_than tm) x y <->
  key_le (timer_key (tm x)) (timer_key (tm y)).
Proof.
  unfold before_or_equiv, key_le.
  rewrite timer_less_than_iff, !timer_less_than_false. unfold key_lt. lia.
Qed.

Lemma loop_inv_members L :
  loop_inv L ->
  exists members,
    NoDup members /\ Z.of_nat (length members) = nelts (hp (timer_heap L)) /\
    (forall h, In h members <-> active (timers L h) = true).
Proof.
  intros (members & Hok & Hm). exists members.
  pose proof (heap_ok_nelts _ _ _ Hok) as Hn.
  destruct Hok as (a & n & H & _ & _ & ND & Len). auto.
Qed.

Lemma loop_inv_empty_heap L :
  loop_inv L -> heap_min (timer_heap L) = None ->
  forall h, active (timers L h) = false.
Proof.
  intros (members & Hok & Hm) Hmin h.
  destruct (heap_ok_inv _ (timer_lt_swo _) _ _ Hok) as [Hinv R].
  destruct (active (timers L h)) eqn:Ha; [|reflexivity].
  apply Hm, R in Ha. destruct (inv_min _ _ Hinv h Ha) as (m & Em & _). congruence.
Qed.

(** One firing by the logging callback, and the loop it leaves. *)
Lemma fire_step L h :
  loop_inv L -> cb_inv L -> restartable L ->
  is_uint64 (time L) -> time L < UINT64_MAX ->
  heap_min (timer_heap L) = Some h -> timeout (timers L h) <= time L ->
  exists L2,
    (forall fuel log,
       uv__run_timers (list ptr) log_cb (S fuel) (L, log) =
       uv__run_timers (list ptr) log_cb fuel (L2, log ++ [h])) /\
    loop_inv L2 /\ cb_inv L2 /\ restartable L2 /\ time L2 = time L /\
    (forall x, x <> h -> timers L2 x = timers L x) /\
    ~ due L2 h /\ due L h /\
    (forall x, due L x -> key_le (timer_key (timers L h)) (timer_key (timers L x))) /\
    fired_state L h (timers L2 h).
Proof.
  intros Hinv Hcb Hre Ht Htmax Hmin Hle.
  destruct (loop_inv_min L h Hinv Hmin) as [Ha Hleast].
  destruct (uv_timer_stop_effect L h Hinv Ha)
    as (L1' & Es' & _ & _ & _ & _ & _ & _ & Th1 & _).
  destruct (stop_again L h Hinv Ha)
    as (L1 & L2 & r & Es & _ & Ha1 & _ & Ea & Hz & _ & _ & Hrs & T2 & Tcb & Tm & _ & Hinv2).
  destruct (timer_cb (timers L h)) as [c|] eqn:Hc; [|exfalso; exact (Hcb h Ha Hc)].
  destruct (Hre h Ha) as [Hrr Hcl].
  assert (Hh2 : (active (timers L2 h) = false) \/
                (timers L2 h = UvTimer (Some c)
                   (clamp_deadline (time L) (repeat (timers L h)))
                   (repeat (timers L h)) (timer_counter L) true false /\
                 repeat (timers L h) <> 0)).
  { destruct (Z.eq_dec (repeat (timers L h)) 0) as [Hr|Hr].
    - left. rewrite (Hz Hr). exact Ha1.
    - right. destruct (Hrs c eq_refl Hr Hcl) as (_ & _ & Th2 & _).
      rewrite Th2. rewrite (proj1 (clamp_exact _ _ Ht Hrr)). auto. }
  assert (Hfs : fired_state L h (timers L2 h)).
  { unfold fired_state. destruct (Z.eqb_spec (repeat (timers L h)) 0) as [Hr|Hr].
    - rewrite (Hz Hr). rewrite Es in Es'. injection Es' as <-.
      rewrite Th1, Hr, Hc. reflexivity.
    - destruct Hh2 as [E|[E _]].
      + destruct (Hrs c eq_refl Hr Hcl) as (_ & _ & Th2 & _).
        rewrite Th2 in E. discriminate.
      + exists (timer_counter L). rewrite Hc. exact E. }
  exists L2. split; [|split; [exact Hinv2|split; [|split; [|split; [exact Tm|split;
    [exact T2|split; [|split; [|split; [|exact Hfs]]]]]]]]].
  - intros fuel log.
    rewrite (run_timers_step (list ptr) log_cb fuel L log h Hmin Hle), Es. cbn [bind].
    rewrite Ea. cbn [bind]. rewrite Tcb. reflexivity.
  - intros x Hx. destruct (Pos.eq_dec x h) as [->|Hne].
    + rewrite Tcb. discriminate.
    + rewrite T2 in * by assumption. apply Hcb, Hx.
  - intros x Hx. destruct (Pos.eq_dec x h) as [->|Hne].
    + destruct Hh2 as [E|[E _]]; [congruence|]. rewrite E. cbn [repeat closing]. auto.
    + rewrite T2 in * by assumption. apply Hre, Hx.
  - intros [Hd1 Hd2]. destruct Hh2 as [E|[E Hr]]; [congruence|].
    rewrite E, Tm in Hd2. cbn [timeout] in Hd2.
    unfold clamp_deadline, is_uint64 in *.
    destruct (Z.leb_spec (time L + repeat (timers L h)) UINT64_MAX); lia.
  - split; assumption.
  - intros x [Hx _]. apply before_or_equiv_key, Hleast, Hx.
Qed.

Lemma sorted_cons_keys (f g : ptr -> Z * Z) h l :
  (forall x, In x l -> key_le (f h) (f x)) ->
  (forall x, In x l -> g x = f x) ->
  StronglySorted key_le (map g l) ->
  StronglySorted key_le (map f (h :: l)).
Proof.
  intros Hh Hg Hs. cbn [map]. constructor.
  - rewrite <- (map_ext_in g f l Hg). exact Hs.
  - apply Forall_forall. intros k Hk. apply in_map_iff in Hk.
    destruct Hk as (x & <- & Hx). apply Hh, Hx.
Qed.

Lemma run_timers_order_aux fuel :
  forall L log0,
    loop_inv L -> cb_inv L -> restartable L ->
    is_uint64 (time L) -> time L < UINT64_MAX ->
    (forall l, NoDup l -> (forall x, In x l -> due L x) -> (length l <= fuel)%nat) ->
    exists L' log,
      uv__run_timers (list ptr) log_cb fuel (L, log0) = Some (L', log0 ++ log) /\
      (forall h, In h log <-> due L h) /\
      NoDup log /\
      StronglySorted key_le (map (fun h => timer_key (timers L h)) log) /\
      loop_inv L' /\ (forall h, ~ due L' h) /\
      (forall h, ~ due L h -> timers L' h = timers L h) /\
      (forall h, due L h -> fired_state L h (timers L' h)) /\
      time L' = time L.
Proof.
  induction fuel as [|fuel IH]; intros L log0 Hinv Hcb Hre Ht Htmax Hfuel.
  - assert (Hnone : forall h, ~ due L h).
    { intros h Hd. specialize (Hfuel [h]). cbn [length] in Hfuel.
      assert (1 <= 0)%nat; [|lia]. apply Hfuel.
      - repeat constructor. intros [].
      - intros x [<-|[]]. exact Hd. }
    exists L, []. rewrite app_nil_r. split.
    + apply run_timers_exit. destruct (heap_min (timer_heap L)) as [h|] eqn:Hmin; [|auto].
      right. exists h. split; [reflexivity|].
      destruct (loop_inv_min L h Hinv Hmin) as [Ha _].
      destruct (Z.lt_ge_cases (time L) (timeout (timers L h))); [assumption|].
      exfalso. apply (Hnone h). split; [assumption|lia].
    + split; [intro h; split; [contradiction|apply Hnone]|].
      split; [constructor|]. split; [constructor|].
      split; [assumption|]. split; [assumption|]. split; [reflexivity|].
      split; [|reflexivity]. intros h Hd. destruct (Hnone h Hd).
  - destruct (heap_min (timer_heap L)) as [h|] eqn:Hmin.
    + destruct (Z.lt_ge_cases (time L) (timeout (timers L h))) as [Hlt|Hge].
      * assert (Hnone : forall x, ~ due L x).
        { intros x [Hx Hdx]. destruct (loop_inv_min L h Hinv Hmin) as [_ Hleast].
          pose proof (proj1 (before_or_equiv_key _ _ _) (Hleast x Hx)) as K.
          unfold key_le, key_lt, timer_key in K. cbn [fst snd] in K. lia. }
        exists L, []. rewrite app_nil_r. split; [apply run_timers_exit; eauto|].
        split; [intro x; split; [contradiction|apply Hnone]|].
        split; [constructor|]. split; [constructor|].
        split; [assumption|]. split; [assumption|]. split; [reflexivity|].
        split; [|reflexivity]. intros x Hd. destruct (Hnone x Hd).
      * destruct (fire_step L h Hinv Hcb Hre Ht Htmax Hmin ltac:(lia))
          as (L2 & Estep & Hinv2 & Hcb2 & Hre2 & Tm2 & T2 & Hnd2 & Hd & Hleast & Hfs).
        assert (Hdue2 : forall x, due L2 x <-> due L x /\ x <> h).
        { intro x. destruct (Pos.eq_dec x h) as [->|Hne].
          - split; [contradiction|tauto].
          - unfold due. rewrite Tm2, T2 by assumption. tauto. }
        destruct (IH L2 (log0 ++ [h]) Hinv2 Hcb2 Hre2) as
          (L' & log & E & Hlog & ND & Hs & Hinv' & Hnone' & Hsame & Hfired & Tm');
          [rewrite Tm2; exact Ht|rewrite Tm2; exact Htmax| |].
        { intros l NDl Hl. assert (length (h :: l) <= S fuel)%nat; [|cbn in *; lia].
          apply Hfuel.
          - constructor; [|exact NDl]. intro Hin. apply Hl, Hdue2 in Hin. tauto.
          - intros x [<-|Hx]; [exact Hd|]. apply Hl, Hdue2 in Hx. tauto. }
        exists L', (h :: log).
        split; [|split; [|split; [|split; [|split; [|split; [|split; [|split]]]]]]].
        -- rewrite Estep, E, <- app_assoc. reflexivity.
        -- intro x. cbn [In]. rewrite Hlog, Hdue2. split.
           ++ intros [<-|[Hx _]]; assumption.
           ++ intro Hx. destruct (Pos.eq_dec h x); [left; assumption|right; split; congruence].
        -- constructor; [|exact ND]. intro Hin. apply Hlog in Hin. contradiction.
        -- apply (sorted_cons_keys _ (fun x => timer_key (timers L2 x))); [| |exact Hs].
           ++ intros x Hx. apply Hleast. apply Hlog, Hdue2 in Hx. tauto.
           ++ intros x Hx. apply Hlog, Hdue2 in Hx. rewrite T2 by tauto. reflexivity.
        -- exact Hinv'.
        -- exact Hnone'.
        -- intros x Hx. assert (x <> h) by (intros ->; contradiction).
           rewrite Hsame, T2 by (rewrite ?Hdue2; tauto). reflexivity.
        -- intros x Hx. destruct (Pos.eq_dec x h) as [->|Hne].
           ++ rewrite (Hsame h Hnd2). exact Hfs.
           ++ assert (Hx2 : due L2 x) by (apply Hdue2; tauto).
              pose proof (Hfired x Hx2) as F. unfold fired_state in *.
              rewrite Tm2, (T2 x Hne) in F. exact F.
        -- rewrite Tm'. exact Tm2.
    + pose proof (loop_inv_empty_heap L Hinv Hmin) as Hoff.
      exists L, []. rewrite app_nil_r. split; [apply run_timers_exit; auto|].
      split; [intro x; split; [contradiction|intros [Hx _]; rewrite Hoff in Hx; discriminate]|].
      split; [constructor|]. split; [constructor|]. split; [assumption|].
      split; [intros x [Hx _]; rewrite Hoff in Hx; discriminate|].
      split; [reflexivity|]. split; [|reflexivity].
      intros x [Hx _]. rewrite Hoff in Hx. discriminate.
Qed.

Lemma due_bound L l :
  loop_inv L -> NoDup l -> (forall x, In x l -> due L x) ->
  (length l <= Z.to_nat (nelts (hp (timer_heap L))))%nat.
Proof.
  intros Hinv ND Hl. destruct (loop_inv_members L Hinv) as (members & NDm & Len & Hm).
  rewrite <- Len, Nat2Z.id. apply NoDup_incl_length; [exact ND|].
  intros x Hx. apply Hm. apply Hl in Hx. apply Hx.
Qed.

Lemma run_timers_order L log0 :
  loop_inv L -> cb_inv L -> restartable L ->
  is_uint64 (time L) -> time L < UINT64_MAX ->
  exists L' log,
    uv__run_timers (list ptr) log_cb (Z.to_nat (nelts (hp (timer_heap L)))) (L, log0)
    = Some (L', log0 ++ log) /\
    (forall h, In h log <-> due L h) /\
    NoDup log /\
    StronglySorted key_le (map (fun h => timer_key (timers L h)) log) /\
    loop_inv L' /\ (forall h, ~ due L' h) /\
    (forall h, ~ due L h -> timers L' h = timers L h) /\
    (forall h, due L h -> fired_state L h (timers L' h)) /\
    time L' = time L.
Proof.
  intros Hinv Hcb Hre Ht Htmax. apply run_timers_order_aux; try assumption.
  intros l ND Hl. apply due_bound; assumption.
Qed.

(** ** The four timers of the ordering test are a consistent loop *)

Lemma start_among L h c t (hs : list ptr) :
  loop_inv L -> cb_inv L -> restartable L ->
  (forall x, closing (timers L x) = false) ->
  (forall x, active (timers L x) = true -> In x hs) ->
  Z.of_nat (length hs) < UINT_MAX -> In h hs ->
  exists L',
    uv_timer_start L h (Some c) t 0 = Some (L', 0) /\
    loop_inv L' /\ cb_inv L' /\ restartable L' /\
    (forall x, closing (timers L' x) = false) /\
    (forall x, active (timers L' x) = true -> In x hs) /\
    time L' = time L.
Proof.
  intros Hinv Hcb Hre Hcl Hact Hlen Hh.
  assert (Hroom : nelts (hp (timer_heap L)) < UINT_MAX).
  { destruct (loop_inv_members L Hinv) as (m & ND & Len & Hm).
    assert (length m <= length hs)%nat.
    { apply NoDup_incl_length; [exact ND|]. intros x Hx. apply Hact, Hm, Hx. }
    unfold ptr in *. lia. }
  destruct (uv_timer_start_ok L h c t 0 Hinv (Hcl h) (or_intror Hroom))
    as (L1 & L' & _ & _ & _ & _ & _ & _ & Es & _ & Th & To & Tm & _ & _ & Hinv').
  exists L'. split; [exact Es|]. split; [exact Hinv'|].
  split; [|split; [|split; [|split; [|exact Tm]]]].
  - intros x Hx. destruct (Pos.eq_dec x h) as [->|Hne].
    + rewrite Th. discriminate.
    + rewrite To in * by assumption. apply Hcb, Hx.
  - intros x Hx. destruct (Pos.eq_dec x h) as [->|Hne].
    + rewrite Th. cbn [repeat closing]. unfold is_uint64. split; [lia|reflexivity].
    + rewrite To in * by assumption. apply Hre, Hx.
  - intro x. destruct (Pos.eq_dec x h) as [->|Hne].
    + rewrite Th. reflexivity.
    + rewrite To by assumption. apply Hcl.
  - intros x Hx. destruct (Pos.eq_dec x h) as [->|Hne]; [exact Hh|].
    rewrite To in Hx by assumption. apply Hact, Hx.
Qed.

Lemma four_timers_inv :
  exists L,
    four_timers = Some L /\ loop_inv L /\ cb_inv L /\ restartable L /\ time L = 0.
Proof.
  assert (Hlen : Z.of_nat (length [1; 2; 3; 4]%positive) < UINT_MAX) by reflexivity.
  destruct (start_among loop0 1%positive 1%positive 10 [1; 2; 3; 4]%positive)
    as (L1 & E1 & I1 & C1 & R1 & K1 & A1 & T1);
    [exact (loop_inv_loop0 0)|intros x Hx; discriminate Hx|intros x Hx; discriminate Hx
    |reflexivity|intros x Hx; discriminate Hx|exact Hlen|cbn; tauto|].
  destruct (start_among L1 2%positive 1%positive 10 [1; 2; 3; 4]%positive
              I1 C1 R1 K1 A1 Hlen)
    as (L2 & E2 & I2 & C2 & R2 & K2 & A2 & T2); [cbn; tauto|].
  destruct (start_among L2 3%positive 1%positive 5 [1; 2; 3; 4]%positive
              I2 C2 R2 K2 A2 Hlen)
    as (L3 & E3 & I3 & C3 & R3 & K3 & A3 & T3); [cbn; tauto|].
  destruct (start_among L3 4%positive 1%positive 20 [1; 2; 3; 4]%positive
              I3 C3 R3 K3 A3 Hlen)
    as (L4 & E4 & I4 & C4 & R4 & K4 & A4 & T4); [cbn; tauto|].
  exists L4. split.
  - unfold four_timers, start_all. cbn [fold_left bind].
    unfold cb_id, ptr in *.
    rewrite E1. cbn [bind]. rewrite E2. cbn [bind]. rewrite E3. cbn [bind].
    rewrite E4. reflexivity.
  - split; [exact I4|]. split; [exact C4|]. split; [exact R4|].
    rewrite T4, T3, T2, T1. reflexivity.
Qed.

(** C2. [uv__run_timers] returns at once, the loop untouched, when the heap
    is empty or the minimum's deadline is beyond [loop.time].  Otherwise,
    on a consistent loop, the minimum [h] is an active handle that no
    active handle precedes in (timeout, start_id) order; it is first
    stopped (its node unlinked), then [uv_timer_again] runs on it, which
    for a nonzero repeat (with a callback, not closing) links it again
    with start_id the counter's current value, and only then the callback
    is called, on the loop these two calls left, after which the loop
    continues.  With callbacks that only log their handle, on a consistent
    loop whose active handles have callbacks, one pass fires exactly the
    due handles, each once, in ascending (timeout, start_id) order.  The
    four timers of deadlines 10, 10, 5, 20 fire, at time 20, in the order
    third, first, second, fourth. *)
Theorem uv__run_timers_spec :
  (forall U callbacks fuel L u,
     heap_min (timer_heap L) = None \/
     (exists h, heap_min (timer_heap L) = Some h /\ time L < timeout (timers L h)) ->
     uv__run_timers U callbacks fuel (L, u) = Some (L, u)) /\
  (forall U callbacks fuel L u h,
     loop_inv L -> heap_min (timer_heap L) = Some h ->
     timeout (timers L h) <= time L ->
     active (timers L h) = true /\
     (forall x, active (timers L x) = true ->
                before_or_equiv (timer_less_than (timers L)) h x) /\
     exists L1 L2 r,
       uv_timer_stop L h = Some (L1, 0) /\
       ~ reachable (timer_heap L1) h /\ active (timers L1 h) = false /\
       uv_timer_again L1 h = Some (L2, r) /\
       (repeat (timers L h) = 0 -> L2 = L1) /\
       (forall c, timer_cb (timers L h) = Some c -> repeat (timers L h) <> 0 ->
                  closing (timers L h) = false ->
                  reachable (timer_heap L2) h /\ active (timers L2 h) = true /\
                  start_id (timers L2 h) = timer_counter L /\
                  timer_counter L2 = uint64 (timer_counter L + 1)) /\
       uv__run_timers U callbacks (S fuel) (L, u) =
       (cb <- timer_cb (timers L2 h) ;;
        w <- callbacks cb h (L2, u) ;;
        uv__run_timers U callbacks fuel w)) /\
  (forall L log0,
     loop_inv L -> cb_inv L -> restartable L ->
     is_uint64 (time L) -> time L < UINT64_MAX ->
     exists L' log,
       uv__run_timers (list ptr) log_cb (Z.to_nat (nelts (hp (timer_heap L)))) (L, log0)
       = Some (L', log0 ++ log) /\
       (forall h, In h log <-> due L h) /\
       NoDup log /\
       StronglySorted key_le (map (fun h => timer_key (timers L h)) log)) /\
  (exists L,
     four_timers = Some L /\
     map (fun h => (timeout (timers L h), start_id (timers L h)))
       [1; 2; 3; 4]%positive = [(10, 0); (10, 1); (5, 2); (20, 3)]) /\
  fire_four 20 4 = Some [3; 1; 2; 4]%positive /\
  fire_four 10 4 = Some [3; 1; 2]%positive /\
  fire_four 4 4 = Some [].
Proof.
  split; [intros; apply run_timers_exit; assumption|].
  split; [|split; [|split; [|split; [|split]]]].
  - intros U callbacks fuel L u h Hinv Hmin Hle.
    destruct (loop_inv_min L h Hinv Hmin) as [Ha Hleast].
    split; [exact Ha|]. split; [exact Hleast|].
    destruct (stop_again L h Hinv Ha)
      as (L1 & L2 & r & Es & Hn1 & Ha1 & _ & Ea & Hz & _ & _ & Hre & _).
    exists L1, L2, r. split; [exact Es|]. split; [exact Hn1|]. split; [exact Ha1|].
    split; [exact Ea|]. split; [exact Hz|]. split.
    + intros c Hc Hr Hcl. destruct (Hre c Hc Hr Hcl) as (_ & Hrch & Th2 & Tc2).
      split; [exact Hrch|]. rewrite Th2. auto.
    + rewrite (run_timers_step U callbacks fuel L u h Hmin Hle), Es. cbn [bind].
      rewrite Ea. reflexivity.
  - intros L log0 Hinv Hcb Hre Ht Htmax.
    destruct (run_timers_order L log0 Hinv Hcb Hre Ht Htmax)
      as (L' & log & E & Hin & ND & Hs & _).
    exists L', log. auto.
  - destruct four_timers as [L|] eqn:E; [|vm_compute in E; discriminate].
    exists L. split; [reflexivity|]. vm_compute in E. injection E as <-.
    vm_compute. reflexivity.
  - vm_compute. reflexivity.
  - vm_compute. reflexivity.
  - vm_compute. reflexivity.
Qed.

(** The four timers at time 20: the root is the third timer, which is
    stopped first; the pass fires exactly the due handles in ascending key
    order. *)
Lemma uv__run_timers_spec_witness :
  exists L,
    four_timers = Some L /\
    heap_min (timer_heap (set_time L 20)) = Some 3%positive /\
    (exists L1, uv_timer_stop (set_time L 20) 3%positive = Some (L1, 0) /\
                ~ reachable (timer_heap L1) 3%positive) /\
    exists L' log,
      uv__run_timers (list ptr) log_cb
        (Z.to_nat (nelts (hp (timer_heap (set_time L 20))))) (set_time L 20, [])
      = Some (L', [] ++ log) /\
      (forall h, In h log <-> due (set_time L 20) h) /\
      NoDup log /\
      StronglySorted key_le
        (map (fun h => timer_key (timers (set_time L 20) h)) log).
Proof.
  destruct four_timers_inv as (L & E & Hinv & Hcb & Hre & Tm).
  assert (Hmin : heap_min (timer_heap (set_time L 20)) = Some 3%positive /\
                 timeout (timers (set_time L 20) 3%positive) <= time (set_time L 20)).
  { clear Hinv Hcb Hre Tm. revert E. vm_compute. intro E. injection E as <-.
    split; [reflexivity|discriminate]. }
  destruct Hmin as [Hmin Hdue].
  destruct uv__run_timers_spec as (_ & Step & Pass & _).
  exists L. split; [exact E|]. split; [exact Hmin|]. split.
  - destruct (Step (list ptr) log_cb O (set_time L 20) [] 3%positive Hinv Hmin Hdue)
      as (_ & _ & L1 & L2 & r & Es & Hn & _).
    exists L1. split; [exact Es|exact Hn].
  - destruct (Pass (set_time L 20) [] Hinv Hcb Hre) as (L' & log & Er & Hin & ND & Hs).
    + cbn [set_time time]. unfold is_uint64. lia.
    + cbn [set_time time]. reflexivity.
    + exists L', log. auto.
Defined.

(** * Further properties of heap-inl.h *)

(** ** [heap_node_swap] *)

Lemma heap_node_swap_closed s a n c x y :
  heap_rep s a n -> a c = Some x -> a (c / 2) = Some y ->
  forall z, node (heap_node_swap s y x) z = swapped_node s y x z.
Proof.
  intros H Hx Hy z.
  assert (Hc : 1 <= c <= n) by (apply (rep_dom _ _ _ H); congruence).
  assert (Hp : 1 <= c / 2 <= n) by (apply (rep_dom _ _ _ H); congruence).
  pose proof (rep_node _ _ _ H _ _ Hx) as Nx. rewrite Hy in Nx.
  pose proof (rep_node _ _ _ H _ _ Hy) as Ny.
  name_half c p. name_half p g.
  assert (Hxy : x <> y).
  { intros ->. same_pos H. }
  apply heap_node_swap_node; auto; rewrite ?Nx, ?Ny; cbn [left right parent];
    unfold not; intros; same_pos H.
Qed.

Lemma rep_eqb_out s a n j z :
  heap_rep s a n -> ~ arr_mem a z -> ptr_eqb (a j) (Some z) = false.
Proof.
  intros H Hz. apply ptr_eqb_neq. intro E. apply Hz. exists j. exact E.
Qed.

Lemma heap_node_swap_frame s a n c x y z :
  heap_rep s a n -> a c = Some x -> a (c / 2) = Some y ->
  ~ arr_mem a z -> node (heap_node_swap s y x) z = node s z.
Proof.
  intros H Hx Hy Hz.
  rewrite (heap_node_swap_closed s a n c x y H Hx Hy).
  unfold swapped_node.
  rewrite (rep_node _ _ _ H _ _ Hx), (rep_node _ _ _ H _ _ Hy).
  cbn [left right parent].
  assert (z <> x) by (intro; subst z; apply Hz; exists c; exact Hx).
  assert (z <> y) by (intro; subst z; apply Hz; exists (c / 2); exact Hy).
  rewrite (proj2 (Pos.eqb_neq z x)), (proj2 (Pos.eqb_neq z y)) by assumption.
  rewrite !(rep_eqb_out s a n _ z H Hz).
  destruct (ptr_eqb (a (2 * (c / 2))) (Some x));
    rewrite !(rep_eqb_out s a n _ z H Hz); cbn [andb orb];
    destruct (node s z); reflexivity.
Qed.

Lemma arr_mem_dec s a n z :
  heap_rep s a n -> arr_mem a z \/ ~ arr_mem a z.
Proof.
  intro H. pose proof (rep_range _ _ _ H) as R.
  destruct (in_dec Pos.eq_dec z (arr_list a (Z.to_nat n))) as [I|I].
  - left. apply arr_list_in in I. destruct I as (i & _ & E). exists i. exact E.
  - right. intros (i & E). apply I. apply arr_list_in. exists i. split; [|exact E].
    assert (a i <> None) by congruence. apply (rep_dom _ _ _ H) in H0. lia.
Qed.

Lemma exchange_twice a i j k : exchange (exchange a i j) i j k = a k.
Proof.
  unfold exchange.
  destruct (Z.eqb_spec k i) as [->|Hki].
  - destruct (Z.eqb_spec j i) as [->|Hji]; [reflexivity|].
    rewrite Z.eqb_refl. reflexivity.
  - destruct (Z.eqb_spec k j) as [->|Hkj]; [|reflexivity].
    rewrite Z.eqb_refl. reflexivity.
Qed.

(** X1. On a well-formed heap, [heap_node_swap(heap, parent, child)]
    exchanges the level-order positions of a node and its parent and
    nothing else: the child is now linked where the parent was, the parent
    where the child was and as a child of its former child, every other
    position holds the node it held, the count and the set of linked nodes
    are the same, and no node outside the heap is written. *)
Theorem heap_node_swap_positions s a n c x y :
  heap_rep s a n -> a c = Some x -> a (c / 2) = Some y ->
  (forall p, node_at (heap_node_swap s y x) p =
             if Zpos p =? c / 2 then Some x
             else if Zpos p =? c then Some y
             else node_at s p) /\
  parent (node (heap_node_swap s y x) y) = Some x /\
  nelts (hp (heap_node_swap s y x)) = nelts (hp s) /\
  (forall z, reachable (heap_node_swap s y x) z <-> reachable s z) /\
  (forall z, ~ reachable s z -> node (heap_node_swap s y x) z = node s z).
Proof.
  intros H Hx Hy.
  pose proof (heap_node_swap_rep s a n c x y H Hx Hy) as H'.
  split; [|split; [|split; [|split]]].
  - intro p. rewrite (node_at_rep _ _ _ H'), (node_at_rep _ _ _ H).
    unfold exchange. rewrite Hx, Hy. reflexivity.
  - assert (E : exchange a (c / 2) c c = Some y) by (rewrite exchange_r; exact Hy).
    rewrite (rep_node _ _ _ H' _ _ E). cbn [parent].
    rewrite exchange_l. exact Hx.
  - rewrite (rep_nelts _ _ _ H'), (rep_nelts _ _ _ H). reflexivity.
  - intro z. rewrite (reachable_rep _ _ _ z H'), (reachable_rep _ _ _ z H).
    apply arr_mem_exchange.
  - intros z Hz. apply (heap_node_swap_frame s a n c x y z H Hx Hy).
    rewrite <- (reachable_rep _ _ _ z H). exact Hz.
Qed.

Lemma heap_node_swap_positions_witness :
  node_at (heap_node_swap two_nodes 1%positive 2%positive) 1%positive = Some 2%positive /\
  node_at (heap_node_swap two_nodes 1%positive 2%positive) 2%positive = Some 1%positive.
Proof.
  destruct (heap_node_swap_positions two_nodes two_nodes_arr 2 2 2%positive 1%positive
              two_nodes_rep eq_refl eq_refl) as (P & _).
  split; [exact (P 1%positive) | exact (P 2%positive)].
Defined.

(** X2. Swapping a node with its parent and then swapping back restores
    the memory: every node's three links and the heap structure are as
    before. *)
Theorem heap_node_swap_involutive s a n c x y :
  heap_rep s a n -> a c = Some x -> a (c / 2) = Some y ->
  (forall z, node (heap_node_swap (heap_node_swap s y x) x y) z = node s z) /\
  hp (heap_node_swap (heap_node_swap s y x) x y) = hp s.
Proof.
  intros H Hx Hy.
  pose proof (heap_node_swap_rep s a n c x y H Hx Hy) as H1.
  assert (E1 : exchange a (c / 2) c c = Some y) by (rewrite exchange_r; exact Hy).
  assert (E2 : exchange a (c / 2) c (c / 2) = Some x) by (rewrite exchange_l; exact Hx).
  pose proof (heap_node_swap_rep _ _ n c y x H1 E1 E2) as H2.
  split.
  - intro z.
    destruct (arr_mem_dec s a n z H) as [(i & Hi)|Hout].
    + assert (Hi2 : exchange (exchange a (c / 2) c) (c / 2) c i = Some z)
        by (rewrite exchange_twice; exact Hi).
      rewrite (rep_node _ _ _ H2 _ _ Hi2), (rep_node _ _ _ H _ _ Hi).
      rewrite !exchange_twice. reflexivity.
    + rewrite (heap_node_swap_frame _ _ n c y x z H1 E1 E2).
      * apply (heap_node_swap_frame s a n c x y z H Hx Hy Hout).
      * intro M. apply Hout. apply (arr_mem_exchange a (c / 2) c z). exact M.
  - pose proof (rep_min _ _ _ H2) as M2. pose proof (rep_nelts _ _ _ H2) as N2.
    pose proof (rep_min _ _ _ H) as M. pose proof (rep_nelts _ _ _ H) as N.
    rewrite exchange_twice in M2.
    destruct (hp (heap_node_swap (heap_node_swap s y x) x y)), (hp s).
    cbn in M2, N2, M, N. congruence.
Qed.

Lemma heap_node_swap_involutive_witness :
  hp (heap_node_swap (heap_node_swap two_nodes 1%positive 2%positive)
        2%positive 1%positive) = hp two_nodes.
Proof.
  exact (proj2 (heap_node_swap_involutive two_nodes two_nodes_arr 2 2
                  2%positive 1%positive two_nodes_rep eq_refl eq_refl)).
Defined.

(** ** [heap_dequeue] *)

Lemma heap_dequeue_empty less_than s :
  nelts (hp s) = 0 -> heap_dequeue less_than s = Some s.
Proof.
  intro E. unfold heap_dequeue. destruct (min (hp s)).
  - apply heap_remove_empty. exact E.
  - unfold heap_remove_null. rewrite E. reflexivity.
Qed.

Lemma heap_dequeue_ok less_than s members :
  strict_weak_order less_than ->
  heap_ok less_than s members -> members <> [] ->
  exists m s',
    heap_min s = Some m /\ In m members /\
    (forall x, In x members -> before_or_equiv less_than m x) /\
    heap_dequeue less_than s = Some s' /\
    heap_remove less_than s m = Some s' /\
    heap_ok less_than s' (remove Pos.eq_dec m members) /\
    nelts (hp s') = nelts (hp s) - 1.
Proof.
  intros swo Hok Hne.
  destruct (heap_ok_inv less_than swo s members Hok) as (Hinv & Hmem).
  destruct members as [|x0 members0] eqn:Em; [congruence|]. rewrite <- Em in *.
  assert (Hx0 : In x0 members) by (rewrite Em; left; reflexivity).
  destruct (inv_min _ _ Hinv x0 (proj2 (Hmem x0) Hx0)) as (m & Hm & _).
  assert (Hin : In m members).
  { apply Hmem. apply reach_min. exact Hm. }
  destruct (heap_ok_remove less_than swo s members m Hok Hin) as (s' & Hrm & Hok').
  exists m, s'. split; [exact Hm|]. split; [exact Hin|]. split; [|split; [|split; [|split]]].
  - intros x Hx. destruct (inv_min _ _ Hinv x (proj2 (Hmem x) Hx)) as (m' & Hm' & B).
    rewrite Hm in Hm'. inversion Hm'. subst m'. exact B.
  - unfold heap_dequeue. unfold heap_min in Hm. rewrite Hm. exact Hrm.
  - exact Hrm.
  - exact Hok'.
  - rewrite (heap_ok_nelts _ _ _ Hok'), (heap_ok_nelts _ _ _ Hok).
    destruct Hok as (a & n & _ & _ & _ & Hnd & _).
    destruct (remove_spec m members Hnd Hin) as (_ & Hlen & _).
    unfold ptr in *. lia.
Qed.

(** X3. [heap_dequeue] on an empty heap returns with the memory untouched.
    On a well-formed non-empty heap it removes the root, which is a least
    node: the root is a member that no member precedes, the call is
    [heap_remove] of that node, the heap left is well formed and holds
    the other members, and the count drops by one. *)
Theorem heap_dequeue_spec less_than s members :
  strict_weak_order less_than ->
  heap_ok less_than s members ->
  (members = [] -> heap_min s = None /\ heap_dequeue less_than s = Some s) /\
  (members <> [] ->
   exists m s',
     heap_min s = Some m /\ In m members /\
     (forall x, In x members -> before_or_equiv less_than m x) /\
     heap_dequeue less_than s = Some s' /\
     heap_remove less_than s m = Some s' /\
     heap_ok less_than s' (remove Pos.eq_dec m members) /\
     nelts (hp s') = nelts (hp s) - 1).
Proof.
  intros swo Hok. split.
  - intro E. subst members.
    pose proof (heap_ok_nelts _ _ _ Hok) as N. cbn [length] in N.
    destruct (heap_ok_inv less_than swo s [] Hok) as (Hinv & _).
    split.
    + apply (inv_empty _ _ Hinv). exact N.
    + apply heap_dequeue_empty. exact N.
  - intro Hne. destruct (heap_dequeue_ok less_than s members swo Hok Hne)
      as (m & s' & H1 & H2 & H3 & H4 & H5 & H6 & H7).
    exists m, s'. repeat split; assumption.
Qed.

(** Dequeuing from a heap of three nodes. *)
Lemma heap_dequeue_spec_witness :
  exists s m s',
    run_ops Pos.ltb [Insert 5; Insert 3; Insert 8]%positive (heap_init mem0) = Some s /\
    heap_min s = Some m /\
    (forall x, In x [8; 3; 5]%positive -> before_or_equiv Pos.ltb m x) /\
    heap_dequeue Pos.ltb s = Some s' /\
    heap_ok Pos.ltb s' (remove Pos.eq_dec m [8; 3; 5]%positive) /\
    nelts (hp s') = nelts (hp s) - 1.
Proof.
  destruct (heap_ok_run Pos.ltb pos_ltb_swo [Insert 5; Insert 3; Insert 8]%positive
              (heap_init mem0) [] (heap_ok_init Pos.ltb mem0) eq_refl)
    as (s & Hrun & Hok).
  destruct (heap_dequeue_spec Pos.ltb s _ pos_ltb_swo Hok) as (_ & NonEmpty).
  destruct NonEmpty as (m & s' & Hm & _ & Hleast & Hdq & _ & Hok' & Hn).
  - discriminate.
  - exists s, m, s'. repeat (split; [assumption|]). exact Hn.
Defined.

(** ** Draining a heap *)

Lemma drain_nil less_than fuel s :
  heap_min s = None -> drain less_than fuel s = Some [].
Proof. intro E. destruct fuel; cbn [drain]; rewrite E; reflexivity. Qed.

Lemma drain_cons less_than fuel s m :
  heap_min s = Some m ->
  drain less_than (S fuel) s =
  (s' <- heap_dequeue less_than s ;;
   l <- drain less_than fuel s' ;;
   Some (m :: l)).
Proof. intro E. cbn [drain]. rewrite E. reflexivity. Qed.

Lemma remove_perm m (l : list ptr) :
  NoDup l -> In m l -> Permutation (m :: remove Pos.eq_dec m l) l.
Proof.
  intros Hnd Hin.
  destruct (remove_spec m l Hnd Hin) as (Hnd' & _ & Hmem).
  apply NoDup_Permutation.
  - constructor; [|exact Hnd']. intro I. apply Hmem in I. destruct I as [_ I]. congruence.
  - exact Hnd.
  - intro x. split.
    + intros [<-|I]; [exact Hin|]. apply Hmem in I. tauto.
    + intro I. destruct (Pos.eq_dec m x) as [->|Hx]; [left; reflexivity|].
      right. apply Hmem. split; [exact I|congruence].
Qed.

(** X4. Dequeuing until [heap_min] is NULL visits the nodes of a
    well-formed heap in ascending order: the loop ends after as many
    dequeues as there are nodes, the minima it saw are the members, each
    once, and no later one precedes an earlier one. *)
Theorem drain_sorted less_than s members :
  strict_weak_order less_than ->
  heap_ok less_than s members ->
  exists l,
    drain less_than (length members) s = Some l /\
    Permutation l members /\
    StronglySorted (before_or_equiv less_than) l.
Proof.
  intros swo Hok. remember (length members) as k eqn:Hlen. symmetry in Hlen.
  revert s members Hok Hlen.
  induction k as [|k IH]; intros s members Hok Hlen.
  - destruct members; [|discriminate].
    exists []. split; [|split; constructor].
    apply drain_nil.
    destruct (heap_ok_inv less_than swo s [] Hok) as (Hinv & _).
    apply (inv_empty _ _ Hinv). rewrite (heap_ok_nelts _ _ _ Hok). reflexivity.
  - assert (Hne : members <> []) by (intros ->; discriminate).
    destruct (heap_dequeue_ok less_than s members swo Hok Hne)
      as (m & s' & Hm & Hin & Hleast & Hdq & _ & Hok' & _).
    assert (Hnd : NoDup members) by (destruct Hok as (a & n & _ & _ & _ & D & _); exact D).
    destruct (remove_spec m members Hnd Hin) as (_ & Hl & Hmem).
    destruct (IH s' (remove Pos.eq_dec m members) Hok') as (l & Hd & Hp & Hs).
    { unfold ptr in *. lia. }
    exists (m :: l). split; [|split].
    + rewrite (drain_cons less_than k s m Hm), Hdq. cbn [bind]. rewrite Hd. reflexivity.
    + eapply Permutation_trans; [|apply (remove_perm m members Hnd Hin)].
      constructor. exact Hp.
    + constructor; [exact Hs|].
      apply Forall_forall. intros x Hx. apply Hleast.
      apply (Permutation_in _ Hp) in Hx. apply Hmem in Hx. tauto.
Qed.

Lemma drain_sorted_witness :
  exists s l,
    run_ops Pos.ltb [Insert 5; Insert 3; Insert 8]%positive (heap_init mem0) = Some s /\
    drain Pos.ltb 3 s = Some l /\
    Permutation l [8; 3; 5]%positive /\
    StronglySorted (before_or_equiv Pos.ltb) l.
Proof.
  destruct (heap_ok_run Pos.ltb pos_ltb_swo [Insert 5; Insert 3; Insert 8]%positive
              (heap_init mem0) [] (heap_ok_init Pos.ltb mem0) eq_refl)
    as (s & Hrun & Hok).
  destruct (drain_sorted Pos.ltb s _ pos_ltb_swo Hok) as (l & E & P & S).
  exists s, l. repeat split; assumption.
Defined.

(** ** The path computation *)

Lemma size_nat_pow p :
  exists k, Pos.size_nat p = S k /\
            2 ^ Z.of_nat k <= Zpos p < 2 ^ Z.of_nat (S k).
Proof.
  induction p as [q (k & E & B)|q (k & E & B)|].
  - exists (S k). cbn [Pos.size_nat]. rewrite E. split; [reflexivity|].
    rewrite !Nat2Z.inj_succ, !Z.pow_succ_r in * by lia. lia.
  - exists (S k). cbn [Pos.size_nat]. rewrite E. split; [reflexivity|].
    rewrite !Nat2Z.inj_succ, !Z.pow_succ_r in * by lia. lia.
  - exists O. split; [reflexivity|]. change (2 ^ Z.of_nat 0) with 1.
    change (2 ^ Z.of_nat 1) with 2. lia.
Qed.

Lemma path_loop_count p :
  forall fuel path k,
    0 <= path < 2 ^ Z.of_nat k ->
    (k + Pos.size_nat p <= 32)%nat ->
    (Pos.size_nat p <= S fuel)%nat ->
    exists path' k',
      path_loop fuel path k (Zpos p) = Some (path', k') /\
      S k' = (k + Pos.size_nat p)%nat /\
      0 <= path' < 2 ^ Z.of_nat k'.
Proof.
  induction p as [q IH|q IH|]; intros fuel path k Hpath Hk Hfuel.
  - cbn [Pos.size_nat] in *.
    destruct fuel as [|fuel]; [destruct q; cbn [Pos.size_nat] in Hfuel; lia|].
    cbn [path_loop]. replace (2 <=? Z.pos q~1) with true by (symmetry; apply Z.leb_le; lia).
    rewrite land_1. replace (Z.pos q~1 mod 2) with 1 by dlia.
    replace (Z.pos q~1 / 2) with (Zpos q) by dlia.
    rewrite lor_shiftl_bit by lia.
    assert (Hpow : 2 ^ Z.of_nat (S k) = 2 * 2 ^ Z.of_nat k)
      by (rewrite Nat2Z.inj_succ, Z.pow_succ_r; lia).
    assert (Hle : 2 ^ Z.of_nat (S k) <= 2 ^ 32)
      by (apply Z.pow_le_mono_r; lia).
    unfold uint. rewrite Z.mod_small by lia.
    destruct (IH fuel (2 * path + 1) (S k)) as (path' & k' & E & K & B); try lia.
    exists path', k'. split; [exact E|]. split; [lia|exact B].
  - cbn [Pos.size_nat] in *.
    destruct fuel as [|fuel]; [destruct q; cbn [Pos.size_nat] in Hfuel; lia|].
    cbn [path_loop]. replace (2 <=? Z.pos q~0) with true by (symmetry; apply Z.leb_le; lia).
    rewrite land_1. replace (Z.pos q~0 mod 2) with 0 by dlia.
    replace (Z.pos q~0 / 2) with (Zpos q) by dlia.
    rewrite lor_shiftl_bit by lia.
    assert (Hpow : 2 ^ Z.of_nat (S k) = 2 * 2 ^ Z.of_nat k)
      by (rewrite Nat2Z.inj_succ, Z.pow_succ_r; lia).
    assert (Hle : 2 ^ Z.of_nat (S k) <= 2 ^ 32)
      by (apply Z.pow_le_mono_r; lia).
    unfold uint. rewrite Z.mod_small by lia.
    destruct (IH fuel (2 * path + 0) (S k)) as (path' & k' & E & K & B); try lia.
    exists path', k'. split; [exact E|]. split; [lia|exact B].
  - exists path, k. split; [destruct fuel; reflexivity|].
    cbn [Pos.size_nat]. split; [lia|exact Hpath].
Qed.

(** X5. For every value of an [unsigned int] count, the path loop shared
    by [heap_insert] and [heap_remove] ends: it runs floor(log2 n) times,
    at most 31, so [k] is the depth of position [n]; [path] holds exactly
    [k] bits, so the shift never loses one; and reading these bits lowest
    first, as the traversal does, leads from the root to position [n]
    (to the root itself for n = 0 and n = 1). *)
Theorem path_loop_depth n :
  0 <= n < 2 ^ 32 ->
  exists path k,
    path_loop 32 0 0 n = Some (path, k) /\
    Z.of_nat k = Z.log2 n /\ (k <= 31)%nat /\
    0 <= path < 2 ^ Z.of_nat k /\
    idx_of (bits_of k path) 1 = Z.max n 1.
Proof.
  intro Hn. destruct n as [|p|p]; try lia.
  - exists 0, O. split; [reflexivity|]. split; [reflexivity|]. split; [lia|].
    split; [change (2 ^ Z.of_nat 0) with 1; lia|reflexivity].
  - destruct (size_nat_pow p) as (d & Hd & Bd).
    assert (Hs : (Pos.size_nat p <= 32)%nat).
    { apply size_nat_bound. change (2 ^ Z.of_nat 32) with (2 ^ 32). lia. }
    destruct (path_loop_count p 32 0 0) as (path & k & E & K & B).
    { change (2 ^ Z.of_nat 0) with 1. lia. }
    { lia. }
    { lia. }
    destruct (path_loop_top (Zpos p) ltac:(lia)) as (path2 & k2 & E2 & Bits).
    rewrite E in E2. inversion E2. subst path2 k2.
    exists path, k. split; [exact E|].
    assert (k = d) by lia. subst d.
    split; [|split; [lia|split; [exact B|]]].
    + symmetry. apply Z.log2_unique; [lia|].
      rewrite Nat2Z.inj_succ in Bd. unfold Z.succ in Bd. exact Bd.
    + rewrite Bits. cbn [Z.to_pos]. rewrite idx_of_path. lia.
Qed.

Lemma path_loop_depth_witness :
  exists path k,
    path_loop 32 0 0 6 = Some (path, k) /\ Z.of_nat k = Z.log2 6 /\
    idx_of (bits_of k path) 1 = Z.max 6 1.
Proof.
  destruct (path_loop_depth 6 ltac:(lia)) as (path & k & E & K & _ & _ & I).
  exists path, k. repeat split; assumption.
Defined.

(** ** [heap_insert] at the limit of the count *)

(** X6. When [nelts] is UINT_MAX, [1 + heap->nelts] wraps to 0: the path
    loop and the traversal do nothing, so the new node is stored in
    [heap->min] with the old root as its parent and no children, and the
    count wraps to 0 while the heap is not empty.  (Shown for a new node
    that does not sort before the old root, where the repair loop stops at
    once.)  The nodes that were linked are no longer reachable from the
    root, and the result is not a heap. *)
Theorem heap_insert_wraps less_than s newnode :
  nelts (hp s) = UINT_MAX ->
  (forall m, min (hp s) = Some m -> less_than newnode m = false) ->
  exists s',
    heap_insert less_than s newnode = Some s' /\
    heap_min s' = Some newnode /\
    nelts (hp s') = 0 /\
    node s' newnode = HeapNode None None (min (hp s)) /\
    (forall z, z <> newnode -> node s' z = node s z) /\
    (forall z, reachable s' z <-> z = newnode) /\
    ~ heap_inv less_than s'.
Proof.
  intros Hn Hlt.
  set (s1 := set_parent (set_right (set_left s newnode None) newnode None) newnode None).
  set (s2 := set_nelts (store (set_parent s1 newnode (load s1 AtMin)) AtMin (Some newnode))
               (uint (nelts (hp s) + 1))).
  assert (E : heap_insert less_than s newnode = sift_up less_than depth_fuel s2 newnode).
  { unfold heap_insert. fold s1. change (nelts (hp s1)) with (nelts (hp s)).
    rewrite Hn. change (uint (1 + UINT_MAX)) with 0.
    change (path_loop 32 0 0 0) with (Some (0, O)).
    cbn [bind insert_walk]. reflexivity. }
  assert (Nx : node s2 newnode = HeapNode None None (min (hp s))).
  { unfold s2, s1. cbn [store load].
    rewrite node_set_nelts, node_set_min.
    apply heap_node_eq; cbn [left right parent];
      autorewrite with mem; rewrite ?Pos.eqb_refl; reflexivity. }
  assert (No : forall z, z <> newnode -> node s2 z = node s z).
  { intros z Hz. unfold s2, s1. cbn [store load].
    rewrite node_set_nelts, node_set_min.
    apply heap_node_eq; autorewrite with mem;
      rewrite ?(proj2 (Pos.eqb_neq z newnode) Hz); reflexivity. }
  assert (Hmin : min (hp s2) = Some newnode) by reflexivity.
  assert (Hcnt : nelts (hp s2) = 0).
  { unfold s2. cbn [set_nelts hp nelts]. rewrite Hn. reflexivity. }
  exists s2. split; [|split; [exact Hmin|split; [exact Hcnt|split; [exact Nx|split; [exact No|split]]]]].
  - rewrite E. unfold depth_fuel. rewrite sift_up_eq. rewrite Nx. cbn [parent].
    destruct (min (hp s)) as [m|] eqn:Em; [|reflexivity].
    rewrite (Hlt m eq_refl). reflexivity.
  - intro z. split.
    + intro R. induction R as [z Hz|y z R IH Hl|y z R IH Hr].
      * rewrite Hmin in Hz. congruence.
      * subst y. rewrite Nx in Hl. discriminate.
      * subst y. rewrite Nx in Hr. discriminate.
    + intros ->. apply reach_min. exact Hmin.
  - intro Hinv. pose proof (proj2 (inv_empty _ _ Hinv) Hcnt) as Z0.
    unfold heap_min in Z0. congruence.
Qed.

Lemma heap_insert_wraps_witness :
  exists s',
    heap_insert Pos.ltb (set_nelts two_nodes UINT_MAX) 3%positive = Some s' /\
    heap_min s' = Some 3%positive /\ nelts (hp s') = 0.
Proof.
  destruct (heap_insert_wraps Pos.ltb (set_nelts two_nodes UINT_MAX) 3%positive eq_refl)
    as (s' & E & M & N & _).
  - intros m Hm. inversion Hm. reflexivity.
  - exists s'. repeat split; assumption.
Defined.

(** ** Insert, then remove *)

Lemma remove_head x (l : list ptr) :
  ~ In x l -> remove Pos.eq_dec x (x :: l) = l.
Proof.
  intro H. cbn [remove]. destruct (Pos.eq_dec x x); [|congruence].
  apply notin_remove. exact H.
Qed.

(** X7. Inserting a node that is not in a well-formed heap and removing
    it again leaves a well-formed heap of the same nodes and the same
    count; both calls succeed. *)
Theorem heap_insert_remove less_than s members x :
  strict_weak_order less_than ->
  heap_ok less_than s members -> ~ In x members ->
  Z.of_nat (length members) < UINT_MAX ->
  exists s1 s2,
    heap_insert less_than s x = Some s1 /\
    reachable s1 x /\ nelts (hp s1) = nelts (hp s) + 1 /\
    heap_remove less_than s1 x = Some s2 /\
    heap_ok less_than s2 members /\
    (forall z, reachable s2 z <-> reachable s z) /\
    nelts (hp s2) = nelts (hp s).
Proof.
  intros swo Hok Hx Hlen.
  destruct (heap_ok_insert less_than swo s members x Hok Hx Hlen) as (s1 & E1 & Hok1).
  destruct (heap_ok_remove less_than swo s1 (x :: members) x Hok1 (or_introl eq_refl))
    as (s2 & E2 & Hok2).
  rewrite (remove_head x members Hx) in Hok2.
  destruct (heap_ok_inv less_than swo s members Hok) as (_ & M).
  destruct (heap_ok_inv less_than swo s1 _ Hok1) as (_ & M1).
  destruct (heap_ok_inv less_than swo s2 members Hok2) as (_ & M2).
  exists s1, s2. split; [exact E1|]. split; [|split; [|split; [exact E2|split; [exact Hok2|split]]]].
  - apply M1. left. reflexivity.
  - rewrite (heap_ok_nelts _ _ _ Hok1), (heap_ok_nelts _ _ _ Hok).
    cbn [length]. lia.
  - intro z. rewrite M2, M. reflexivity.
  - rewrite (heap_ok_nelts _ _ _ Hok2), (heap_ok_nelts _ _ _ Hok). reflexivity.
Qed.

(** Inserting node 4 into a heap of three nodes and removing it. *)
Lemma heap_insert_remove_witness :
  exists s s1 s2,
    run_ops Pos.ltb [Insert 5; Insert 3; Insert 8]%positive (heap_init mem0) = Some s /\
    heap_insert Pos.ltb s 4%positive = Some s1 /\
    reachable s1 4%positive /\
    heap_remove Pos.ltb s1 4%positive = Some s2 /\
    heap_ok Pos.ltb s2 [8; 3; 5]%positive /\
    nelts (hp s2) = nelts (hp s).
Proof.
  destruct (heap_ok_run Pos.ltb pos_ltb_swo [Insert 5; Insert 3; Insert 8]%positive
              (heap_init mem0) [] (heap_ok_init Pos.ltb mem0) eq_refl)
    as (s & Hrun & Hok).
  destruct (heap_insert_remove Pos.ltb s _ 4%positive pos_ltb_swo Hok)
    as (s1 & s2 & E1 & R1 & _ & E2 & Hok2 & _ & N).
  - cbn. intros [H|[H|[H|[]]]]; discriminate H.
  - reflexivity.
  - exists s, s1, s2. repeat (split; [assumption|]). exact N.
Defined.

(** * Further properties of timer.c *)

Lemma loop_inv_reachable L h :
  loop_inv L -> (reachable (timer_heap L) h <-> active (timers L h) = true).
Proof.
  intros (members & Hok & Hm).
  destruct (heap_ok_inv _ (timer_lt_swo _) _ _ Hok) as [_ R].
  rewrite R. apply Hm.
Qed.

(** A loop with the same heap, the same active flags and the same keys on
    the active handles is as consistent. *)
Lemma loop_inv_ext L L' :
  loop_inv L -> timer_heap L' = timer_heap L ->
  (forall x, active (timers L' x) = active (timers L x)) ->
  (forall x, active (timers L x) = true ->
             timer_key (timers L' x) = timer_key (timers L x)) ->
  loop_inv L'.
Proof.
  intros (members & Hok & Hm) Hh Ha Hk. exists members. split.
  - rewrite Hh. apply (heap_ok_ext (timer_less_than (timers L))); [|exact Hok].
    intros x y Hx Hy. apply timer_less_than_ext; symmetry; apply Hk, Hm; assumption.
  - intro x. rewrite Ha. apply Hm.
Qed.

(** A loop at time 5 with one running timer, due at 15. *)
Lemma running_timer :
  exists L,
    uv_timer_start (set_time loop0 5) 1%positive (Some 1%positive) 10 0 = Some (L, 0) /\
    loop_inv L /\
    timers L 1%positive = UvTimer (Some 1%positive) 15 0 0 true false /\
    (forall x, x <> 1%positive -> timers L x = timers loop0 x) /\
    time L = 5 /\
    nelts (hp (timer_heap L)) < UINT_MAX /\
    reachable (timer_heap L) 1%positive.
Proof.
  destruct (uv_timer_start_ok (set_time loop0 5) 1%positive 1%positive 10 0
              (loop_inv_loop0 5) eq_refl (or_intror eq_refl))
    as (La & L & _ & _ & _ & _ & _ & _ & Es & _ & Th & To & Tm & _ & R & Hinv).
  exists L. split; [exact Es|]. split; [exact Hinv|]. split; [rewrite Th; reflexivity|].
  split; [exact To|]. split; [exact Tm|]. split; [|apply R; left; reflexivity].
  destruct (loop_inv_members L Hinv) as (m & ND & Len & Hm).
  assert (length m <= length [1%positive])%nat.
  { apply NoDup_incl_length; [exact ND|]. intros x Hx. apply Hm in Hx.
    destruct (Pos.eq_dec x 1%positive) as [->|Hne]; [left; reflexivity|].
    rewrite To in Hx by assumption. discriminate Hx. }
  cbn [length] in H. unfold ptr, UINT_MAX in *. lia.
Qed.

(** ** [uv_timer_init] *)

Lemma uv_timer_init_fields L h :
  timers (fst (uv_timer_init L h)) h
  = UvTimer None 0 0 (start_id (timers L h)) false false /\
  (forall x, x <> h -> timers (fst (uv_timer_init L h)) x = timers L x) /\
  timer_heap (fst (uv_timer_init L h)) = timer_heap L /\
  time (fst (uv_timer_init L h)) = time L /\
  timer_counter (fst (uv_timer_init L h)) = timer_counter L.
Proof.
  unfold uv_timer_init, uv__handle_init. cbn [fst]. timers_rw.
  rewrite Pos.eqb_refl. split; [reflexivity|]. split; [|auto].
  intros x Hx. rewrite (proj2 (Pos.eqb_neq x h) Hx). reflexivity.
Qed.

(** X8. [uv_timer_init] returns 0 and leaves the handle inactive, not
    closing, with no callback and timeout and repeat 0; it does not assign
    [start_id], and touches neither the heap, the clock, the counter nor
    any other handle.  On the initialised handle [uv_timer_again] fails
    with UV_EINVAL and [uv_timer_stop] does nothing.  Initialising a
    handle that is not active keeps the loop consistent; initialising an
    active one does not, as its node stays linked in the heap. *)
Theorem uv_timer_init_spec L h :
  snd (uv_timer_init L h) = 0 /\
  timers (fst (uv_timer_init L h)) h
  = UvTimer None 0 0 (start_id (timers L h)) false false /\
  (forall x, x <> h -> timers (fst (uv_timer_init L h)) x = timers L x) /\
  timer_heap (fst (uv_timer_init L h)) = timer_heap L /\
  time (fst (uv_timer_init L h)) = time L /\
  timer_counter (fst (uv_timer_init L h)) = timer_counter L /\
  uv_timer_again (fst (uv_timer_init L h)) h
  = Some (fst (uv_timer_init L h), UV_EINVAL) /\
  uv_timer_stop (fst (uv_timer_init L h)) h = Some (fst (uv_timer_init L h), 0) /\
  (loop_inv L -> active (timers L h) = false -> loop_inv (fst (uv_timer_init L h))) /\
  (loop_inv L -> active (timers L h) = true -> ~ loop_inv (fst (uv_timer_init L h))).
Proof.
  destruct (uv_timer_init_fields L h) as (Th & To & Hh & Ht & Hc).
  split; [reflexivity|]. split; [exact Th|]. split; [exact To|].
  split; [exact Hh|]. split; [exact Ht|]. split; [exact Hc|].
  split; [|split; [|split]].
  - apply uv_timer_again_no_cb. rewrite Th. reflexivity.
  - apply uv_timer_stop_inactive. rewrite Th. reflexivity.
  - intros Hinv Ha. apply (loop_inv_ext L); [exact Hinv|exact Hh| |].
    + intro x. destruct (Pos.eq_dec x h) as [->|Hx].
      * rewrite Th, Ha. reflexivity.
      * rewrite To by assumption. reflexivity.
    + intros x Hx. assert (x <> h) by congruence.
      rewrite To by assumption. reflexivity.
  - intros Hinv Ha Hinv'.
    apply (loop_inv_reachable L h Hinv) in Ha.
    rewrite <- Hh in Ha. apply (loop_inv_reachable _ h Hinv') in Ha.
    rewrite Th in Ha. discriminate.
Qed.

(** Initialising a fresh handle beside a running timer keeps the loop
    consistent; initialising the running timer does not. *)
Lemma uv_timer_init_spec_witness :
  exists L1,
    uv_timer_start (set_time loop0 5) 1%positive (Some 1%positive) 10 0 = Some (L1, 0) /\
    loop_inv (fst (uv_timer_init L1 2%positive)) /\
    ~ loop_inv (fst (uv_timer_init L1 1%positive)).
Proof.
  destruct (uv_timer_start_ok (set_time loop0 5) 1%positive 1%positive 10 0
              (loop_inv_loop0 5) eq_refl (or_intror eq_refl))
    as (La & L1 & _ & _ & _ & _ & _ & _ & Es & _ & Th & To & _ & _ & _ & Hinv).
  exists L1. split; [exact Es|]. split.
  - destruct (uv_timer_init_spec L1 2%positive)
      as (_ & _ & _ & _ & _ & _ & _ & _ & Keep & _).
    apply (Keep Hinv). rewrite To by discriminate. reflexivity.
  - destruct (uv_timer_init_spec L1 1%positive)
      as (_ & _ & _ & _ & _ & _ & _ & _ & _ & Break).
    apply (Break Hinv). rewrite Th. reflexivity.
Defined.

(** ** [uv_timer_get_due_in] *)

(** X9. With the clock and the deadline in the range of [uint64_t],
    [uv_timer_get_due_in] is the time left to the deadline, 0 once the
    deadline is reached: it is max(0, timeout - time), a [uint64_t], zero
    exactly when the deadline has been reached, it does not grow as the
    clock advances, and for the handle at the root of the heap
    [uv__next_timeout] is the same value capped at INT_MAX. *)
Theorem uv_timer_get_due_in_spec L h :
  is_uint64 (time L) -> is_uint64 (timeout (timers L h)) ->
  uv_timer_get_due_in L h = Z.max 0 (timeout (timers L h) - time L) /\
  is_uint64 (uv_timer_get_due_in L h) /\
  (uv_timer_get_due_in L h = 0 <-> timeout (timers L h) <= time L) /\
  (forall t', is_uint64 t' -> time L <= t' ->
              uv_timer_get_due_in (set_time L t') h <= uv_timer_get_due_in L h) /\
  (heap_min (timer_heap L) = Some h ->
   uv__next_timeout L = Z.min (uv_timer_get_due_in L h) INT_MAX).
Proof.
  intros Ht Hd. unfold is_uint64 in *.
  assert (E : forall t, 0 <= t < 2 ^ 64 ->
              uv_timer_get_due_in (set_time L t) h = Z.max 0 (timeout (timers L h) - t)).
  { intros t Htr. unfold uv_timer_get_due_in. cbn [set_time time timers].
    destruct (Z.leb_spec (timeout (timers L h)) t).
    - lia.
    - unfold uint64. rewrite Z.mod_small by lia. lia. }
  assert (E0 : uv_timer_get_due_in L h = Z.max 0 (timeout (timers L h) - time L)).
  { rewrite <- (E (time L) Ht). destruct L; reflexivity. }
  split; [exact E0|]. split; [rewrite E0; lia|]. split; [rewrite E0; lia|].
  split.
  - intros t' Ht' Hle. rewrite (E t' Ht'), E0. lia.
  - intro Hmin. unfold uv__next_timeout. rewrite Hmin, E0.
    destruct (Z.leb_spec (timeout (timers L h)) (time L)).
    + unfold INT_MAX. lia.
    + cbv zeta. unfold uint64. rewrite Z.mod_small by lia.
      unfold to_int, INT_MAX.
      destruct (Z.ltb_spec (2 ^ 31 - 1) (timeout (timers L h) - time L)).
      * rewrite Z.mod_small by lia. lia.
      * rewrite Z.mod_small by lia. lia.
Qed.

Lemma uv_timer_get_due_in_spec_witness :
  exists L,
    uv_timer_start (set_time loop0 100) 1%positive (Some 1%positive) 30 0 = Some (L, 0) /\
    uv_timer_get_due_in (set_time L 110) 1%positive = Z.max 0 (130 - 110) /\
    uv__next_timeout (set_time L 110) = Z.min (uv_timer_get_due_in (set_time L 110) 1%positive) INT_MAX.
Proof.
  destruct (uv_timer_start (set_time loop0 100) 1%positive (Some 1%positive) 30 0)
    as [[L r]|] eqn:E; [|vm_compute in E; discriminate].
  vm_compute in E. injection E as <- <-.
  eexists. split; [reflexivity|].
  match goal with
  | |- uv_timer_get_due_in ?L0 ?h0 = _ /\ _ =>
      destruct (uv_timer_get_due_in_spec L0 h0) as (A & _ & _ & _ & B)
  end.
  - cbn [set_time time]. unfold is_uint64. lia.
  - cbn. unfold is_uint64. lia.
  - split; [exact A|]. apply B. reflexivity.
Defined.

(** ** [uv_timer_set_repeat] and [uv_timer_get_repeat] *)

Lemma loop_inv_set_repeat L h r : loop_inv L -> loop_inv (uv_timer_set_repeat L h r).
Proof.
  intro Hinv. destruct (uv_timer_set_repeat_fields L h r) as (Hh & _ & _ & To & Th).
  apply (loop_inv_ext L); [exact Hinv|exact Hh| |].
  - intro x. destruct (Pos.eq_dec x h) as [->|Hx].
    + rewrite Th. reflexivity.
    + rewrite To by assumption. reflexivity.
  - intros x _. destruct (Pos.eq_dec x h) as [->|Hx].
    + rewrite Th. reflexivity.
    + rewrite To by assumption. reflexivity.
Qed.

(** X10. [uv_timer_get_repeat] reads back what [uv_timer_set_repeat]
    stored, and only for that handle.  Setting the repeat changes no due
    time and not [uv__next_timeout], and keeps the loop consistent: a
    running timer keeps its deadline.  The new value is the delay the next
    [uv_timer_again] uses: for a nonzero repeat, on a handle with a
    callback that is not closing, the handle is then active with deadline
    [loop.time + repeat], saturated. *)
Theorem uv_timer_set_repeat_spec L h r :
  uv_timer_get_repeat (uv_timer_set_repeat L h r) h = r /\
  (forall x, x <> h ->
             uv_timer_get_repeat (uv_timer_set_repeat L h r) x = uv_timer_get_repeat L x) /\
  (forall x, uv_timer_get_due_in (uv_timer_set_repeat L h r) x = uv_timer_get_due_in L x) /\
  uv__next_timeout (uv_timer_set_repeat L h r) = uv__next_timeout L /\
  (loop_inv L -> loop_inv (uv_timer_set_repeat L h r)) /\
  (forall c,
     loop_inv L -> is_uint64 (time L) -> is_uint64 r -> r <> 0 ->
     timer_cb (timers L h) = Some c -> closing (timers L h) = false ->
     active (timers L h) = true \/ nelts (hp (timer_heap L)) < UINT_MAX ->
     exists L',
       uv_timer_again (uv_timer_set_repeat L h r) h = Some (L', 0) /\
       active (timers L' h) = true /\
       timeout (timers L' h) = clamp_deadline (time L) r /\
       uv_timer_get_repeat L' h = r /\
       loop_inv L').
Proof.
  destruct (uv_timer_set_repeat_fields L h r) as (Hh & Ht & Hc & To & Th).
  assert (Hto : forall x, timeout (timers (uv_timer_set_repeat L h r) x)
                          = timeout (timers L x)).
  { intro x. destruct (Pos.eq_dec x h) as [->|Hx].
    - rewrite Th. reflexivity.
    - rewrite To by assumption. reflexivity. }
  split; [|split; [|split; [|split; [|split]]]].
  - unfold uv_timer_get_repeat. rewrite Th. reflexivity.
  - intros x Hx. unfold uv_timer_get_repeat. rewrite To by assumption. reflexivity.
  - intro x. unfold uv_timer_get_due_in. rewrite Hto, Ht. reflexivity.
  - unfold uv__next_timeout. rewrite Hh, Ht.
    destruct (heap_min (timer_heap L)); [|reflexivity]. rewrite Hto. reflexivity.
  - apply loop_inv_set_repeat.
  - intros c Hinv Htr Hr Hr0 Hcb Hcl Hroom.
    set (L0 := uv_timer_set_repeat L h r) in *.
    assert (Hinv0 : loop_inv L0) by (apply loop_inv_set_repeat; exact Hinv).
    assert (Hcb0 : timer_cb (timers L0 h) = Some c) by (rewrite Th; exact Hcb).
    assert (Hrep0 : repeat (timers L0 h) = r) by (rewrite Th; reflexivity).
    assert (Hcl0 : closing (timers L0 h) = false) by (rewrite Th; exact Hcl).
    assert (Hroom0 : active (timers L0 h) = true \/ nelts (hp (timer_heap L0)) < UINT_MAX).
    { rewrite Th, Hh. exact Hroom. }
    destruct (uv_timer_start_ok L0 h c r r Hinv0 Hcl0 Hroom0)
      as (L1 & L' & _ & _ & _ & _ & _ & _ & Es & _ & Th' & _ & _ & _ & _ & Hinv').
    exists L'. split; [|split; [|split; [|split]]].
    + rewrite (uv_timer_again_start L0 h c Hcb0); [rewrite Hrep0; exact Es| |exact Hcl0].
      rewrite Hrep0. exact Hr0.
    + rewrite Th'. reflexivity.
    + rewrite Th'. cbn [timeout]. rewrite Ht.
      apply (proj1 (clamp_exact (time L) r Htr Hr)).
    + unfold uv_timer_get_repeat. rewrite Th'. reflexivity.
    + exact Hinv'.
Qed.

Lemma uv_timer_set_repeat_spec_witness :
  exists L1 L',
    uv_timer_start (set_time loop0 100) 1%positive (Some 1%positive) 30 0 = Some (L1, 0) /\
    uv_timer_again (uv_timer_set_repeat L1 1%positive 7) 1%positive = Some (L', 0) /\
    timeout (timers L' 1%positive) = clamp_deadline 100 7.
Proof.
  destruct (uv_timer_start_ok (set_time loop0 100) 1%positive 1%positive 30 0
              (loop_inv_loop0 100) eq_refl (or_intror eq_refl))
    as (L0 & L1 & _ & _ & _ & _ & _ & _ & Es & _ & Th & _ & Tm & _ & _ & Hinv).
  destruct (uv_timer_set_repeat_spec L1 1%positive 7) as (_ & _ & _ & _ & _ & H).
  destruct (H 1%positive Hinv) as (L' & Ea & _ & Hto & _).
  - rewrite Tm. cbn. unfold is_uint64. lia.
  - unfold is_uint64. lia.
  - lia.
  - rewrite Th. reflexivity.
  - rewrite Th. reflexivity.
  - left. rewrite Th. reflexivity.
  - exists L1, L'. split; [exact Es|]. split; [exact Ea|].
    rewrite Hto, Tm. reflexivity.
Defined.

(** ** Counting the active handles *)

Lemma loop_inv_count_le L L' h :
  loop_inv L -> loop_inv L' ->
  (forall x, active (timers L' x) = true -> x = h \/ active (timers L x) = true) ->
  nelts (hp (timer_heap L')) <= nelts (hp (timer_heap L)) + 1.
Proof.
  intros Hinv Hinv' Hsub.
  destruct (loop_inv_members L Hinv) as (m & ND & Len & Hm).
  destruct (loop_inv_members L' Hinv') as (m' & ND' & Len' & Hm').
  assert (length m' <= length (h :: m))%nat.
  { apply NoDup_incl_length; [exact ND'|].
    intros x Hx. apply Hm', Hsub in Hx. destruct Hx as [->|Hx].
    - left. reflexivity.
    - right. apply Hm, Hx. }
  cbn [length] in H. unfold ptr in *. lia.
Qed.

Lemma loop_inv_count_eq L L' :
  loop_inv L -> loop_inv L' ->
  (forall x, active (timers L' x) = true <-> active (timers L x) = true) ->
  nelts (hp (timer_heap L')) = nelts (hp (timer_heap L)).
Proof.
  intros Hinv Hinv' Hsame.
  destruct (loop_inv_members L Hinv) as (m & ND & Len & Hm).
  destruct (loop_inv_members L' Hinv') as (m' & ND' & Len' & Hm').
  assert (P : Permutation m' m).
  { apply NoDup_Permutation; [exact ND'|exact ND|].
    intro x. rewrite Hm', Hm. apply Hsame. }
  apply Permutation_length in P. unfold ptr in *. lia.
Qed.

(** ** What each call leaves, on a consistent loop *)

Lemma stop_total L h :
  loop_inv L ->
  exists L',
    uv_timer_stop L h = Some (L', 0) /\
    loop_inv L' /\
    active (timers L' h) = false /\ ~ reachable (timer_heap L') h /\
    (forall x, x <> h -> timers L' x = timers L x) /\
    timers L' h = UvTimer (timer_cb (timers L h)) (timeout (timers L h))
                    (repeat (timers L h)) (start_id (timers L h)) false
                    (closing (timers L h)) /\
    (forall x, reachable (timer_heap L') x <-> reachable (timer_heap L) x /\ x <> h).
Proof.
  intros Hinv. destruct (active (timers L h)) eqn:Ha.
  - destruct (uv_timer_stop_effect L h Hinv Ha)
      as (L' & Es & _ & Ha' & Hnr & Hr & Hn & To & Th & Tm & Tc & Hinv').
    exists L'. auto 10.
  - exists L. split; [apply uv_timer_stop_inactive; exact Ha|].
    split; [exact Hinv|]. split; [exact Ha|].
    assert (Hnr : ~ reachable (timer_heap L) h).
    { intro R. apply (loop_inv_reachable L h Hinv) in R. congruence. }
    split; [exact Hnr|]. split; [auto|]. split.
    { rewrite <- Ha. destruct (timers L h); reflexivity. }
    intro x. split; [|tauto]. intro R. split; [exact R|]. intros ->. contradiction.
Qed.

Lemma stop_safe L h :
  loop_inv L -> cb_inv L ->
  exists L',
    uv_timer_stop L h = Some (L', 0) /\
    loop_inv L' /\ cb_inv L' /\
    nelts (hp (timer_heap L')) <= nelts (hp (timer_heap L)) /\
    active (timers L' h) = false /\ ~ reachable (timer_heap L') h /\
    (forall x, x <> h -> timers L' x = timers L x) /\
    timers L' h = UvTimer (timer_cb (timers L h)) (timeout (timers L h))
                    (repeat (timers L h)) (start_id (timers L h)) false
                    (closing (timers L h)) /\
    time L' = time L /\ timer_counter L' = timer_counter L /\
    (forall x, reachable (timer_heap L') x <-> reachable (timer_heap L) x /\ x <> h).
Proof.
  intros Hinv Hcb. destruct (active (timers L h)) eqn:Ha.
  - destruct (uv_timer_stop_effect L h Hinv Ha)
      as (L' & Es & _ & Ha' & Hnr & Hr & Hn & To & Th & Tm & Tc & Hinv').
    exists L'. split; [exact Es|]. split; [exact Hinv'|]. split.
    { intros x Hx. destruct (Pos.eq_dec x h) as [->|Hne]; [congruence|].
      rewrite To in * by assumption. apply Hcb, Hx. }
    split; [lia|]. auto 10.
  - exists L. split; [apply uv_timer_stop_inactive; exact Ha|].
    split; [exact Hinv|]. split; [exact Hcb|]. split; [lia|]. split; [exact Ha|].
    assert (Hnr : ~ reachable (timer_heap L) h).
    { intro R. apply (loop_inv_reachable L h Hinv) in R. congruence. }
    split; [exact Hnr|]. split; [auto|]. split.
    { rewrite <- Ha. destruct (timers L h); reflexivity. }
    split; [reflexivity|]. split; [reflexivity|].
    intro x. split; [|tauto]. intro R. split; [exact R|]. intros ->. contradiction.
Qed.

Lemma start_safe L h cb t r :
  loop_inv L -> cb_inv L ->
  active (timers L h) = true \/ nelts (hp (timer_heap L)) < UINT_MAX ->
  exists L' rc,
    uv_timer_start L h cb t r = Some (L', rc) /\
    loop_inv L' /\ cb_inv L' /\
    nelts (hp (timer_heap L')) <= nelts (hp (timer_heap L)) + 1 /\
    ((rc = UV_EINVAL /\ L' = L /\ (closing (timers L h) = true \/ cb = None)) \/
     (rc = 0 /\ closing (timers L h) = false /\
      exists c, cb = Some c /\
        timers L' h =
          UvTimer (Some c)
            (let clamped_timeout := uint64 (time L + t) in
             if clamped_timeout <? t then uint64 (-1) else clamped_timeout)
            r (timer_counter L) true false)).
Proof.
  intros Hinv Hcb Hroom.
  destruct (closing (timers L h)) eqn:Hcl.
  { exists L, UV_EINVAL. split; [apply uv_timer_start_invalid; auto|].
    split; [exact Hinv|]. split; [exact Hcb|]. split; [lia|]. left. auto. }
  destruct cb as [c|].
  2:{ exists L, UV_EINVAL. split; [apply uv_timer_start_invalid; auto|].
      split; [exact Hinv|]. split; [exact Hcb|]. split; [lia|]. left. auto. }
  destruct (uv_timer_start_ok L h c t r Hinv Hcl Hroom)
    as (L1 & L' & _ & _ & _ & _ & _ & _ & Es & _ & Th & To & _ & _ & _ & Hinv').
  exists L', 0. split; [exact Es|]. split; [exact Hinv'|]. split; [|split].
  - intros x Hx. destruct (Pos.eq_dec x h) as [->|Hne].
    + rewrite Th. discriminate.
    + rewrite To in * by assumption. apply Hcb, Hx.
  - apply (loop_inv_count_le L L' h Hinv Hinv').
    intros x Hx. destruct (Pos.eq_dec x h) as [->|Hne]; [left; reflexivity|].
    right. rewrite To in Hx by assumption. exact Hx.
  - right. split; [reflexivity|]. split; [reflexivity|]. exists c. auto.
Qed.

Lemma again_safe L h :
  loop_inv L -> cb_inv L ->
  active (timers L h) = true \/ nelts (hp (timer_heap L)) < UINT_MAX ->
  exists L' rc,
    uv_timer_again L h = Some (L', rc) /\
    loop_inv L' /\ cb_inv L' /\
    nelts (hp (timer_heap L')) <= nelts (hp (timer_heap L)) + 1.
Proof.
  intros Hinv Hcb Hroom.
  destruct (timer_cb (timers L h)) as [c|] eqn:Hc.
  2:{ exists L, UV_EINVAL. split; [apply uv_timer_again_no_cb; exact Hc|].
      split; [exact Hinv|]. split; [exact Hcb|]. lia. }
  destruct (Z.eq_dec (repeat (timers L h)) 0) as [Hr|Hr].
  { exists L, 0. split; [apply uv_timer_again_no_repeat; congruence|].
    split; [exact Hinv|]. split; [exact Hcb|]. lia. }
  destruct (closing (timers L h)) eqn:Hcl.
  - destruct (uv_timer_again_closing L h c Hinv Hc Hr Hcl) as (L' & Ea & Es & _).
    destruct (stop_safe L h Hinv Hcb) as (L1 & Es1 & Hinv1 & Hcb1 & Hn1 & _).
    rewrite Es in Es1. injection Es1 as <-.
    exists L', 0. split; [exact Ea|]. split; [exact Hinv1|]. split; [exact Hcb1|]. lia.
  - rewrite (uv_timer_again_start L h c Hc Hr Hcl).
    destruct (start_safe L h (Some c) (repeat (timers L h)) (repeat (timers L h))
                Hinv Hcb Hroom) as (L' & rc & Es & Hinv' & Hcb' & Hn & _).
    exists L', rc. auto.
Qed.

Lemma run_timer_op_safe L op :
  loop_inv L -> cb_inv L -> nelts (hp (timer_heap L)) < UINT_MAX ->
  exists L',
    run_timer_op L op = Some L' /\ loop_inv L' /\ cb_inv L' /\
    nelts (hp (timer_heap L')) <= nelts (hp (timer_heap L)) + 1.
Proof.
  intros Hinv Hcb Hroom. destruct op as [h cb t r|h|h|h r|h]; cbn [run_timer_op].
  - destruct (start_safe L h cb t r Hinv Hcb (or_intror Hroom))
      as (L' & rc & Es & Hinv' & Hcb' & Hn & _).
    rewrite Es. exists L'. auto.
  - destruct (stop_safe L h Hinv Hcb) as (L' & Es & Hinv' & Hcb' & Hn & _).
    rewrite Es. exists L'. split; [reflexivity|]. split; [exact Hinv'|].
    split; [exact Hcb'|]. lia.
  - destruct (again_safe L h Hinv Hcb (or_intror Hroom))
      as (L' & rc & Es & Hinv' & Hcb' & Hn).
    rewrite Es. exists L'. auto.
  - exists (uv_timer_set_repeat L h r). split; [reflexivity|].
    destruct (uv_timer_set_repeat_fields L h r) as (Hh & _ & _ & To & Th).
    split; [apply loop_inv_set_repeat; exact Hinv|]. split.
    + intros x Hx. destruct (Pos.eq_dec x h) as [->|Hne].
      * rewrite Th in *. cbn [active timer_cb] in *. apply Hcb, Hx.
      * rewrite To in * by assumption. apply Hcb, Hx.
    + rewrite Hh. lia.
  - unfold uv__timer_close.
    destruct (stop_safe L h Hinv Hcb) as (L' & Es & Hinv' & Hcb' & Hn & _).
    rewrite Es. exists L'. split; [reflexivity|]. split; [exact Hinv'|].
    split; [exact Hcb'|]. lia.
Qed.

(** X11. On a consistent loop with room in the heap, [uv_timer_start]
    returns 0 or UV_EINVAL; UV_EINVAL exactly when the handle is closing or
    the callback is NULL, and then nothing is changed, an active handle
    staying in the heap with its old deadline.  When it returns 0 the
    handle is active with the given callback and repeat, and the loop is
    consistent. *)
Theorem uv_timer_start_result L h cb t r :
  loop_inv L ->
  active (timers L h) = true \/ nelts (hp (timer_heap L)) < UINT_MAX ->
  exists L' rc,
    uv_timer_start L h cb t r = Some (L', rc) /\
    (rc = 0 \/ rc = UV_EINVAL) /\
    (rc = UV_EINVAL <-> closing (timers L h) = true \/ cb = None) /\
    (rc = UV_EINVAL -> L' = L) /\
    (rc = 0 ->
     active (timers L' h) = true /\ timer_cb (timers L' h) = cb /\
     repeat (timers L' h) = r /\ start_id (timers L' h) = timer_counter L) /\
    loop_inv L'.
Proof.
  intros Hinv Hroom.
  destruct (closing (timers L h)) eqn:Hcl.
  { exists L, UV_EINVAL. split; [apply uv_timer_start_invalid; auto|].
    split; [auto|]. split; [tauto|]. split; [auto|]. split; [discriminate|exact Hinv]. }
  destruct cb as [c|].
  2:{ exists L, UV_EINVAL. split; [apply uv_timer_start_invalid; auto|].
      split; [auto|]. split; [tauto|]. split; [auto|]. split; [discriminate|exact Hinv]. }
  destruct (uv_timer_start_ok L h c t r Hinv Hcl Hroom)
    as (L1 & L' & _ & _ & _ & _ & _ & _ & Es & _ & Th & To & _ & _ & _ & Hinv').
  exists L', 0. split; [exact Es|]. split; [auto|]. split.
  { split; [discriminate|]. intros [?|?]; discriminate. }
  split; [discriminate|]. split; [|exact Hinv'].
  intros _. rewrite Th. auto.
Qed.

(** On a loop that holds a running timer: a second timer is accepted, a
    start without a callback is refused and changes nothing. *)
Lemma uv_timer_start_result_witness :
  exists L1,
    uv_timer_start (set_time loop0 5) 1%positive (Some 1%positive) 10 0 = Some (L1, 0) /\
    (exists L2,
       uv_timer_start L1 2%positive (Some 1%positive) 3 7 = Some (L2, 0) /\
       active (timers L2 2%positive) = true /\ repeat (timers L2 2%positive) = 7 /\
       loop_inv L2) /\
    uv_timer_start L1 1%positive None 3 7 = Some (L1, UV_EINVAL).
Proof.
  destruct running_timer as (L1 & Es & Hinv & Th & To & _ & Hroom & _).
  exists L1. split; [exact Es|]. split.
  - destruct (uv_timer_start_result L1 2%positive (Some 1%positive) 3 7 Hinv
                (or_intror Hroom))
      as (L2 & rc & E & Hrc & Hiff & _ & Hok & Hinv2).
    assert (rc = 0).
    { destruct Hrc as [H|H]; [exact H|]. apply Hiff in H.
      rewrite To in H by discriminate. destruct H as [H|H]; discriminate H. }
    subst rc. destruct (Hok eq_refl) as (A & _ & R & _).
    exists L2. auto.
  - destruct (uv_timer_start_result L1 1%positive None 3 7 Hinv (or_intror Hroom))
      as (L2 & rc & E & _ & Hiff & Hsame & _).
    assert (rc = UV_EINVAL) by (apply Hiff; right; reflexivity).
    subst rc. rewrite (Hsame eq_refl) in E. exact E.
Defined.

(** X12. Progress and preservation for the timer API: from a consistent
    loop whose active handles have callbacks, any sequence of
    [uv_timer_start], [uv_timer_stop], [uv_timer_again],
    [uv_timer_set_repeat] and [uv__timer_close] calls, with any arguments
    on any handles, runs to the end without dereferencing NULL, and leaves
    a consistent loop whose active handles have callbacks, as long as the
    heap count cannot pass UINT_MAX; each call adds at most one node. *)
Theorem timer_ops_safe L ops :
  loop_inv L -> cb_inv L ->
  nelts (hp (timer_heap L)) + Z.of_nat (length ops) <= UINT_MAX ->
  exists L',
    run_timer_ops L ops = Some L' /\ loop_inv L' /\ cb_inv L' /\
    nelts (hp (timer_heap L')) <= nelts (hp (timer_heap L)) + Z.of_nat (length ops).
Proof.
  revert L. induction ops as [|op ops IH]; intros L Hinv Hcb Hroom.
  - exists L. cbn [run_timer_ops length]. split; [reflexivity|]. split; [exact Hinv|].
    split; [exact Hcb|]. lia.
  - cbn [length] in *. rewrite Nat2Z.inj_succ in *.
    destruct (run_timer_op_safe L op Hinv Hcb ltac:(lia)) as (L1 & E1 & Hinv1 & Hcb1 & Hn1).
    destruct (IH L1 Hinv1 Hcb1 ltac:(lia)) as (L' & E' & Hinv' & Hcb' & Hn').
    exists L'. cbn [run_timer_ops]. rewrite E1. cbn [bind]. split; [exact E'|].
    split; [exact Hinv'|]. split; [exact Hcb'|]. lia.
Qed.

Lemma timer_ops_safe_witness :
  exists L',
    run_timer_ops (set_time loop0 5)
      [OpStart 1%positive (Some 1%positive) 10 3; OpAgain 2%positive;
       OpStart 2%positive (Some 1%positive) 4 0; OpSetRepeat 2%positive 9;
       OpAgain 2%positive; OpStop 1%positive; OpClose 1%positive;
       OpStart 3%positive None 0 0] = Some L' /\
    loop_inv L' /\ cb_inv L'.
Proof.
  destruct (timer_ops_safe (set_time loop0 5)
      [OpStart 1%positive (Some 1%positive) 10 3; OpAgain 2%positive;
       OpStart 2%positive (Some 1%positive) 4 0; OpSetRepeat 2%positive 9;
       OpAgain 2%positive; OpStop 1%positive; OpClose 1%positive;
       OpStart 3%positive None 0 0] (loop_inv_loop0 5))
    as (L' & E & I & C & _).
  - intros h Hh. discriminate Hh.
  - vm_compute. discriminate.
  - exists L'. auto.
Defined.

(** X13. [uv__timer_close] is [uv_timer_stop] without its return value.
    On a consistent loop it leaves the handle inactive and its node out of
    the heap, whether or not the timer was running; no (timeout, start_id)
    key and no repeat changes; the loop stays consistent; and closing or
    stopping again changes nothing. *)
Theorem uv__timer_close_spec L h :
  loop_inv L ->
  exists L',
    uv__timer_close L h = Some L' /\
    uv_timer_stop L h = Some (L', 0) /\
    active (timers L' h) = false /\ ~ reachable (timer_heap L') h /\
    (forall x, reachable (timer_heap L') x <-> reachable (timer_heap L) x /\ x <> h) /\
    (forall x, timer_key (timers L' x) = timer_key (timers L x)) /\
    (forall x, uv_timer_get_repeat L' x = uv_timer_get_repeat L x) /\
    loop_inv L' /\
    uv__timer_close L' h = Some L' /\
    uv_timer_stop L' h = Some (L', 0).
Proof.
  intros Hinv.
  destruct (stop_total L h Hinv)
    as (L' & Es & Hinv' & Ha & Hnr & To & Th & Hr).
  pose proof (uv_timer_stop_inactive L' h Ha) as Es'.
  exists L'. split; [unfold uv__timer_close; rewrite Es; reflexivity|].
  split; [exact Es|]. split; [exact Ha|]. split; [exact Hnr|]. split; [exact Hr|].
  split; [|split; [|split; [exact Hinv'|split]]].
  - intro x. destruct (Pos.eq_dec x h) as [->|Hne].
    + rewrite Th. reflexivity.
    + rewrite To by assumption. reflexivity.
  - intro x. unfold uv_timer_get_repeat. destruct (Pos.eq_dec x h) as [->|Hne].
    + rewrite Th. reflexivity.
    + rewrite To by assumption. reflexivity.
  - unfold uv__timer_close. rewrite Es'. reflexivity.
  - exact Es'.
Qed.

Lemma uv__timer_close_spec_witness :
  exists L1 L',
    uv_timer_start (set_time loop0 5) 1%positive (Some 1%positive) 10 3 = Some (L1, 0) /\
    uv__timer_close L1 1%positive = Some L' /\
    active (timers L' 1%positive) = false /\
    uv__timer_close L' 1%positive = Some L'.
Proof.
  destruct (start_safe (set_time loop0 5) 1%positive (Some 1%positive) 10 3
              (loop_inv_loop0 5)) as (L1 & rc & Es & Hinv & Hcb & _ & [(E & _)|(E & _)]).
  - intros h Hh. discriminate Hh.
  - right. reflexivity.
  - exfalso. subst rc. vm_compute in Es. discriminate Es.
  - subst rc.
    destruct (uv__timer_close_spec L1 1%positive Hinv)
      as (L' & Ec & _ & Ha & _ & _ & _ & _ & _ & Ec' & _).
    exists L1, L'. auto.
Defined.

(** ** Equal deadlines fire in start order *)

(** What an accepted [uv_timer_start] stores, whatever the heap holds. *)
Lemma uv_timer_start_fields L h cb t r L' :
  uv_timer_start L h cb t r = Some (L', 0) ->
  timers L' h =
    UvTimer cb
      (let clamped_timeout := uint64 (time L + t) in
       if clamped_timeout <? t then uint64 (-1) else clamped_timeout)
      r (timer_counter L) true false /\
  time L' = time L /\
  timer_counter L' = uint64 (timer_counter L + 1).
Proof.
  intro E.
  destruct (closing (timers L h)) eqn:Hcl.
  { rewrite uv_timer_start_invalid in E by auto. discriminate E. }
  destruct cb as [c|].
  2:{ rewrite uv_timer_start_invalid in E by auto. discriminate E. }
  rewrite (uv_timer_start_eq L h c t r Hcl) in E.
  destruct (if active (timers L h) then uv_timer_stop L h else Some (L, 0))
    as [[L1 r1]|] eqn:Es; [|discriminate E].
  assert (K : time L1 = time L /\ timer_counter L1 = timer_counter L /\
              closing (timers L1 h) = false).
  { destruct (active (timers L h)).
    - destruct (key_uv_timer_stop L h L1 r1 Es) as (_ & F & Tm & Tc & _).
      destruct (F h) as (_ & _ & C). rewrite C. auto.
    - injection Es as <- <-. auto. }
  destruct K as (Tm & Tc & Cl).
  cbn [bind] in E. cbv zeta in E.
  match type of E with
  | (m <- ?hi ;; _) = _ => destruct hi as [m|]; [|discriminate E]
  end.
  cbn [bind] in E. injection E as <-.
  split; [|split].
  - timers_rw. rewrite !Pos.eqb_refl. cbn [timer_cb timeout repeat start_id active closing].
    rewrite Tm, Tc, Cl. reflexivity.
  - timers_rw. exact Tm.
  - timers_rw. rewrite Tc. reflexivity.
Qed.

(** X14. Two timers started one after the other for the same deadline are
    ordered by their start: the second gets the next [start_id] and
    [timer_less_than] puts the first before it, so the first fires first;
    unless the 64-bit [timer_counter] wraps between the two calls, where
    the second gets [start_id] 0 and is put before the first. *)
Theorem equal_deadline_fifo L h1 h2 cb1 cb2 t r1 r2 L1 L2 :
  uv_timer_start L h1 cb1 t r1 = Some (L1, 0) ->
  uv_timer_start L1 h2 cb2 t r2 = Some (L2, 0) ->
  h1 <> h2 -> is_uint64 (timer_counter L) ->
  timeout (timers L2 h1) = timeout (timers L2 h2) /\
  start_id (timers L2 h1) = timer_counter L /\
  (timer_counter L < UINT64_MAX ->
   start_id (timers L2 h2) = timer_counter L + 1 /\
   timer_less_than (timers L2) h1 h2 = true /\
   timer_less_than (timers L2) h2 h1 = false) /\
  (timer_counter L = UINT64_MAX ->
   start_id (timers L2 h2) = 0 /\
   timer_less_than (timers L2) h2 h1 = true).
Proof.
  intros E1 E2 Hne Hc.
  destruct (uv_timer_start_fields _ _ _ _ _ _ E1) as (T1 & Tm1 & Tc1).
  destruct (uv_timer_start_fields _ _ _ _ _ _ E2) as (T2 & Tm2 & Tc2).
  pose proof (uv_timer_start_others _ _ _ _ _ _ _ E2 h1 Hne) as T21.
  assert (K1 : timer_key (timers L2 h1) =
               ((let clamped_timeout := uint64 (time L + t) in
                 if clamped_timeout <? t then uint64 (-1) else clamped_timeout),
                timer_counter L)).
  { rewrite T21, T1. reflexivity. }
  assert (K2 : timer_key (timers L2 h2) =
               ((let clamped_timeout := uint64 (time L + t) in
                 if clamped_timeout <? t then uint64 (-1) else clamped_timeout),
                uint64 (timer_counter L + 1))).
  { rewrite T2, Tm1, Tc1. reflexivity. }
  unfold timer_key in K1, K2. injection K1 as K1a K1b. injection K2 as K2a K2b.
  unfold is_uint64, UINT64_MAX in *.
  split; [congruence|]. split; [exact K1b|]. split.
  - intro Hlt.
    assert (S2 : start_id (timers L2 h2) = timer_counter L + 1).
    { rewrite K2b. unfold uint64. apply Z.mod_small. lia. }
    split; [exact S2|]. split.
    + apply timer_less_than_iff. unfold key_lt, timer_key. cbn [fst snd].
      right. split; [congruence|lia].
    + apply timer_less_than_false. unfold key_lt, timer_key. cbn [fst snd].
      rewrite K1a, K2a. lia.
  - intro Hmax.
    assert (S2 : start_id (timers L2 h2) = 0).
    { rewrite K2b, Hmax. reflexivity. }
    split; [exact S2|].
    apply timer_less_than_iff. unfold key_lt, timer_key. cbn [fst snd].
    right. split; [congruence|lia].
Qed.

Lemma equal_deadline_fifo_witness :
  exists L1 L2,
    uv_timer_start (set_time loop0 5) 1%positive (Some 1%positive) 10 0 = Some (L1, 0) /\
    uv_timer_start L1 2%positive (Some 1%positive) 10 0 = Some (L2, 0) /\
    timer_less_than (timers L2) 1%positive 2%positive = true.
Proof.
  destruct (uv_timer_start (set_time loop0 5) 1%positive (Some 1%positive) 10 0)
    as [[L1 rc1]|] eqn:E1; [|vm_compute in E1; discriminate].
  assert (rc1 = 0) by (vm_compute in E1; congruence). subst rc1.
  destruct (uv_timer_start L1 2%positive (Some 1%positive) 10 0)
    as [[L2 rc2]|] eqn:E2;
    [|vm_compute in E1; injection E1 as <-; vm_compute in E2; discriminate].
  assert (rc2 = 0)
    by (vm_compute in E1; injection E1 as <-; vm_compute in E2; congruence).
  subst rc2.
  destruct (equal_deadline_fifo _ _ _ _ _ _ _ _ _ _ E1 E2) as (_ & _ & A & _).
  - discriminate.
  - cbn. unfold is_uint64. lia.
  - exists L1, L2. split; [reflexivity|]. split; [exact E2|].
    apply A. cbn. reflexivity.
Defined.

(** ** Restarting, and starting then stopping *)

(** X15. [uv_timer_start] on a handle that is already active moves it: the
    call succeeds even when the heap is full, the heap holds the same
    handles and the same count afterwards, the handle has the new
    saturated deadline and a fresh [start_id], no other handle changes,
    and the loop stays consistent. *)
Theorem uv_timer_restart L h c t r :
  loop_inv L -> is_uint64 (time L) -> is_uint64 t ->
  active (timers L h) = true -> closing (timers L h) = false ->
  exists L',
    uv_timer_start L h (Some c) t r = Some (L', 0) /\
    nelts (hp (timer_heap L')) = nelts (hp (timer_heap L)) /\
    (forall x, reachable (timer_heap L') x <-> reachable (timer_heap L) x) /\
    timeout (timers L' h) = clamp_deadline (time L) t /\
    start_id (timers L' h) = timer_counter L /\
    (forall x, x <> h -> timers L' x = timers L x) /\
    loop_inv L'.
Proof.
  intros Hinv Htm Ht Ha Hcl.
  destruct (uv_timer_start_ok L h c t r Hinv Hcl (or_introl Ha))
    as (L1 & L' & _ & _ & _ & _ & _ & _ & Es & _ & Th & To & _ & _ & Hr & Hinv').
  exists L'. split; [exact Es|]. split; [|split; [|split; [|split; [|split]]]].
  - apply (loop_inv_count_eq L L' Hinv Hinv').
    intro x. destruct (Pos.eq_dec x h) as [->|Hne].
    + rewrite Th, Ha. tauto.
    + rewrite To by assumption. tauto.
  - intro x. rewrite Hr. split; [|tauto].
    intros [->|R]; [|exact R]. apply (loop_inv_reachable L h Hinv). exact Ha.
  - rewrite Th. cbn [timeout]. apply (proj1 (clamp_exact (time L) t Htm Ht)).
  - rewrite Th. reflexivity.
  - exact To.
  - exact Hinv'.
Qed.

Lemma uv_timer_restart_witness :
  exists L1 L',
    uv_timer_start (set_time loop0 5) 1%positive (Some 1%positive) 10 0 = Some (L1, 0) /\
    uv_timer_start L1 1%positive (Some 1%positive) 20 0 = Some (L', 0) /\
    nelts (hp (timer_heap L')) = nelts (hp (timer_heap L1)) /\
    timeout (timers L' 1%positive) = clamp_deadline 5 20.
Proof.
  destruct (uv_timer_start_ok (set_time loop0 5) 1%positive 1%positive 10 0
              (loop_inv_loop0 5) eq_refl (or_intror eq_refl))
    as (L0 & L1 & _ & _ & _ & _ & _ & _ & Es & _ & Th & _ & Tm & _ & _ & Hinv).
  destruct (uv_timer_restart L1 1%positive 1%positive 20 0 Hinv)
    as (L' & Es' & Hn & _ & Hto & _).
  - rewrite Tm. cbn. unfold is_uint64. lia.
  - unfold is_uint64. lia.
  - rewrite Th. reflexivity.
  - rewrite Th. reflexivity.
  - exists L1, L'. split; [exact Es|]. split; [exact Es'|]. split; [exact Hn|].
    rewrite Hto, Tm. reflexivity.
Defined.



(** ** The loop after one pass of [uv__run_timers] *)

Lemma no_due_exit U (callbacks : cb_id -> ptr -> uv_loop * U -> option (uv_loop * U))
      L fuel u :
  loop_inv L -> (forall h, ~ due L h) ->
  uv__run_timers U callbacks fuel (L, u) = Some (L, u).
Proof.
  intros Hinv Hnone. apply run_timers_exit.
  destruct (heap_min (timer_heap L)) as [h|] eqn:Hmin; [|auto].
  right. exists h. split; [reflexivity|].
  destruct (loop_inv_min L h Hinv Hmin) as [Ha _].
  destruct (Z.lt_ge_cases (time L) (timeout (timers L h))); [assumption|].
  exfalso. apply (Hnone h). split; [assumption|lia].
Qed.

(** X17. One pass of [uv__run_timers] with callbacks that only log, on a
    consistent loop before the end of time whose active handles have
    callbacks and are restartable: the pass ends after at most as many
    firings as the heap has nodes; it fires the due handles and only
    them; afterwards no handle is due, so a second pass does nothing; a
    handle that was not due is untouched; a fired handle with repeat 0 is
    left inactive with its other fields as they were, and one with a
    nonzero repeat is active again with deadline [loop.time + repeat],
    saturated, which is after [loop.time]; the clock is unchanged and the
    loop is consistent. *)
Theorem run_timers_pass L log0 :
  loop_inv L -> cb_inv L -> restartable L ->
  is_uint64 (time L) -> time L < UINT64_MAX ->
  exists L' log,
    uv__run_timers (list ptr) log_cb (Z.to_nat (nelts (hp (timer_heap L)))) (L, log0)
    = Some (L', log0 ++ log) /\
    (Z.of_nat (length log) <= nelts (hp (timer_heap L))) /\
    (forall h, In h log <-> due L h) /\
    (forall h, ~ due L' h) /\
    (forall fuel u, uv__run_timers (list ptr) log_cb fuel (L', u) = Some (L', u)) /\
    (forall h, ~ due L h -> timers L' h = timers L h) /\
    (forall h, due L h -> fired_state L h (timers L' h)) /\
    (forall h, due L h -> repeat (timers L h) <> 0 ->
               active (timers L' h) = true /\ time L' < timeout (timers L' h)) /\
    time L' = time L /\
    loop_inv L'.
Proof.
  intros Hinv Hcb Hre Ht Htmax.
  destruct (run_timers_order L log0 Hinv Hcb Hre Ht Htmax)
    as (L' & log & E & Hin & ND & _ & Hinv' & Hnone & Hsame & Hfired & Tm).
  exists L', log. split; [exact E|]. split.
  { pose proof (due_bound L log Hinv ND (fun x Hx => proj1 (Hin x) Hx)) as B.
    pose proof (loop_inv_nelts L Hinv). lia. }
  split; [exact Hin|]. split; [exact Hnone|]. split.
  { intros fuel u. apply no_due_exit; assumption. }
  split; [exact Hsame|]. split; [exact Hfired|]. split; [|split; [exact Tm|exact Hinv']].
  intros h Hd Hr. pose proof (Hfired h Hd) as F. unfold fired_state in F.
  destruct (Z.eqb_spec (repeat (timers L h)) 0) as [|_]; [contradiction|].
  destruct F as (sid & F). rewrite F. cbn [active timeout]. split; [reflexivity|].
  destruct (Hre h (proj1 Hd)) as [Hrr _].
  rewrite Tm. unfold clamp_deadline, is_uint64, UINT64_MAX in *.
  destruct (Z.leb_spec (time L + repeat (timers L h)) (2 ^ 64 - 1)); lia.
Qed.

Lemma run_timers_pass_witness :
  exists L1 L' log,
    uv_timer_start (set_time loop0 5) 1%positive (Some 1%positive) 10 3 = Some (L1, 0) /\
    uv__run_timers (list ptr) log_cb
      (Z.to_nat (nelts (hp (timer_heap (set_time L1 20))))) (set_time L1 20, [])
    = Some (L', [] ++ log) /\
    (forall h, ~ due L' h) /\ loop_inv L'.
Proof.
  destruct (start_safe (set_time loop0 5) 1%positive (Some 1%positive) 10 3
              (loop_inv_loop0 5)) as (L1 & rc & Es & Hinv & Hcb & _ & [(E & _)|(E & _ & c & Ec & Th)]).
  - intros h Hh. discriminate Hh.
  - right. reflexivity.
  - exfalso. subst rc. vm_compute in Es. discriminate Es.
  - subst rc.
    pose proof (uv_timer_start_others _ _ _ _ _ _ _ Es) as To.
    destruct (run_timers_pass (set_time L1 20) []) as (L' & log & E & _ & _ & N & _ & _ & _ & _ & _ & I).
    + apply (loop_inv_ext L1); [exact Hinv|reflexivity|reflexivity|reflexivity].
    + intros h Hh. apply (Hcb h). exact Hh.
    + intros h Hh. change (timers (set_time L1 20) h) with (timers L1 h) in *.
      destruct (Pos.eq_dec h 1%positive) as [->|Hne].
      * rewrite Th. cbn [repeat closing]. unfold is_uint64. split; [lia|reflexivity].
      * rewrite To in * by assumption. discriminate Hh.
    + cbn. unfold is_uint64. lia.
    + cbn. reflexivity.
    + exists L1, L', log. auto.
Defined.

(** ** [uv__next_timeout] and [uv__run_timers] *)



(** ** Callbacks that use the timer API *)

Lemma no_due_at_exit L :
  loop_inv L ->
  heap_min (timer_heap L) = None \/
  (exists h, heap_min (timer_heap L) = Some h /\ time L < timeout (timers L h)) ->
  forall x, ~ due L x.
Proof.
  intros Hinv [Hmin|(h & Hmin & Hlt)] x [Hx Hdx].
  - rewrite (loop_inv_empty_heap L Hinv Hmin x) in Hx. discriminate.
  - destruct (loop_inv_min L h Hinv Hmin) as [_ Hleast].
    pose proof (proj1 (before_or_equiv_key _ _ _) (Hleast x Hx)) as K.
    unfold key_le, key_lt, timer_key in K. cbn [fst snd] in K. lia.
Qed.

(** X19. [uv__run_timers] keeps the loop consistent when the callbacks
    do: if every callback, called on a consistent loop whose active
    handles have callbacks, returns such a loop (as callbacks that start,
    stop and restart timers through the API do), then whenever a pass
    ends, the loop is consistent, its active handles have callbacks, and
    no handle is due any more. *)
Theorem run_timers_preserves U
    (callbacks : cb_id -> ptr -> uv_loop * U -> option (uv_loop * U)) :
  (forall cb h L u L' u',
     loop_inv L -> cb_inv L -> callbacks cb h (L, u) = Some (L', u') ->
     loop_inv L' /\ cb_inv L') ->
  forall fuel L u L' u',
    loop_inv L -> cb_inv L ->
    uv__run_timers U callbacks fuel (L, u) = Some (L', u') ->
    loop_inv L' /\ cb_inv L' /\ (forall h, ~ due L' h).
Proof.
  intros callbacks_keep fuel.
  induction fuel as [|fuel IH]; intros L u L' u' Hinv Hcb Hrun.
  - cbn [uv__run_timers] in Hrun.
    destruct (heap_min (timer_heap L)) as [h|] eqn:Hmin.
    + destruct (Z.ltb_spec (time L) (timeout (timers L h))); [|discriminate Hrun].
      injection Hrun as <- <-. split; [exact Hinv|]. split; [exact Hcb|].
      apply no_due_at_exit; eauto.
    + injection Hrun as <- <-. split; [exact Hinv|]. split; [exact Hcb|].
      apply no_due_at_exit; auto.
  - destruct (heap_min (timer_heap L)) as [h|] eqn:Hmin.
    + destruct (Z.lt_ge_cases (time L) (timeout (timers L h))) as [Hlt|Hge].
      * rewrite run_timers_exit in Hrun by eauto.
        injection Hrun as <- <-. split; [exact Hinv|]. split; [exact Hcb|].
        apply no_due_at_exit; eauto.
      * rewrite (run_timers_step U callbacks fuel L u h Hmin ltac:(lia)) in Hrun.
        destruct (loop_inv_min L h Hinv Hmin) as [Ha _].
        destruct (stop_again L h Hinv Ha)
          as (L1 & L2 & r & Es & _ & _ & _ & Ea & _ & _ & _ & _ & T2 & Tcb & _ & _ & Hinv2).
        rewrite Es in Hrun. cbn [bind] in Hrun. rewrite Ea in Hrun. cbn [bind] in Hrun.
        assert (Hcb2 : cb_inv L2).
        { intros x Hx. destruct (Pos.eq_dec x h) as [->|Hne].
          - rewrite Tcb. apply Hcb, Ha.
          - rewrite T2 in * by assumption. apply Hcb, Hx. }
        destruct (timer_cb (timers L2 h)) as [c|]; [|discriminate Hrun].
        cbn [bind] in Hrun.
        destruct (callbacks c h (L2, u)) as [[L3 u3]|] eqn:Ec; [|discriminate Hrun].
        cbn [bind] in Hrun.
        destruct (callbacks_keep c h L2 u L3 u3 Hinv2 Hcb2 Ec) as [Hinv3 Hcb3].
        exact (IH L3 u3 L' u' Hinv3 Hcb3 Hrun).
    + rewrite run_timers_exit in Hrun by auto.
      injection Hrun as <- <-. split; [exact Hinv|]. split; [exact Hcb|].
      apply no_due_at_exit; auto.
Qed.

Lemma run_timers_preserves_witness :
  exists L1 rc L' log,
    uv_timer_start (set_time loop0 5) 1%positive (Some 1%positive) 10 3 = Some (L1, rc) /\
    uv__run_timers (list ptr) log_cb 1 (set_time L1 20, []) = Some (L', log) /\
    loop_inv L' /\ (forall h, ~ due L' h).
Proof.
  destruct (start_safe (set_time loop0 5) 1%positive (Some 1%positive) 10 3
              (loop_inv_loop0 5)) as (L1 & rc & Es & Hinv & Hcb & _).
  - intros h Hh. discriminate Hh.
  - right. reflexivity.
  - destruct (uv__run_timers (list ptr) log_cb 1 (set_time L1 20, []))
      as [[L' log]|] eqn:Er.
    2:{ exfalso. vm_compute in Es. injection Es as <- <-. vm_compute in Er.
        discriminate Er. }
    destruct (run_timers_preserves (list ptr) log_cb) with (4 := Er) as (I & _ & N).
    + intros cb h L0 u L0' u' I0 C0 Ecb. unfold log_cb in Ecb. cbn [fst] in Ecb.
      injection Ecb as <- _. auto.
    + apply (loop_inv_ext L1); [exact Hinv|reflexivity|reflexivity|reflexivity].
    + intros h Hh. apply (Hcb h). exact Hh.
    + exists L1, rc, L', log. auto.
Defined.

(** ** The poll timeout and the active timers *)

Lemma next_timeout_le L x :
  loop_inv L -> is_uint64 (time L) ->
  (forall y, active (timers L y) = true -> is_uint64 (timeout (timers L y))) ->
  active (timers L x) = true ->
  0 <= uv__next_timeout L <= Z.min (uv_timer_get_due_in L x) INT_MAX.
Proof.
  intros Hinv Ht Hd Hx.
  destruct (heap_min (timer_heap L)) as [m|] eqn:Hmin.
  2:{ rewrite (loop_inv_empty_heap L Hinv Hmin x) in Hx. discriminate Hx. }
  destruct (loop_inv_min L m Hinv Hmin) as [Hm Hleast].
  pose proof (proj1 (before_or_equiv_key _ _ _) (Hleast x Hx)) as K.
  unfold key_le, key_lt, timer_key in K. cbn [fst snd] in K.
  pose proof (Hd m Hm) as Rm. pose proof (Hd x Hx) as Rx.
  unfold is_uint64 in *.
  unfold uv__next_timeout, uv_timer_get_due_in. rewrite Hmin.
  destruct (Z.leb_spec (timeout (timers L m)) (time L)).
  - destruct (Z.leb_spec (timeout (timers L x)) (time L)).
    + unfold INT_MAX. lia.
    + unfold uint64, INT_MAX. rewrite Z.mod_small by lia. lia.
  - destruct (Z.leb_spec (timeout (timers L x)) (time L)); [lia|].
    cbv zeta. unfold uint64. rewrite !Z.mod_small by lia.
    unfold to_int, INT_MAX.
    destruct (Z.ltb_spec (2 ^ 31 - 1) (timeout (timers L m) - time L));
      rewrite Z.mod_small by lia; lia.
Qed.

(** X20. On a consistent loop with the clock and the active deadlines in
    the range of [uint64_t], the poll timeout never lets a timer run
    late: for every active handle, [uv__next_timeout] is at least 0 and
    at most that handle's [uv_timer_get_due_in], and at most INT_MAX; in
    particular it is 0 as soon as any active timer is due. *)
Theorem uv__next_timeout_bound L x :
  loop_inv L -> is_uint64 (time L) ->
  (forall y, active (timers L y) = true -> is_uint64 (timeout (timers L y))) ->
  active (timers L x) = true ->
  (0 <= uv__next_timeout L <= Z.min (uv_timer_get_due_in L x) INT_MAX) /\
  (due L x -> uv__next_timeout L = 0).
Proof.
  intros Hinv Ht Hd Hx.
  pose proof (next_timeout_le L x Hinv Ht Hd Hx) as B.
  split; [exact B|]. intros [_ Hdue].
  unfold uv_timer_get_due_in in B. apply Z.leb_le in Hdue. rewrite Hdue in B.
  unfold INT_MAX in B. lia.
Qed.

(** X21. Starting a timer bounds the next poll: after an accepted
    [uv_timer_start] with timeout [t] whose deadline does not overflow,
    [uv__next_timeout] is at most [t] (and at most INT_MAX); a timer
    started with timeout 0 is due at once and makes it 0. *)
Theorem uv_timer_start_next_timeout L h c t r :
  loop_inv L -> is_uint64 (time L) -> is_uint64 t -> time L + t <= UINT64_MAX ->
  (forall y, active (timers L y) = true -> is_uint64 (timeout (timers L y))) ->
  closing (timers L h) = false ->
  active (timers L h) = true \/ nelts (hp (timer_heap L)) < UINT_MAX ->
  exists L',
    uv_timer_start L h (Some c) t r = Some (L', 0) /\
    uv_timer_get_due_in L' h = t /\
    (0 <= uv__next_timeout L' <= Z.min t INT_MAX) /\
    (t = 0 -> due L' h /\ uv__next_timeout L' = 0).
Proof.
  intros Hinv Htm Ht Hsum Hd Hcl Hroom.
  destruct (uv_timer_start_ok L h c t r Hinv Hcl Hroom)
    as (L1 & L' & _ & _ & _ & _ & _ & _ & Es & _ & Th & To & Tm & _ & _ & Hinv').
  assert (Hto : timeout (timers L' h) = time L + t).
  { rewrite Th. cbn [timeout]. rewrite (proj1 (clamp_exact (time L) t Htm Ht)).
    unfold clamp_deadline. apply Z.leb_le in Hsum. rewrite Hsum. reflexivity. }
  assert (Ha : active (timers L' h) = true) by (rewrite Th; reflexivity).
  assert (Hd' : forall y, active (timers L' y) = true -> is_uint64 (timeout (timers L' y))).
  { intros y Hy. destruct (Pos.eq_dec y h) as [->|Hne].
    - rewrite Hto. unfold is_uint64, UINT64_MAX in *. lia.
    - rewrite To in * by assumption. apply Hd, Hy. }
  assert (Hdue : uv_timer_get_due_in L' h = t).
  { unfold uv_timer_get_due_in. rewrite Hto, Tm. unfold is_uint64 in *.
    destruct (Z.leb_spec (time L + t) (time L)); [lia|].
    unfold uint64. rewrite Z.mod_small by lia. lia. }
  pose proof (next_timeout_le L' h Hinv' ltac:(rewrite Tm; exact Htm) Hd' Ha) as B.
  rewrite Hdue in B.
  exists L'. split; [exact Es|]. split; [exact Hdue|]. split; [exact B|].
  intros ->. split.
  - split; [exact Ha|]. rewrite Hto, Tm. lia.
  - unfold INT_MAX in B. lia.
Qed.

Lemma uv__next_timeout_bound_witness :
  exists L1,
    uv_timer_start (set_time loop0 5) 1%positive (Some 1%positive) 10 0 = Some (L1, 0) /\
    0 <= uv__next_timeout L1 <= Z.min (uv_timer_get_due_in L1 1%positive) INT_MAX.
Proof.
  destruct (uv_timer_start_ok (set_time loop0 5) 1%positive 1%positive 10 0
              (loop_inv_loop0 5) eq_refl (or_intror eq_refl))
    as (L0 & L1 & _ & _ & _ & _ & _ & _ & Es & _ & Th & To & Tm & _ & _ & Hinv).
  destruct (uv__next_timeout_bound L1 1%positive Hinv) as (B & _).
  - rewrite Tm. cbn. unfold is_uint64. lia.
  - intros y Hy. destruct (Pos.eq_dec y 1%positive) as [->|Hne].
    + rewrite Th. vm_compute. split; [discriminate|reflexivity].
    + rewrite To in Hy by assumption. discriminate Hy.
  - rewrite Th. reflexivity.
  - exists L1. split; [exact Es|exact B].
Defined.

Lemma uv_timer_start_next_timeout_witness :
  exists L',
    uv_timer_start (set_time loop0 5) 1%positive (Some 1%positive) 0 0 = Some (L', 0) /\
    uv__next_timeout L' = 0.
Proof.
  destruct (uv_timer_start_next_timeout (set_time loop0 5) 1%positive 1%positive 0 0
              (loop_inv_loop0 5)) as (L' & Es & _ & _ & Z0).
  - cbn. unfold is_uint64. lia.
  - unfold is_uint64. lia.
  - cbn. unfold UINT64_MAX. lia.
  - intros y Hy. discriminate Hy.
  - reflexivity.
  - right. reflexivity.
  - exists L'. split; [exact Es|]. apply Z0. reflexivity.
Defined.
